(** * An event-driven backtesting engine, embedded and verified

    Shallow embedding of the Python package [algotrader]
    (core.py, loader.py, base.py, manager.py, broker.py, portfolio.py,
    engine.py, performance.py) and proofs about its bar feed, risk manager,
    simulated broker, portfolio ledger, event loop and trade statistics.

    Conventions of the embedding.
    - Python floats are modelled by exact rationals [Q]: rounding, overflow
      and infinities are outside the model.  [NaN] only arises as the result
      of [compute_atr] and is modelled by [None].
    - [pd.Timestamp] is a totally ordered type; it is modelled by [Z].
    - A Python exception is modelled by [None] in the [option] monad.  So is
      a float division by zero, which raises on built-in floats and gives
      [inf] or [NaN] on numpy floats: the model follows neither further.
    - A feed is a dictionary of frames; the model of its index and of its
      iteration is that of the code on the dictionaries accepted by
      [feed_ok] (not empty, labels unique within each frame), on the others
      the code raises.  A strategy is modelled by hooks that return: a hook
      that raises ends the run of the code, and is outside the model.
    - Dictionaries that are only read with [get]/[in] and written with
      [d[k] = v] are [gmap]s; the positions dictionary, which the code
      iterates, is an insertion-ordered association list.
    - Objects mutated behind the caller's back (the global order counter,
      the status of an order) are threaded explicitly.
    - Slippage and commission models are the functions they implement; the
      model with a square root ([VolumeSlippage]) is not spelled out.
    - [Portfolio.equity_curve()] and [Portfolio.trade_log()] build their
      frames from [_equity_curve] and [_trades] alone; the properties are
      stated on these two lists. *)

From Stdlib Require Import QArith Qabs Qround Qminmax Ascii Lqa.
From stdpp Require Import gmap strings list fin_maps pretty sorting.

Local Open Scope Z_scope.

(** ** Float helpers *)

Definition Qleb (a b : Q) : bool := Qle_bool a b.
Definition Qltb (a b : Q) : bool := negb (Qle_bool b a).
Definition Qeqb (a b : Q) : bool := Qeq_bool a b.

(** Python's [max(a, b)] and [min(a, b)] return the first argument on ties. *)
Definition py_max (a b : Q) : Q := if Qltb a b then b else a.
Definition py_min (a b : Q) : Q := if Qltb b a then b else a.

(** [np.floor] *)
Definition np_floor (q : Q) : Q := inject_Z (Qfloor q).

(** Truthiness of an [Optional[float]]: [None] and [0.0] are falsy. *)
Definition truthy (o : option Q) : bool :=
  match o with
  | Some q => negb (Qeqb q 0)
  | None => false
  end.

(** [a or b] on optional floats. *)
Definition py_or (a b : option Q) : option Q := if truthy a then a else b.

(** Python slice [l[start:]]: a negative start counts from the end, and both
    ends are clamped to the list. *)
Definition slice_from {A} (start : Z) (l : list A) : list A :=
  let len := Z.of_nat (length l) in
  let s := if start <? 0 then Z.max 0 (start + len) else Z.min start len in
  drop (Z.to_nat s) l.

(** Python slice [l[:-1]]. *)
Definition slice_init {A} (l : list A) : list A := take (length l - 1)%nat l.

(** ** core.py *)

Inductive OrderSide := BUY | SELL.
Inductive OrderType := MARKET | LIMIT.
Inductive OrderStatus := PENDING | FILLED | CANCELLED | REJECTED.
Inductive SignalDirection := LONG | SHORT | FLAT.

Global Instance OrderSide_eq_dec : EqDecision OrderSide.
Proof. solve_decision. Defined.
Global Instance OrderType_eq_dec : EqDecision OrderType.
Proof. solve_decision. Defined.
Global Instance OrderStatus_eq_dec : EqDecision OrderStatus.
Proof. solve_decision. Defined.
Global Instance SignalDirection_eq_dec : EqDecision SignalDirection.
Proof. solve_decision. Defined.

(** [OrderSide.value] *)
Definition side_value (s : OrderSide) : string :=
  match s with BUY => "BUY" | SELL => "SELL" end.

Module MarketEvent.
Record t := mk {
  timestamp : Z;
  symbol : string;
  open : Q;
  high : Q;
  low : Q;
  close : Q;
  volume : Q
}.
End MarketEvent.

Module SignalEvent.
Record t := mk {
  timestamp : Z;
  symbol : string;
  strategy_id : string;
  direction : SignalDirection;
  strength : Q;
  stop_loss : option Q;
  take_profit : option Q
}.
End SignalEvent.

Module OrderEvent.
Record t := mk {
  timestamp : Z;
  symbol : string;
  order_type : OrderType;
  side : OrderSide;
  quantity : Q;
  limit_price : option Q;
  stop_loss : option Q;
  take_profit : option Q;
  order_id : string;
  status : OrderStatus
}.

(** [order.status = s] *)
Definition set_status (s : OrderStatus) (o : t) : t :=
  mk (timestamp o) (symbol o) (order_type o) (side o) (quantity o)
     (limit_price o) (stop_loss o) (take_profit o) (order_id o) s.

Definition set_order_id (i : string) (o : t) : t :=
  mk (timestamp o) (symbol o) (order_type o) (side o) (quantity o)
     (limit_price o) (stop_loss o) (take_profit o) i (status o).
End OrderEvent.

Module FillEvent.
Record t := mk {
  timestamp : Z;
  symbol : string;
  side : OrderSide;
  quantity : Q;
  fill_price : Q;
  commission : Q;
  slippage : Q;
  order_id : string;
  strategy_id : string
}.

Definition set_order_id (i : string) (f : t) : t :=
  mk (timestamp f) (symbol f) (side f) (quantity f) (fill_price f)
     (commission f) (slippage f) i (strategy_id f).
End FillEvent.

(** *** The order-id counter

    [_order_counter] is a module-level global: it is created once, when
    [core] is imported, and nothing in the package ever resets it.  The
    counter is therefore part of the process state threaded through every
    function that constructs an [OrderEvent]. *)

(** [f"{n:06d}"]: decimal digits, left-padded with zeros to width six. *)
Fixpoint zeros (k : nat) : string :=
  match k with
  | O => EmptyString
  | S k => String "0" (zeros k)
  end.

Definition zero_pad (width : nat) (s : string) : string :=
  zeros (width - String.length s) +:+ s.

Definition format_06d (n : N) : string := zero_pad 6 (pretty n).

(** [_next_id()]: increments the global counter and formats it. *)
Definition _next_id (counter : N) : string * N :=
  let counter := (counter + 1)%N in
  ("ORD-" +:+ format_06d counter, counter).

(** [OrderEvent(...)] with the default [order_id] factory and the default
    status. *)
Definition new_order (ts : Z) (sym : string) (ty : OrderType) (sd : OrderSide)
    (qty : Q) (lp sl tp : option Q) (counter : N) : OrderEvent.t * N :=
  let '(oid, counter) := _next_id counter in
  (OrderEvent.mk ts sym ty sd qty lp sl tp oid PENDING, counter).

(** ** loader.py: the bar feed *)

(** One row of a validated OHLCV [DataFrame]; [index] is the row label. *)
Module Row.
Record t := mk {
  index : Z;
  open : Q;
  high : Q;
  low : Q;
  close : Q;
  volume : Q
}.
End Row.

(** A [DataFrame] is its list of rows, in frame order. *)
Abbreviation DataFrame := (list Row.t).

(** [BarFeed._data]: symbol to frame. *)
Abbreviation BarFeed := (gmap string DataFrame).

(** [df[df.index <= up_to]]: a boolean mask keeps the rows in frame order. *)
Definition mask_le (up_to : Z) (df : DataFrame) : DataFrame :=
  filter (λ r, Row.index r ≤ up_to) df.

(** [hist.iloc[-n:]] *)
Definition iloc_last {A} (n : Z) (l : list A) : list A := slice_from (- n) l.

(** [BarFeed.history]; [self._data[symbol]] raises [KeyError] for a symbol
    the feed does not hold. *)
Definition history (feed : BarFeed) (symbol : string) (up_to : Z)
    (n : option Z) : option DataFrame :=
  df ← feed !! symbol;
  let hist := mask_le up_to df in
  Some (match n with
        | Some n => iloc_last n hist
        | None => hist
        end).

(** [ts in df.index] and [df.loc[ts]] on a frame whose labels are unique
    (the loaders drop duplicates); on a label that occurs twice [df.loc[ts]]
    is a frame and [__iter__] raises: see [feed_ok]. *)
Definition loc (ts : Z) (df : DataFrame) : option Row.t :=
  List.find (λ r, bool_decide (Row.index r = ts)) df.

Definition bar_of_row (ts : Z) (symbol : string) (r : Row.t) : MarketEvent.t :=
  MarketEvent.mk ts symbol (Row.open r) (Row.high r) (Row.low r)
                 (Row.close r) (Row.volume r).

(** [BarFeed._index]: the sorted union of the frames' labels.  (For a
    dictionary with a label duplicated within a frame, or without a frame,
    the constructor or the iteration raises: see [feed_ok] and
    [backtest].) *)
Definition feed_index (feed : BarFeed) : list Z :=
  merge_sort Z.le
    (remove_dups (mjoin ((λ kv, Row.index <$> kv.2) <$> map_to_list feed))).

(** The dictionary [events] built for one timestamp. *)
Definition events_at (feed : BarFeed) (ts : Z) : gmap string MarketEvent.t :=
  map_imap (λ symbol df, bar_of_row ts symbol <$> loc ts df) feed.

(** [BarFeed.__iter__]: timestamps with no bar at all are skipped. *)
Definition feed_iter (feed : BarFeed) : list (Z * gmap string MarketEvent.t) :=
  omap (λ ts, let events := events_at feed ts in
              if decide (events = ∅) then None else Some (ts, events))
       (feed_index feed).

(** ** manager.py: ATR, position sizers, risk manager *)

(** [np.maximum(a, b)], element by element. *)
Definition np_maximum (a b : list Q) : list Q := zip_with py_max a b.

(** [np.mean]; the mean of an empty array is [NaN]. *)
Definition np_mean (l : list Q) : option Q :=
  match l with
  | [] => None
  | _ => Some (fold_left Qplus l 0 / inject_Z (Z.of_nat (length l)))%Q
  end.

(** The array [tr] of [compute_atr]. *)
Definition true_ranges (df : DataFrame) : list Q :=
  let highs := Row.high <$> df in
  let lows := Row.low <$> df in
  let closes := Row.close <$> df in
  np_maximum
    (np_maximum
       (zip_with Qminus (slice_from 1 highs) (slice_from 1 lows))
       (Qabs <$> zip_with Qminus (slice_from 1 highs) (slice_init closes)))
    (Qabs <$> zip_with Qminus (slice_from 1 lows) (slice_init closes)).

(** [compute_atr(df, period)]; [None] is [NaN]. *)
Definition compute_atr (df : DataFrame) (period : Z) : option Q :=
  if Z.of_nat (length df) <? period + 1 then None
  else np_mean (iloc_last period (true_ranges df)).

(** The two sizer classes. *)
Inductive Sizer :=
| ATRPositionSizer (risk_pct : Q) (atr_period : Z) (atr_multiplier : Q)
                   (max_position_pct : Q)
| FixedFractionSizer (fraction : Q).

(** [sizer.size(equity, price, atr, signal_strength)].  Dividing by a zero
    stop distance is a division by zero ([None]: a [ZeroDivisionError] on
    built-in floats, [inf] on numpy floats). *)
Definition size (s : Sizer) (equity price : Q) (atr : option Q)
    (signal_strength : Q) : option Q :=
  match s with
  | ATRPositionSizer risk_pct _ atr_multiplier max_position_pct =>
      match atr with
      | None => Some 0%Q
      | Some atr =>
          if Qleb atr 0 || Qleb price 0 then Some 0%Q
          else
            let stop_distance := (atr * atr_multiplier)%Q in
            let dollar_risk := (equity * risk_pct * signal_strength)%Q in
            if Qeqb stop_distance 0 then None
            else
              let raw_qty := (dollar_risk / stop_distance)%Q in
              let max_qty := ((equity * max_position_pct) / price)%Q in
              let qty := py_min raw_qty max_qty in
              Some (py_max 0 (np_floor qty))
      end
  | FixedFractionSizer fraction =>
      if Qleb price 0 then Some 0%Q
      else Some (py_max 0
                   (np_floor ((equity * fraction * signal_strength) / price)%Q))
  end.

Module RiskManager.
Record t := mk {
  sizer : Sizer;
  atr_period : Z;
  stop_atr_mult : Q;
  tp_atr_mult : Q;
  max_open_positions : Z;
  allow_short : bool
}.
End RiskManager.

(** [open_positions.get(symbol, 0.0)] on the dictionary returned by
    [Portfolio.open_positions]. *)
Definition held_qty (open_positions : list (string * Q)) (symbol : string) : Q :=
  match List.find (λ kv, bool_decide (kv.1 = symbol)) open_positions with
  | Some kv => kv.2
  | None => 0%Q
  end.

(** [len([s for s, q in open_positions.items() if q > 0])] *)
Definition count_long (open_positions : list (string * Q)) : Z :=
  Z.of_nat (length (List.filter (λ kv, Qltb 0 kv.2) open_positions)).

(** The body of the loop of [RiskManager.process_signals] for one signal:
    the orders it appends, and the order counter afterwards. *)
Definition signal_orders (rm : RiskManager.t)
    (market_events : gmap string MarketEvent.t) (feed : BarFeed) (equity : Q)
    (open_positions : list (string * Q)) (sig : SignalEvent.t) (counter : N)
    : option (list OrderEvent.t * N) :=
  match market_events !! SignalEvent.symbol sig with
  | None => Some ([], counter)
  | Some bar =>
      let price := MarketEvent.close bar in
      hist ← history feed (SignalEvent.symbol sig) (SignalEvent.timestamp sig)
                     (Some (RiskManager.atr_period rm + 5));
      let atr := compute_atr hist (RiskManager.atr_period rm) in
      let held := held_qty open_positions (SignalEvent.symbol sig) in
      match SignalEvent.direction sig with
      | LONG =>
          if Qltb 0 held then Some ([], counter)
          else if negb (RiskManager.allow_short rm)
                  && bool_decide (RiskManager.max_open_positions rm
                                  ≤ count_long open_positions)
          then Some ([], counter)
          else
            qty ← size (RiskManager.sizer rm) equity price atr
                       (SignalEvent.strength sig);
            if Qleb qty 0 then Some ([], counter)
            else
              let sl := py_or (SignalEvent.stop_loss sig)
                          ((λ a, price - a * RiskManager.stop_atr_mult rm)%Q
                             <$> atr) in
              let tp := py_or (SignalEvent.take_profit sig)
                          ((λ a, price + a * RiskManager.tp_atr_mult rm)%Q
                             <$> atr) in
              let '(o, counter) :=
                new_order (SignalEvent.timestamp sig) (SignalEvent.symbol sig)
                          MARKET BUY qty None sl tp counter in
              Some ([o], counter)
      | FLAT =>
          if Qltb 0 held then
            let '(o, counter) :=
              new_order (SignalEvent.timestamp sig) (SignalEvent.symbol sig)
                        MARKET SELL held None None None counter in
            Some ([o], counter)
          else if Qltb held 0 && RiskManager.allow_short rm then
            let '(o, counter) :=
              new_order (SignalEvent.timestamp sig) (SignalEvent.symbol sig)
                        MARKET BUY (Qabs held) None None None counter in
            Some ([o], counter)
          else Some ([], counter)
      | SHORT =>
          if RiskManager.allow_short rm then
            if Qltb held 0 then Some ([], counter)
            else
              qty ← size (RiskManager.sizer rm) equity price atr
                         (SignalEvent.strength sig);
              if Qleb qty 0 then Some ([], counter)
              else
                let '(o, counter) :=
                  new_order (SignalEvent.timestamp sig) (SignalEvent.symbol sig)
                            MARKET SELL qty None None None counter in
                Some ([o], counter)
          else Some ([], counter)
      end
  end.

(** [RiskManager.process_signals]: the signals in order, the orders appended
    in order. *)
Fixpoint process_signals (rm : RiskManager.t) (signals : list SignalEvent.t)
    (market_events : gmap string MarketEvent.t) (feed : BarFeed) (equity : Q)
    (open_positions : list (string * Q)) (counter : N)
    : option (list OrderEvent.t * N) :=
  match signals with
  | [] => Some ([], counter)
  | sig :: signals =>
      '(os, counter) ← signal_orders rm market_events feed equity
                                     open_positions sig counter;
      '(os', counter) ← process_signals rm signals market_events feed equity
                                        open_positions counter;
      Some (os ++ os', counter)
  end.

(** One entry of the dictionary [Portfolio.open_positions_detail]. *)
Module Detail.
Record t := mk {
  qty : Q;
  entry : Q;
  stop_loss : option Q;
  take_profit : option Q
}.
End Detail.

(** The body of the loop of [RiskManager.check_stop_conditions]. *)
Definition stop_order (market_events : gmap string MarketEvent.t)
    (symbol : string) (pos : Detail.t) (counter : N)
    : list OrderEvent.t * N :=
  match market_events !! symbol with
  | None => ([], counter)
  | Some bar =>
      if Qeqb (Detail.qty pos) 0 then ([], counter)
      else
        let sl := Detail.stop_loss pos in
        let tp := Detail.take_profit pos in
        let qty := Detail.qty pos in
        if Qltb 0 qty then
          if truthy sl && from_option (Qleb (MarketEvent.low bar)) false sl then
            let '(o, counter) :=
              new_order (MarketEvent.timestamp bar) symbol MARKET SELL qty
                        None None None counter in
            ([o], counter)
          else if truthy tp
                  && from_option (λ tp, Qleb tp (MarketEvent.high bar)) false tp
          then
            let '(o, counter) :=
              new_order (MarketEvent.timestamp bar) symbol MARKET SELL qty
                        None None None counter in
            ([o], counter)
          else ([], counter)
        else ([], counter)
  end.

(** [RiskManager.check_stop_conditions] *)
Fixpoint check_stop_conditions
    (open_positions_detail : list (string * Detail.t))
    (market_events : gmap string MarketEvent.t) (counter : N)
    : list OrderEvent.t * N :=
  match open_positions_detail with
  | [] => ([], counter)
  | (symbol, pos) :: rest =>
      let '(os, counter) := stop_order market_events symbol pos counter in
      let '(os', counter) := check_stop_conditions rest market_events counter in
      (os ++ os', counter)
  end.

(** ** broker.py: the simulated broker *)

(** [BaseSlippage.apply(side, price, quantity, bar)] and
    [BaseCommission.calculate(quantity, fill_price)] are abstract methods;
    a model is the function it implements. *)
Definition SlippageModel : Type := OrderSide → Q → Q → MarketEvent.t → Q.
Definition CommissionModel : Type := Q → Q → Q.

(** [FixedSlippage(bps)] *)
Definition FixedSlippage (bps : Q) : SlippageModel :=
  λ _ price _ _, (price * (bps / 10000))%Q.

(** [PerShareCommission(rate, min_fee)] *)
Definition PerShareCommission (rate min_fee : Q) : CommissionModel :=
  λ quantity _, py_max (quantity * rate)%Q min_fee.

(** [PercentCommission(pct)] *)
Definition PercentCommission (pct : Q) : CommissionModel :=
  λ quantity fill_price, (quantity * fill_price * pct)%Q.

Module Broker.
Record t := mk {
  slippage : SlippageModel;
  commission : CommissionModel;
  max_bars_pending : Z
}.
End Broker.

(** An entry [{"order": ..., "bars_waited": ...}] of [_pending]. *)
Module Item.
Record t := mk {
  order : OrderEvent.t;
  bars_waited : Z
}.
End Item.

(** [SimulatedBroker.submit] *)
Definition submit (pending : list Item.t) (order : OrderEvent.t) : list Item.t :=
  pending ++ [Item.mk order 0].

(** [SimulatedBroker._try_fill]: [Some None] is the Python result [None]
    (no fill); the outer [None] is the [TypeError] of comparing a price
    with a missing limit price. *)
Definition _try_fill (order : OrderEvent.t) (bar : MarketEvent.t)
    : option (option Q) :=
  match OrderEvent.order_type order with
  | MARKET => Some (Some (MarketEvent.open bar))
  | LIMIT =>
      lp ← OrderEvent.limit_price order;
      match OrderEvent.side order with
      | BUY =>
          if Qleb (MarketEvent.low bar) lp
          then Some (Some (py_min lp (MarketEvent.open bar)))
          else Some None
      | SELL =>
          if Qleb lp (MarketEvent.high bar)
          then Some (Some (py_max lp (MarketEvent.open bar)))
          else Some None
      end
  end.

(** What one iteration of the loop of [process_bar] does with an entry. *)
Inductive Outcome :=
| Filled (fill : FillEvent.t) (order : OrderEvent.t)
| Cancelled (order : OrderEvent.t)
| Kept (item : Item.t).

(** The branch [if fill_price is not None] of the loop of [process_bar]:
    the [FillEvent] it appends. *)
Definition fill_order (b : Broker.t) (strategy_id_map : gmap string string)
    (order : OrderEvent.t) (bar : MarketEvent.t) (fill_price : Q)
    : FillEvent.t :=
  let slip := Broker.slippage b (OrderEvent.side order) fill_price
                (OrderEvent.quantity order) bar in
  let fill_price :=
    match OrderEvent.side order with
    | BUY => (fill_price + slip)%Q
    | SELL => (fill_price - slip)%Q
    end in
  let comm := Broker.commission b (OrderEvent.quantity order) fill_price in
  FillEvent.mk (MarketEvent.timestamp bar) (OrderEvent.symbol order)
    (OrderEvent.side order) (OrderEvent.quantity order) fill_price comm
    (slip * OrderEvent.quantity order)%Q (OrderEvent.order_id order)
    (default EmptyString (strategy_id_map !! OrderEvent.order_id order)).

(** The body of the loop of [SimulatedBroker.process_bar]. *)
Definition process_item (b : Broker.t)
    (market_events : gmap string MarketEvent.t)
    (strategy_id_map : gmap string string) (item : Item.t) : option Outcome :=
  let order := Item.order item in
  let item := Item.mk order (Item.bars_waited item + 1) in
  match market_events !! OrderEvent.symbol order with
  | None => Some (Kept item)
  | Some bar =>
      fill_price ← _try_fill order bar;
      match fill_price with
      | Some fill_price =>
          Some (Filled (fill_order b strategy_id_map order bar fill_price)
                       (OrderEvent.set_status FILLED order))
      | None =>
          if bool_decide (Broker.max_bars_pending b ≤ Item.bars_waited item)
          then Some (Cancelled (OrderEvent.set_status CANCELLED order))
          else Some (Kept item)
      end
  end.

(** The result of [process_bar]: the fills it returns, the new [_pending],
    and the orders that left the queue, with the status the call gave them. *)
Module BarResult.
Record t := mk {
  fills : list FillEvent.t;
  still_pending : list Item.t;
  retired : list OrderEvent.t
}.
End BarResult.

Definition add_outcome (o : Outcome) (r : BarResult.t) : BarResult.t :=
  match o with
  | Filled f ord =>
      BarResult.mk (f :: BarResult.fills r) (BarResult.still_pending r)
                   (ord :: BarResult.retired r)
  | Cancelled ord =>
      BarResult.mk (BarResult.fills r) (BarResult.still_pending r)
                   (ord :: BarResult.retired r)
  | Kept it =>
      BarResult.mk (BarResult.fills r) (it :: BarResult.still_pending r)
                   (BarResult.retired r)
  end.

(** [SimulatedBroker.process_bar]: the queue is walked in order. *)
Fixpoint process_bar (b : Broker.t) (market_events : gmap string MarketEvent.t)
    (strategy_id_map : gmap string string) (pending : list Item.t)
    : option BarResult.t :=
  match pending with
  | [] => Some (BarResult.mk [] [] [])
  | item :: pending =>
      o ← process_item b market_events strategy_id_map item;
      r ← process_bar b market_events strategy_id_map pending;
      Some (add_outcome o r)
  end.

(** ** portfolio.py: the ledger *)

Module Position.
Record t := mk {
  symbol : string;
  quantity : Q;
  avg_entry : Q;
  stop_loss : option Q;
  take_profit : option Q;
  realized_pnl : Q
}.

Definition unrealized_pnl (p : t) (current_price : Q) : Q :=
  ((current_price - avg_entry p) * quantity p)%Q.

Definition market_value (p : t) (current_price : Q) : Q :=
  (quantity p * current_price)%Q.
End Position.

Module TradeRecord.
Record t := mk {
  timestamp : Z;
  symbol : string;
  side : string;
  quantity : Q;
  fill_price : Q;
  commission : Q;
  slippage : Q;
  pnl : Q;
  order_id : string;
  strategy_id : string
}.

Definition set_order_id (i : string) (r : t) : t :=
  mk (timestamp r) (symbol r) (side r) (quantity r) (fill_price r)
     (commission r) (slippage r) (pnl r) i (strategy_id r).
End TradeRecord.

(** One dictionary appended to [_equity_curve]. *)
Module Snapshot.
Record t := mk {
  timestamp : Z;
  cash : Q;
  holdings_value : Q;
  equity : Q;
  realized_pnl : Q;
  unrealized_pnl : Q;
  drawdown : Q
}.
End Snapshot.

(** *** Insertion-ordered dictionaries

    [_positions] is iterated by [mark_to_market] and by
    [open_positions_detail], so the order of its keys matters: an
    assignment to an existing key keeps its place, a new key goes last. *)
Section dict.
Context {V : Type}.

Definition dict_get (k : string) (d : list (string * V)) : option V :=
  snd <$> List.find (λ kv, bool_decide (kv.1 = k)) d.

Fixpoint dict_set (k : string) (v : V) (d : list (string * V))
    : list (string * V) :=
  match d with
  | [] => [(k, v)]
  | (k', v') :: d =>
      if bool_decide (k' = k) then (k, v) :: d
      else (k', v') :: dict_set k v d
  end.

Definition dict_del (k : string) (d : list (string * V)) : list (string * V) :=
  List.filter (λ kv, negb (bool_decide (kv.1 = k))) d.
End dict.

Module Portfolio.
Record t := mk {
  initial_capital : Q;
  cash : Q;
  _positions : list (string * Position.t);
  _equity_curve : list Snapshot.t;
  _trades : list TradeRecord.t;
  _total_commission : Q;
  _total_slippage : Q
}.

(** [Portfolio(initial_capital)] *)
Definition init (initial_capital : Q) : t :=
  mk initial_capital initial_capital [] [] [] 0 0.
End Portfolio.

(** [Portfolio._record_trade], as the new list of trades. *)
Definition _record_trade (trades : list TradeRecord.t) (fill : FillEvent.t)
    (pnl : Q) : list TradeRecord.t :=
  trades ++ [TradeRecord.mk (FillEvent.timestamp fill) (FillEvent.symbol fill)
               (side_value (FillEvent.side fill)) (FillEvent.quantity fill)
               (FillEvent.fill_price fill) (FillEvent.commission fill)
               (FillEvent.slippage fill) pnl (FillEvent.order_id fill)
               (FillEvent.strategy_id fill)].

(** [Portfolio._process_buy], on the positions and the trades; averaging
    into a total quantity of zero is a division by zero ([None]: a
    [ZeroDivisionError] on built-in floats, a [NaN] average entry on numpy
    floats). *)
Definition _process_buy (positions : list (string * Position.t))
    (trades : list TradeRecord.t) (fill : FillEvent.t)
    : option (list (string * Position.t) * list TradeRecord.t) :=
  let sym := FillEvent.symbol fill in
  let fresh :=
    dict_set sym (Position.mk sym (FillEvent.quantity fill)
                    (FillEvent.fill_price fill) None None 0) positions in
  positions ←
    match dict_get sym positions with
    | Some pos =>
        if Qltb 0 (Position.quantity pos) then
          let total_qty := (Position.quantity pos + FillEvent.quantity fill)%Q in
          if Qeqb total_qty 0 then None
          else
            let avg_entry :=
              ((Position.quantity pos * Position.avg_entry pos
                + FillEvent.quantity fill * FillEvent.fill_price fill)
               / total_qty)%Q in
            Some (dict_set sym
                    (Position.mk (Position.symbol pos) total_qty avg_entry
                       (Position.stop_loss pos) (Position.take_profit pos)
                       (Position.realized_pnl pos)) positions)
        else Some fresh
    | None => Some fresh
    end;
  Some (positions, _record_trade trades fill 0).

(** The epsilon [1e-9] below which a position is erased. *)
Definition qty_epsilon : Q := 1 # 1000000000.

(** [Portfolio._process_sell], on the positions and the trades; the last
    component is the realized P&L it returns. *)
Definition _process_sell (positions : list (string * Position.t))
    (trades : list TradeRecord.t) (fill : FillEvent.t)
    : list (string * Position.t) * list TradeRecord.t * Q :=
  let sym := FillEvent.symbol fill in
  let '(positions, realized) :=
    match dict_get sym positions with
    | Some pos =>
        let realized :=
          ((FillEvent.fill_price fill - Position.avg_entry pos)
           * FillEvent.quantity fill)%Q in
        let pos :=
          Position.mk (Position.symbol pos)
            (Position.quantity pos - FillEvent.quantity fill)%Q
            (Position.avg_entry pos) (Position.stop_loss pos)
            (Position.take_profit pos)
            (Position.realized_pnl pos + realized)%Q in
        if Qltb (Qabs (Position.quantity pos)) qty_epsilon
        then (dict_del sym positions, realized)
        else (dict_set sym pos positions, realized)
    | None => (positions, 0%Q)
    end in
  (positions, _record_trade trades fill realized, realized).

(** [Portfolio.on_fill] *)
Definition on_fill (pf : Portfolio.t) (fill : FillEvent.t) : option Portfolio.t :=
  let cost := (FillEvent.fill_price fill * FillEvent.quantity fill
               + FillEvent.commission fill)%Q in
  '(positions, trades, cash) ←
    match FillEvent.side fill with
    | BUY =>
        '(positions, trades) ←
          _process_buy (Portfolio._positions pf) (Portfolio._trades pf) fill;
        Some (positions, trades, (Portfolio.cash pf - cost)%Q)
    | SELL =>
        let '(positions, trades, _) :=
          _process_sell (Portfolio._positions pf) (Portfolio._trades pf) fill in
        Some (positions, trades,
              (Portfolio.cash pf
               + (FillEvent.fill_price fill * FillEvent.quantity fill
                  - FillEvent.commission fill))%Q)
    end;
  Some (Portfolio.mk (Portfolio.initial_capital pf) cash positions
          (Portfolio._equity_curve pf) trades
          (Portfolio._total_commission pf + FillEvent.commission fill)%Q
          (Portfolio._total_slippage pf + FillEvent.slippage fill)%Q).

(** The price [mark_to_market] values a position at. *)
Definition price_used (market_events : gmap string MarketEvent.t)
    (sym : string) (pos : Position.t) : Q :=
  match market_events !! sym with
  | Some bar => MarketEvent.close bar
  | None => Position.avg_entry pos
  end.

(** The loop of [mark_to_market]: the running [holdings_value] and
    [unrealized_pnl]. *)
Fixpoint mtm_loop (market_events : gmap string MarketEvent.t)
    (positions : list (string * Position.t)) (holdings_value unrealized_pnl : Q)
    : Q * Q :=
  match positions with
  | [] => (holdings_value, unrealized_pnl)
  | (sym, pos) :: positions =>
      let price := price_used market_events sym pos in
      let mv := Position.market_value pos price in
      mtm_loop market_events positions (holdings_value + mv)%Q
               (unrealized_pnl + Position.unrealized_pnl pos price)%Q
  end.

(** [sum(t.pnl for t in self._trades)] *)
Definition sum_pnl (trades : list TradeRecord.t) : Q :=
  fold_left (λ acc t, (acc + TradeRecord.pnl t)%Q) trades 0%Q.

(** [Portfolio.mark_to_market]: the snapshot it appends (its [equity] is
    the value the method returns). *)
Definition mtm_snapshot (pf : Portfolio.t) (timestamp : Z)
    (market_events : gmap string MarketEvent.t) : Snapshot.t :=
  let '(holdings_value, unrealized_pnl) :=
    mtm_loop market_events (Portfolio._positions pf) 0 0 in
  let equity := (Portfolio.cash pf + holdings_value)%Q in
  let realized_pnl := sum_pnl (Portfolio._trades pf) in
  Snapshot.mk timestamp (Portfolio.cash pf) holdings_value equity
              realized_pnl unrealized_pnl 0.

Definition mark_to_market (pf : Portfolio.t) (timestamp : Z)
    (market_events : gmap string MarketEvent.t) : Portfolio.t :=
  Portfolio.mk (Portfolio.initial_capital pf) (Portfolio.cash pf)
    (Portfolio._positions pf)
    (Portfolio._equity_curve pf ++ [mtm_snapshot pf timestamp market_events])
    (Portfolio._trades pf) (Portfolio._total_commission pf)
    (Portfolio._total_slippage pf).

(** The property [Portfolio.equity] *)
Definition equity (pf : Portfolio.t) : Q :=
  match last (Portfolio._equity_curve pf) with
  | Some snap => Snapshot.equity snap
  | None => Portfolio.initial_capital pf
  end.

(** The property [Portfolio.open_positions] *)
Definition open_positions (pf : Portfolio.t) : list (string * Q) :=
  (λ kv, (kv.1, Position.quantity kv.2)) <$> Portfolio._positions pf.

(** The property [Portfolio.open_positions_detail] *)
Definition open_positions_detail (pf : Portfolio.t) : list (string * Detail.t) :=
  (λ kv, (kv.1, Detail.mk (Position.quantity kv.2) (Position.avg_entry kv.2)
                   (Position.stop_loss kv.2) (Position.take_profit kv.2)))
    <$> Portfolio._positions pf.

(** [Portfolio.trade_log]: one row per trade record, in order. *)
Definition trade_log (pf : Portfolio.t) : list TradeRecord.t :=
  Portfolio._trades pf.

(** ** base.py: strategies *)

(** The arguments of one call of [BaseStrategy.emit_signal]. *)
Module Emit.
Record t := mk {
  timestamp : Z;
  symbol : string;
  direction : SignalDirection;
  strength : Q;
  stop_loss : option Q;
  take_profit : option Q
}.
End Emit.

(** A strategy object whose private state has type [S]: its [strategy_id],
    its [on_bar] (the calls of [emit_signal] it makes, in order, and its new
    state; the attached feed is part of the closure) and its [on_fill].
    Both hooks return: the engine catches nothing, so a hook that raises
    ends the run, and such strategies are not modelled. *)
Module Strategy.
Record t (S : Type) := mk {
  strategy_id : string;
  on_bar : S → Z → gmap string MarketEvent.t → list Emit.t * S;
  on_fill : S → FillEvent.t → S;
  state : S
}.
Arguments mk {S}.
Arguments strategy_id {S}.
Arguments on_bar {S}.
Arguments on_fill {S}.
Arguments state {S}.

Definition set_state {S} (s : S) (st : t S) : t S :=
  mk (strategy_id st) (on_bar st) (on_fill st) s.
End Strategy.

(** [BaseStrategy.emit_signal]: the signal appended to [_signals]. *)
Definition emit_signal (strategy_id : string) (e : Emit.t) : SignalEvent.t :=
  SignalEvent.mk (Emit.timestamp e) (Emit.symbol e) strategy_id
    (Emit.direction e) (py_max 0 (py_min 1 (Emit.strength e)))
    (Emit.stop_loss e) (Emit.take_profit e).

(** [BaseStrategy.on_fill]: the default hook does nothing. *)
Definition default_on_fill {S} : S → FillEvent.t → S := λ s _, s.

(** ** engine.py: the event loop *)

Module Engine.
(** The parts of a [BacktestEngine] that a run does not change. *)
Record config := mk_config {
  feed : BarFeed;
  broker : Broker.t;
  risk_manager : RiskManager.t
}.

(** The parts a run changes, with the process-wide order counter. *)
Record t (S : Type) := mk {
  strategies : list (Strategy.t S);
  portfolio : Portfolio.t;
  _pending : list Item.t;
  _order_strategy_map : gmap string string;
  _order_counter : N
}.
Arguments mk {S}.
Arguments strategies {S}.
Arguments portfolio {S}.
Arguments _pending {S}.
Arguments _order_strategy_map {S}.
Arguments _order_counter {S}.

(** [BacktestEngine(feed, strategies, initial_capital, broker,
    risk_manager)], created in a process whose order counter is
    [counter]. *)
Definition init {S} (strategies : list (Strategy.t S))
    (initial_capital : Q) (counter : N) : t S :=
  mk strategies (Portfolio.init initial_capital) [] ∅ counter.
End Engine.

(** [BacktestEngine._submit] *)
Definition _submit (pending : list Item.t) (m : gmap string string)
    (order : OrderEvent.t) (strategy_id : string)
    : list Item.t * gmap string string :=
  (submit pending order, <[OrderEvent.order_id order := strategy_id]> m).

(** Step 1 of the loop: every stop order is submitted for ["__risk__"]. *)
Fixpoint submit_stop_orders (pending : list Item.t) (m : gmap string string)
    (orders : list OrderEvent.t) : list Item.t * gmap string string :=
  match orders with
  | [] => (pending, m)
  | order :: orders =>
      let '(pending, m) := _submit pending m order "__risk__" in
      submit_stop_orders pending m orders
  end.

(** Step 2 of the loop: [on_bar] then [flush_signals], strategy by
    strategy. *)
Fixpoint run_strategies {S} (strategies : list (Strategy.t S)) (timestamp : Z)
    (market_events : gmap string MarketEvent.t)
    : list SignalEvent.t * list (Strategy.t S) :=
  match strategies with
  | [] => ([], [])
  | strat :: strategies =>
      let '(emits, s) :=
        Strategy.on_bar strat (Strategy.state strat) timestamp market_events in
      let '(signals, strategies) :=
        run_strategies strategies timestamp market_events in
      ((emit_signal (Strategy.strategy_id strat) <$> emits) ++ signals,
       Strategy.set_state s strat :: strategies)
  end.

(** [next((s for s in all_signals if s.symbol == order.symbol), None)],
    then [sig.strategy_id if sig else '']. *)
Definition attribution (all_signals : list SignalEvent.t)
    (order : OrderEvent.t) : string :=
  match List.find (λ s, bool_decide (SignalEvent.symbol s
                                     = OrderEvent.symbol order)) all_signals with
  | Some sig => SignalEvent.strategy_id sig
  | None => EmptyString
  end.

(** Step 3 of the loop: every order of the risk manager is submitted for
    the strategy of the first signal on its symbol. *)
Fixpoint submit_orders (all_signals : list SignalEvent.t)
    (pending : list Item.t) (m : gmap string string)
    (orders : list OrderEvent.t) : list Item.t * gmap string string :=
  match orders with
  | [] => (pending, m)
  | order :: orders =>
      let '(pending, m) :=
        _submit pending m order (attribution all_signals order) in
      submit_orders all_signals pending m orders
  end.

(** [strat.on_fill(fill)] for every strategy. *)
Definition notify_fill {S} (strategies : list (Strategy.t S))
    (fill : FillEvent.t) : list (Strategy.t S) :=
  (λ strat, Strategy.set_state
              (Strategy.on_fill strat (Strategy.state strat) fill) strat)
    <$> strategies.

(** Step 5 of the loop. *)
Fixpoint apply_fills {S} (pf : Portfolio.t) (strategies : list (Strategy.t S))
    (fills : list FillEvent.t) : option (Portfolio.t * list (Strategy.t S)) :=
  match fills with
  | [] => Some (pf, strategies)
  | fill :: fills =>
      pf ← on_fill pf fill;
      apply_fills pf (notify_fill strategies fill) fills
  end.

(** The orders of step 3 of the loop, and the counter after them: the risk
    manager is handed the portfolio as it stands when the bar begins. *)
Definition risk_orders {S} (cfg : Engine.config) (e : Engine.t S)
    (all_signals : list SignalEvent.t)
    (market_events : gmap string MarketEvent.t) (counter : N)
    : option (list OrderEvent.t * N) :=
  process_signals (Engine.risk_manager cfg) all_signals market_events
    (Engine.feed cfg) (equity (Engine.portfolio e))
    (open_positions (Engine.portfolio e)) counter.

(** The body of the loop of [BacktestEngine.run] for one pair
    [(timestamp, market_events)] of the feed. *)
Definition engine_step {S} (cfg : Engine.config) (e : Engine.t S)
    (bar : Z * gmap string MarketEvent.t) : option (Engine.t S) :=
  let '(timestamp, market_events) := bar in
  (* 1. stop-loss / take-profit *)
  let '(stop_orders, counter) :=
    check_stop_conditions (open_positions_detail (Engine.portfolio e))
                          market_events (Engine._order_counter e) in
  let '(pending, m) :=
    submit_stop_orders (Engine._pending e) (Engine._order_strategy_map e)
                       stop_orders in
  (* 2. strategies *)
  let '(all_signals, strategies) :=
    run_strategies (Engine.strategies e) timestamp market_events in
  (* 3. signals to orders *)
  '(orders, counter) ← risk_orders cfg e all_signals market_events counter;
  let '(pending, m) := submit_orders all_signals pending m orders in
  (* 4. pending orders against this bar *)
  r ← process_bar (Engine.broker cfg) market_events m pending;
  (* 5. fills to the portfolio and to the strategies *)
  '(pf, strategies) ← apply_fills (Engine.portfolio e) strategies
                                  (BarResult.fills r);
  (* 6. mark-to-market *)
  let pf := mark_to_market pf timestamp market_events in
  Some (Engine.mk strategies pf (BarResult.still_pending r) m counter).

(** The loop over the bars the feed yields. *)
Fixpoint run_bars {S} (cfg : Engine.config) (e : Engine.t S)
    (bars : list (Z * gmap string MarketEvent.t)) : option (Engine.t S) :=
  match bars with
  | [] => Some e
  | bar :: bars =>
      e ← engine_step cfg e bar;
      run_bars cfg e bars
  end.

(** The loop of [BacktestEngine.run] over the feed, from the engine as
    built to the engine after the last bar; [backtest] adds the
    construction of the feed and of the [BacktestResult] the method
    returns. *)
Definition run {S} (cfg : Engine.config) (e : Engine.t S) : option (Engine.t S) :=
  run_bars cfg e (feed_iter (Engine.feed cfg)).

(** ** Definitions used by the properties *)

(** *** The average true range in words

    [TR_i = max(H_i − L_i, |H_i − C_{i−1}|, |L_i − C_{i−1}|)], with the
    maximum and the absolute value of the rationals, and the ATR as the sum
    of the last [period] true ranges divided by [period]. *)

Definition TR (df : DataFrame) (i : nat) : Q :=
  match df !! i, df !! (i - 1)%nat with
  | Some r, Some p =>
      Qmax (Qmax (Row.high r - Row.low r)
                 (Qabs (Row.high r - Row.close p)))
           (Qabs (Row.low r - Row.close p))
  | _, _ => 0
  end%Q.

Definition Qsum (l : list Q) : Q := foldr Qplus 0%Q l.

Definition mean_last_true_ranges (df : DataFrame) (period : Z) : Q :=
  (Qsum (TR df <$> seq (length df - Z.to_nat period) (Z.to_nat period))
   / inject_Z period)%Q.

(** The code's vectorised computation, unrolled row by row. *)
Definition tr_row (p r : Row.t) : Q :=
  py_max (py_max (Row.high r - Row.low r)
                 (Qabs (Row.high r - Row.close p)))
         (Qabs (Row.low r - Row.close p))%Q.

(** *** The ledger *)

(** The price a position is to be valued at, in the words of the
    specification: the close of the symbol's bar when the bar [bar] of the
    symbol is present, else the position's average entry price. *)
Definition claimed_price (bar : option MarketEvent.t) (pos : Position.t) : Q :=
  match bar with
  | Some bar => MarketEvent.close bar
  | None => Position.avg_entry pos
  end.

(** The sum, over the open positions, of quantity times that price. *)
Definition holdings (market_events : gmap string MarketEvent.t)
    (positions : list (string * Position.t)) : Q :=
  Qsum ((λ kv, Position.quantity kv.2
               * claimed_price (market_events !! kv.1) kv.2)%Q
          <$> positions).

Definition no_stops (positions : list (string * Position.t)) : Prop :=
  Forall (λ kv, Position.stop_loss kv.2 = None
                ∧ Position.take_profit kv.2 = None) positions.

(** *** The broker's queue *)

(** [item["bars_waited"] += 1] *)
Definition waited (item : Item.t) : Item.t :=
  Item.mk (Item.order item) (Item.bars_waited item + 1).

Definition fills_now (market_events : gmap string MarketEvent.t)
    (o : OrderEvent.t) : Prop :=
  OrderEvent.order_type o = MARKET
  ∧ is_Some (market_events !! OrderEvent.symbol o).

(** *** Reading an order id back *)

Definition digit_value (c : ascii) : N := (N_of_ascii c - 48)%N.

Fixpoint digits_value (acc : N) (s : string) : N :=
  match s with
  | EmptyString => acc
  | String c s => digits_value (acc * 10 + digit_value c)%N s
  end.

(** *** Two runs side by side *)

(** A strategy whose [on_fill] does not look at the order id of the fill
    (the default hook, which every strategy of the package inherits, looks
    at nothing). *)
Definition fill_blind {S} (strat : Strategy.t S) : Prop :=
  ∀ s fill i,
    Strategy.on_fill strat s (FillEvent.set_order_id i fill)
    = Strategy.on_fill strat s fill.

(** [pf] with another list of trades. *)
Definition with_trades (trades : list TradeRecord.t) (pf : Portfolio.t)
    : Portfolio.t :=
  Portfolio.mk (Portfolio.initial_capital pf) (Portfolio.cash pf)
    (Portfolio._positions pf) (Portfolio._equity_curve pf) trades
    (Portfolio._total_commission pf) (Portfolio._total_slippage pf).

(** The runs of two engines built on the same inputs, one in a process whose
    order counter stands at [start1], the other at [start2], are compared up
    to the ids: the id that counter value [start1 + k] gives the first
    corresponds to the id that [start2 + k] gives the second. *)
Class Starts := { start1 : N; start2 : N }.

Section relations.
Context {starts : Starts}.

Definition id_rel (a b : string) : Prop :=
  ∃ k : N, a = (_next_id (start1 + k)).1 ∧ b = (_next_id (start2 + k)).1.

Definition counter_rel (c1 c2 : N) : Prop :=
  ∃ k : N, c1 = (start1 + k)%N ∧ c2 = (start2 + k)%N.

Definition order_rel (o1 o2 : OrderEvent.t) : Prop :=
  ∃ o a b, id_rel a b ∧ o1 = OrderEvent.set_order_id a o
           ∧ o2 = OrderEvent.set_order_id b o.

Definition item_rel (i1 i2 : Item.t) : Prop :=
  order_rel (Item.order i1) (Item.order i2)
  ∧ Item.bars_waited i1 = Item.bars_waited i2.

Definition fill_rel (f1 f2 : FillEvent.t) : Prop :=
  ∃ f a b, id_rel a b ∧ f1 = FillEvent.set_order_id a f
           ∧ f2 = FillEvent.set_order_id b f.

Definition trade_rel (t1 t2 : TradeRecord.t) : Prop :=
  ∃ t a b, id_rel a b ∧ t1 = TradeRecord.set_order_id a t
           ∧ t2 = TradeRecord.set_order_id b t.

Definition map_rel (m1 m2 : gmap string string) : Prop :=
  ∀ a b, id_rel a b → m1 !! a = m2 !! b.

Definition orders_rel (r1 r2 : list OrderEvent.t * N) : Prop :=
  Forall2 order_rel r1.1 r2.1 ∧ counter_rel r1.2 r2.2.

Definition pf_rel (p1 p2 : Portfolio.t) : Prop :=
  Forall2 trade_rel (Portfolio._trades p1) (Portfolio._trades p2)
  ∧ p1 = with_trades (Portfolio._trades p1) p2.

Definition engine_rel {S} (e1 e2 : Engine.t S) : Prop :=
  Engine.strategies e1 = Engine.strategies e2
  ∧ Forall fill_blind (Engine.strategies e1)
  ∧ pf_rel (Engine.portfolio e1) (Engine.portfolio e2)
  ∧ Forall2 item_rel (Engine._pending e1) (Engine._pending e2)
  ∧ map_rel (Engine._order_strategy_map e1) (Engine._order_strategy_map e2)
  ∧ counter_rel (Engine._order_counter e1) (Engine._order_counter e2).

Definition outcome_rel (x1 x2 : Outcome) : Prop :=
  match x1, x2 with
  | Filled f1 _, Filled f2 _ => fill_rel f1 f2
  | Cancelled _, Cancelled _ => True
  | Kept i1, Kept i2 => item_rel i1 i2
  | _, _ => False
  end.

Definition result_rel (r1 r2 : BarResult.t) : Prop :=
  Forall2 fill_rel (BarResult.fills r1) (BarResult.fills r2)
  ∧ Forall2 item_rel (BarResult.still_pending r1) (BarResult.still_pending r2).

End relations.

(** *** Sample inputs *)

(** A run on three bars: one strategy asks, on bar 1, to go long ["AAA"] with
    a stop-loss at 98; 5% of the equity is committed; bar 2 trades down to
    97. *)
Definition demo_feed : BarFeed :=
  {[ "AAA"%string :=
       [ Row.mk 1 100 101 99 100 1000;
         Row.mk 2 100 100 97 98 1000;
         Row.mk 3 96 97 95 96 1000 ] ]}.

Definition demo_strategy : Strategy.t unit :=
  Strategy.mk "S1"
    (λ s ts _, (if bool_decide (ts = 1)
                then [Emit.mk ts "AAA" LONG 1 (Some 98%Q) None] else [], s))
    default_on_fill tt.

Definition demo_config : Engine.config :=
  Engine.mk_config demo_feed
    (Broker.mk (FixedSlippage 5) (PercentCommission (1 # 1000)) 1)
    (RiskManager.mk (FixedFractionSizer (5 # 100)) 14 2 4 10 false).

Definition demo_engine (counter : N) : Engine.t unit :=
  Engine.init [demo_strategy] 100000 counter.

(** The columns of a trade-log row that the examples look at. *)
Definition trade_key (r : TradeRecord.t) : Z * string * string * string :=
  (TradeRecord.timestamp r, TradeRecord.side r, TradeRecord.order_id r,
   TradeRecord.strategy_id r).

Definition short_sale : FillEvent.t :=
  FillEvent.mk 1 "AAA" SELL 10 100 0 0 "ORD-000001" "S1".
Definition short_cover : FillEvent.t :=
  FillEvent.mk 2 "AAA" BUY 10 90 0 0 "ORD-000002" "S1".

Definition capped_book : list (string * Q) := [("BBB"%string, 10%Q)].

Definition long_signal : SignalEvent.t :=
  SignalEvent.mk 1 "AAA" "S1" LONG 1 None None.

Definition risk_with_shorts : RiskManager.t :=
  RiskManager.mk (FixedFractionSizer (5 # 100)) 14 2 4 1 true.


(** A feed in which ["BBB"] trades on the third timestamp only. *)
Definition sparse_feed : BarFeed :=
  <["BBB"%string := [Row.mk 3 100 101 99 100 1000]]> demo_feed.

(** A limit order to buy ["BBB"] at 90. *)
Definition idle_order : OrderEvent.t :=
  OrderEvent.mk 1 "BBB" LIMIT BUY 10 (Some 90%Q) None None "ORD-000001" PENDING.

Definition demo_broker : Broker.t := Engine.broker demo_config.

(** ** More of the package *)

(** *** portfolio.py *)

(** The property [Position.cost_basis] *)
Definition cost_basis (p : Position.t) : Q :=
  (Position.quantity p * Position.avg_entry p)%Q.

(** [Portfolio.attach_stop_tp]; the order id is not used. *)
Definition attach_stop_tp (pf : Portfolio.t) (order_id symbol : string)
    (stop_loss take_profit : option Q) : Portfolio.t :=
  match dict_get symbol (Portfolio._positions pf) with
  | Some pos =>
      Portfolio.mk (Portfolio.initial_capital pf) (Portfolio.cash pf)
        (dict_set symbol
           (Position.mk (Position.symbol pos) (Position.quantity pos)
              (Position.avg_entry pos) stop_loss take_profit
              (Position.realized_pnl pos))
           (Portfolio._positions pf))
        (Portfolio._equity_curve pf) (Portfolio._trades pf)
        (Portfolio._total_commission pf) (Portfolio._total_slippage pf)
  | None => pf
  end.

(** [Series.cummax()]: the running maximum. *)
Fixpoint cummax_from (m : Q) (l : list Q) : list Q :=
  match l with
  | [] => []
  | x :: l => let m := py_max m x in m :: cummax_from m l
  end.

Definition cummax (l : list Q) : list Q :=
  match l with
  | [] => []
  | x :: l => x :: cummax_from x l
  end.

(** [(equity - rolling_max) / rolling_max], element by element; a division
    by zero gives a value that is not finite ([None]). *)
Definition drawdown_series (equity_curve : list Q) : list (option Q) :=
  zip_with (λ e m, if Qeqb m 0 then None else Some ((e - m) / m)%Q)
           equity_curve (cummax equity_curve).

(** [Portfolio.equity_curve()]: the snapshots, each with its recomputed
    [drawdown] column.  Without a snapshot the frame has no ["timestamp"]
    column and [set_index] raises [KeyError]. *)
Definition equity_curve (pf : Portfolio.t)
    : option (list (Snapshot.t * option Q)) :=
  match Portfolio._equity_curve pf with
  | [] => None
  | curve => Some (zip curve (drawdown_series (Snapshot.equity <$> curve)))
  end.

(** *** broker.py: the tiered commission *)

(** The order of Python on the tuples [(notional_threshold, rate_pct)]. *)
Definition tier_leb (a b : Q * Q) : bool :=
  Qltb a.1 b.1 || (Qeqb a.1 b.1 && Qleb a.2 b.2).

Definition tier_le (a b : Q * Q) : Prop := tier_leb a b.

Global Instance tier_le_dec : RelDecision tier_le.
Proof. intros a b. unfold tier_le. apply _. Defined.

(** [TieredCommission.DEFAULT_TIERS] *)
Definition DEFAULT_TIERS : list (Q * Q) :=
  [ (0, 15 # 10000); (10000, 10 # 10000); (100000, 7 # 10000);
    (1000000, 5 # 10000) ]%Q.

(** [self.tiers = sorted(tiers or self.DEFAULT_TIERS)] *)
Definition sorted_tiers (tiers : list (Q * Q)) : list (Q * Q) :=
  merge_sort tier_le (match tiers with [] => DEFAULT_TIERS | _ => tiers end).

(** The loop of [TieredCommission.calculate] over the sorted tiers. *)
Definition tier_rate (tiers : list (Q * Q)) (notional : Q) (rate : Q) : Q :=
  fold_left (λ rate tier, if Qleb tier.1 notional then tier.2 else rate)
            tiers rate.

(** [TieredCommission(tiers)]; the sorted list is never empty, so
    [self.tiers[0]] exists. *)
Definition TieredCommission (tiers : list (Q * Q)) : CommissionModel :=
  λ quantity fill_price,
    let tiers := sorted_tiers tiers in
    let notional := (quantity * fill_price)%Q in
    let rate := default 0%Q (snd <$> head tiers) in
    (notional * tier_rate tiers notional rate)%Q.

(** *** performance.py: trade statistics *)

(** The dictionary returned by [trade_statistics]; [profit_factor] is
    [None] for [np.inf]. *)
Module TradeStats.
Record t := mk {
  n_trades : nat;
  n_wins : nat;
  n_losses : nat;
  win_rate : Q;
  profit_factor : option Q;
  avg_win : Q;
  avg_loss : Q;
  best_trade : Q;
  worst_trade : Q;
  avg_trade_pnl : Q;
  total_pnl : Q;
  gross_profit : Q;
  gross_loss : Q;
  expectancy : Q
}.
End TradeStats.

(** [Series.sum()] and [Series.mean()] of a series that is not empty. *)
Definition series_sum (l : list Q) : Q := fold_left Qplus l 0%Q.
Definition series_mean (l : list Q) : Q :=
  (series_sum l / inject_Z (Z.of_nat (length l)))%Q.

(** [Series.max()] and [Series.min()] of a series that starts with [x]. *)
Definition series_max (x : Q) (l : list Q) : Q := fold_left py_max l x.
Definition series_min (x : Q) (l : list Q) : Q := fold_left py_min l x.

(** [trade_statistics(trade_log)] on the frame of [Portfolio.trade_log()].
    The frame of an empty list of trades has no column, and selecting
    ["side"] raises [KeyError] ([None]); [Some None] is the empty
    dictionary returned when the log has no SELL row. *)
Definition trade_statistics (trade_log : list TradeRecord.t)
    : option (option TradeStats.t) :=
  match trade_log with
  | [] => None
  | _ =>
      let sells :=
        TradeRecord.pnl
          <$> List.filter
                (λ t, bool_decide (TradeRecord.side t = "SELL"%string))
                trade_log in
      Some
        match sells with
        | [] => None
        | x :: rest =>
            let wins := List.filter (λ p, Qltb 0 p) sells in
            let losses := List.filter (λ p, Qleb p 0) sells in
            let gross_profit := series_sum wins in
            let gross_loss := Qabs (series_sum losses) in
            Some (TradeStats.mk (length sells) (length wins) (length losses)
                    (inject_Z (Z.of_nat (length wins))
                     / inject_Z (Z.of_nat (length sells)))%Q
                    (if Qeqb gross_loss 0 then None
                     else Some (gross_profit / gross_loss)%Q)
                    (match wins with [] => 0%Q | _ => series_mean wins end)
                    (match losses with [] => 0%Q | _ => series_mean losses end)
                    (series_max x rest) (series_min x rest)
                    (series_mean sells) (series_sum sells)
                    gross_profit gross_loss (series_mean sells))
        end
  end.

(** *** Notions used by the further properties *)

(** The ids of [n] orders created one after the other from counter value
    [c]. *)
Definition ids_from (c : N) (n : nat) : list string :=
  (λ i, (_next_id (c + N.of_nat i)).1) <$> seq 0 n.

(** What an order [o] created for the signal [sig] looks like, for a risk
    manager [rm] that was shown the positions [open_positions]. *)
Definition order_answers (rm : RiskManager.t)
    (open_positions : list (string * Q)) (sig : SignalEvent.t)
    (o : OrderEvent.t) : Prop :=
  OrderEvent.timestamp o = SignalEvent.timestamp sig
  ∧ OrderEvent.symbol o = SignalEvent.symbol sig
  ∧ OrderEvent.order_type o = MARKET
  ∧ OrderEvent.limit_price o = None
  ∧ OrderEvent.status o = PENDING
  ∧ (0 < OrderEvent.quantity o)%Q
  ∧ let held := held_qty open_positions (SignalEvent.symbol sig) in
    match SignalEvent.direction sig with
    | LONG => OrderEvent.side o = BUY ∧ (held <= 0)%Q
    | SHORT =>
        OrderEvent.side o = SELL ∧ RiskManager.allow_short rm = true
        ∧ (0 <= held)%Q
    | FLAT =>
        (OrderEvent.side o = SELL ∧ (0 < held)%Q
         ∧ OrderEvent.quantity o = held)
        ∨ (OrderEvent.side o = BUY ∧ (held < 0)%Q
           ∧ RiskManager.allow_short rm = true
           ∧ OrderEvent.quantity o = Qabs held)
    end.

(** *** The ledger in words *)

(** What a row of the trade log moves through the cash account: a BUY pays
    price times quantity plus the commission, a SELL receives price times
    quantity less the commission. *)
Definition cash_flow (t : TradeRecord.t) : Q :=
  if bool_decide (TradeRecord.side t = "BUY"%string)
  then (- (TradeRecord.fill_price t * TradeRecord.quantity t
           + TradeRecord.commission t))%Q
  else (TradeRecord.fill_price t * TradeRecord.quantity t
        - TradeRecord.commission t)%Q.

(** The cash and the two running totals of a portfolio account for its
    trade log. *)
Definition ledger_balanced (pf : Portfolio.t) : Prop :=
  (Portfolio.cash pf
   == Portfolio.initial_capital pf
      + Qsum (cash_flow <$> Portfolio._trades pf))%Q
  ∧ (Portfolio._total_commission pf
     == Qsum (TradeRecord.commission <$> Portfolio._trades pf))%Q
  ∧ (Portfolio._total_slippage pf
     == Qsum (TradeRecord.slippage <$> Portfolio._trades pf))%Q.

(** The row [_record_trade] builds from a fill. *)
Definition trade_of_fill (fill : FillEvent.t) (pnl : Q) : TradeRecord.t :=
  TradeRecord.mk (FillEvent.timestamp fill) (FillEvent.symbol fill)
    (side_value (FillEvent.side fill)) (FillEvent.quantity fill)
    (FillEvent.fill_price fill) (FillEvent.commission fill)
    (FillEvent.slippage fill) pnl (FillEvent.order_id fill)
    (FillEvent.strategy_id fill).

(** *** Long-only books *)

(** Every position of the book is long. *)
Definition long_only (positions : list (string * Position.t)) : Prop :=
  Forall (λ kv, (0 < Position.quantity kv.2)%Q) positions.

(** What a long-only risk manager asks for, against the quantities [held]
    when the bar begins: to buy a symbol that is not held, or to sell all
    that is held of a symbol. *)
Definition opens_or_closes (held : string → Q) (symbol : string)
    (side : OrderSide) (quantity : Q) : Prop :=
  match side with
  | BUY => (0 < quantity)%Q ∧ (held symbol <= 0)%Q
  | SELL => (0 < held symbol)%Q ∧ quantity = held symbol
  end.

(** The book while the fills of a bar are applied: long only, and what was
    held when the bar began is either still held in full or gone. *)
Definition book_within (held : string → Q)
    (positions : list (string * Position.t)) : Prop :=
  long_only positions
  ∧ ∀ symbol pos, (0 < held symbol)%Q →
                  dict_get symbol positions = Some pos →
                  Position.quantity pos = held symbol.

(** *** Runs that do not raise *)



(** *** Strategies that never emit *)

Definition silent {S} (strat : Strategy.t S) : Prop :=
  ∀ s timestamp market_events,
    (Strategy.on_bar strat s timestamp market_events).1 = [].

(** A portfolio that has never traded, with the snapshots [curve]. *)
Definition untouched (initial_capital : Q) (curve : list Snapshot.t)
    : Portfolio.t :=
  Portfolio.mk initial_capital initial_capital [] curve [] 0 0.

(** *** From the dictionary of frames to the result of a run *)

(** The dictionaries of frames from which a feed can be built and iterated
    to its end: [pd.concat] needs at least one frame, and a label that
    occurs twice in a frame makes [df.loc[ts]] a frame, on which
    [float(row["open"])] raises (the loaders drop duplicated labels). *)
Definition feed_ok (data : BarFeed) : Prop :=
  data ≠ ∅ ∧ map_Forall (λ _ df, NoDup (Row.index <$> df)) data.

Global Instance feed_ok_dec data : Decision (feed_ok data).
Proof. unfold feed_ok. apply _. Defined.

(** The dictionary returned by [Portfolio.summary_stats]. *)
Module Stats.
Record t := mk {
  initial_capital : Q;
  final_equity : Q;
  total_return_pct : Q;
  total_commission : Q;
  total_slippage : Q;
  n_trades : nat;
  n_positions_open : nat
}.
End Stats.


(** The artifacts a [BacktestResult] computes when it is built; the feed
    and the risk-free rate are stored as given. *)
Module BacktestResult.
Record t := mk {
  portfolio : Portfolio.t;
  equity_curve : list (Snapshot.t * option Q);
  trade_log : list TradeRecord.t;
  stats : Stats.t
}.
End BacktestResult.



(** *** The broker's queue, entry by entry *)

(** The fill the call of [process_bar] on the bars [market_events] gives
    the entry, if the entry's symbol has a bar and the order fills on it. *)
Definition fill_of (b : Broker.t) (strategy_id_map : gmap string string)
    (market_events : gmap string MarketEvent.t) (item : Item.t)
    : option FillEvent.t :=
  bar ← market_events !! OrderEvent.symbol (Item.order item);
  match _try_fill (Item.order item) bar with
  | Some (Some price) =>
      Some (fill_order b strategy_id_map (Item.order item) bar price)
  | _ => None
  end.

(** The entry stays in the queue: its symbol has no bar, or the order does
    not fill and has waited, this call included, fewer than
    [max_bars_pending] bars. *)
Definition stays (b : Broker.t) (market_events : gmap string MarketEvent.t)
    (item : Item.t) : bool :=
  match market_events !! OrderEvent.symbol (Item.order item) with
  | None => true
  | Some bar =>
      match _try_fill (Item.order item) bar with
      | Some None =>
          bool_decide (Item.bars_waited item + 1 < Broker.max_bars_pending b)
      | _ => false
      end
  end.

(** A queue with an order that fills, one that expires and one that
    waits, and the bars of a timestamp on which only ["AAA"] trades. *)
Definition mixed_queue : list Item.t :=
  [ Item.mk (OrderEvent.mk 1 "AAA" MARKET BUY 10 None None None
               "ORD-000001" PENDING) 0;
    Item.mk (OrderEvent.mk 1 "AAA" LIMIT BUY 10 (Some 90%Q) None None
               "ORD-000002" PENDING) 0;
    Item.mk idle_order 0 ].

Definition aaa_bars : gmap string MarketEvent.t :=
  {[ "AAA"%string := MarketEvent.mk 1 "AAA" 100 101 99 100 1000 ]}.

(** * Properties *)

(** ** The bar feed: [history] *)

Section history.
Implicit Types (df : DataFrame) (feed : BarFeed).

Lemma slice_from_suffix {A} (start : Z) (l : list A) :
  slice_from start l `suffix_of` l.
Proof. apply suffix_drop. Qed.

Lemma mask_le_bound up_to df r : r ∈ mask_le up_to df → Row.index r ≤ up_to.
Proof. unfold mask_le. rewrite list_elem_of_filter. tauto. Qed.

(** No row later than [up_to] is returned, whatever the count. *)
Lemma history_no_lookahead feed symbol up_to n hist r :
  history feed symbol up_to n = Some hist → r ∈ hist →
  r ∈ default [] (feed !! symbol) ∧ Row.index r ≤ up_to.
Proof.
  unfold history. destruct (feed !! symbol) as [df|]; simpl; [|done].
  intros [= <-] Hr.
  assert (r ∈ mask_le up_to df) as Hm.
  { destruct n as [n|]; [|done].
    destruct (slice_from_suffix (- n) (mask_le up_to df)) as [k Hk].
    unfold iloc_last in Hr. rewrite Hk. set_solver. }
  split; [|by eapply mask_le_bound].
  unfold mask_le in Hm. apply list_elem_of_filter in Hm. tauto.
Qed.

(** A positive count keeps exactly the last [n] rows of the masked frame. *)
Lemma iloc_last_pos {A} (n : Z) (l : list A) :
  1 ≤ n → iloc_last n l = drop (length l - Z.to_nat n) l
          ∧ (length (iloc_last n l) ≤ Z.to_nat n)%nat.
Proof.
  intros Hn. unfold iloc_last, slice_from.
  replace (- n <? 0) with true by (symmetry; apply Z.ltb_lt; lia).
  assert (Z.to_nat (Z.max 0 (- n + Z.of_nat (length l)))
          = (length l - Z.to_nat n)%nat)
    as -> by lia.
  split; [done|]. rewrite length_drop. lia.
Qed.

(** A count of zero keeps every row: [-0] is [0], and [iloc[0:]] is the
    whole frame. *)
Lemma iloc_last_zero {A} (l : list A) : iloc_last 0 l = l.
Proof. unfold iloc_last, slice_from. simpl. by rewrite Z.min_l by lia. Qed.

Lemma history_count_pos feed symbol up_to n df :
  feed !! symbol = Some df → 1 ≤ n →
  ∃ hist, history feed symbol up_to (Some n) = Some hist
          ∧ hist `suffix_of` mask_le up_to df
          ∧ (length hist ≤ Z.to_nat n)%nat.
Proof.
  intros Hdf Hn. unfold history. rewrite Hdf. simpl. eexists. split; [done|].
  split; [apply slice_from_suffix|]. by apply iloc_last_pos.
Qed.

Lemma history_count_zero feed symbol up_to df :
  feed !! symbol = Some df →
  history feed symbol up_to (Some 0) = Some (mask_le up_to df).
Proof.
  intros Hdf. unfold history. rewrite Hdf. simpl. by rewrite iloc_last_zero.
Qed.
End history.

(** C3. [history(S, up_to=T, n)] is claimed to return, when [n] is given, at
    most the last [n] bars with timestamp at most [T].  With [n = 0] the
    code returns every bar up to [T]: asked for the last zero bars of
    ["AAA"] up to timestamp 2, it returns the two bars stamped 1 and 2. *)
Theorem history_zero_count_returns_all :
  ∃ hist, history demo_feed "AAA" 2 (Some 0) = Some hist
          ∧ Row.index <$> hist = [1; 2]
          ∧ (length hist > 0)%nat.
Proof. eexists. split; [vm_compute; reflexivity|]. split; [done|simpl; lia]. Qed.

(** ** The average true range *)

Section atr.
Implicit Types (df : DataFrame) (l : list Q).

Lemma py_max_Qmax a b : (py_max a b == Qmax a b)%Q.
Proof.
  unfold py_max, Qltb. destruct (Qle_bool b a) eqn:E; simpl.
  - apply Qle_bool_iff in E. symmetry. by apply Q.max_l.
  - symmetry. apply Q.max_r. apply Qnot_lt_le. intros H.
    apply Qlt_le_weak, Qle_bool_iff in H. congruence.
Qed.

Lemma slice_from_1_cons {A} (a : A) (l : list A) : slice_from 1 (a :: l) = l.
Proof.
  unfold slice_from. simpl (1 <? 0).
  rewrite Z.min_l by (simpl length; lia). done.
Qed.

Lemma slice_init_cons2 {A} (a b : A) (l : list A) :
  slice_init (a :: b :: l) = a :: slice_init (b :: l).
Proof. unfold slice_init. simpl. by rewrite Nat.sub_0_r. Qed.

Lemma true_ranges_single p : true_ranges [p] = [].
Proof. done. Qed.

Lemma true_ranges_cons2 p r df :
  true_ranges (p :: r :: df) = tr_row p r :: true_ranges (r :: df).
Proof.
  unfold true_ranges. cbv zeta. rewrite !fmap_cons, !slice_from_1_cons.
  rewrite slice_init_cons2. reflexivity.
Qed.

Lemma true_ranges_length df : length (true_ranges df) = (length df - 1)%nat.
Proof.
  induction df as [|p [|r df] IH]; [done..|].
  rewrite true_ranges_cons2. simpl length in *. lia.
Qed.

Lemma TR_shift p df i : (1 ≤ i)%nat → TR (p :: df) (S i) = TR df i.
Proof.
  intros Hi. unfold TR. destruct i as [|i]; [lia|]. simpl.
  by rewrite Nat.sub_0_r.
Qed.

Lemma true_ranges_TR df :
  Forall2 Qeq (true_ranges df) (TR df <$> seq 1 (length df - 1)).
Proof.
  induction df as [|p [|r df] IH]; [constructor..|].
  rewrite true_ranges_cons2.
  replace (length (p :: r :: df) - 1)%nat with (S (length (r :: df) - 1))
    by (simpl; lia).
  rewrite <-cons_seq, fmap_cons. constructor.
  - unfold TR, tr_row. simpl. by rewrite !py_max_Qmax.
  - rewrite <-fmap_S_seq, <-list_fmap_compose.
    replace ((TR (p :: r :: df) ∘ S) <$> seq 1 (length (r :: df) - 1))
      with (TR (r :: df) <$> seq 1 (length (r :: df) - 1)); [exact IH|].
    apply Forall_fmap_ext, Forall_forall. intros i Hi.
    apply elem_of_seq in Hi. simpl. by rewrite TR_shift by lia.
Qed.

Lemma fold_left_Qsum l1 l2 a :
  Forall2 Qeq l1 l2 → (fold_left Qplus l1 a == a + Qsum l2)%Q.
Proof.
  intros H. revert a. induction H as [|x y l1 l2 Hxy _ IH]; intros a; simpl.
  - ring.
  - rewrite IH, Hxy. ring.
Qed.

Lemma compute_atr_short df period :
  Z.of_nat (length df) < period + 1 → compute_atr df period = None.
Proof.
  intros H. unfold compute_atr.
  by replace (Z.of_nat (length df) <? period + 1) with true
    by (symmetry; apply Z.ltb_lt; lia).
Qed.

Lemma compute_atr_enough df period :
  1 ≤ period → period + 1 ≤ Z.of_nat (length df) →
  ∃ a, compute_atr df period = Some a
       ∧ (a == mean_last_true_ranges df period)%Q.
Proof.
  intros Hp Hlen. unfold compute_atr.
  replace (Z.of_nat (length df) <? period + 1) with false
    by (symmetry; apply Z.ltb_ge; lia).
  destruct (iloc_last_pos period (true_ranges df) Hp) as [-> _].
  rewrite true_ranges_length.
  set (k := (length df - 1 - Z.to_nat period)%nat).
  pose proof (true_ranges_TR df) as HTR.
  apply (Forall2_drop _ _ _ k) in HTR.
  rewrite <-fmap_drop, drop_seq in HTR.
  replace (1 + k)%nat with (length df - Z.to_nat period)%nat in HTR by lia.
  replace (length df - 1 - k)%nat with (Z.to_nat period) in HTR by lia.
  assert (length (drop k (true_ranges df)) = Z.to_nat period) as Hl.
  { rewrite length_drop, true_ranges_length. lia. }
  unfold np_mean. destruct (drop k (true_ranges df)) as [|x l] eqn:E.
  { simpl in Hl. lia. }
  eexists. split; [done|]. unfold mean_last_true_ranges.
  rewrite (fold_left_Qsum _ _ _ HTR), Hl, Z2Nat.id by lia.
  by rewrite Qplus_0_l.
Qed.

(** A period of zero is not a window of zero true ranges: [tr[-0:]] is the
    whole array. *)
Lemma compute_atr_period_zero df :
  df ≠ [] → compute_atr df 0 = np_mean (true_ranges df).
Proof.
  intros Hdf. unfold compute_atr. destruct df as [|r df]; [done|].
  replace (Z.of_nat (length (r :: df)) <? 0 + 1) with false
    by (symmetry; apply Z.ltb_ge; simpl length; lia).
  by rewrite iloc_last_zero.
Qed.

(** With [NaN] for the ATR the ATR sizer returns quantity 0. *)
Lemma size_nan risk_pct atr_period atr_multiplier max_position_pct
    equity price strength :
  size (ATRPositionSizer risk_pct atr_period atr_multiplier max_position_pct)
       equity price None strength = Some 0%Q.
Proof. done. Qed.
End atr.

(** C8. For a period of at least one bar: a history of fewer than
    [period + 1] bars gives [NaN], on which the ATR sizer returns quantity
    0; a history of at least [period + 1] bars gives the arithmetic mean of
    the last [period] true ranges [TR_i = max(H_i − L_i, |H_i − C_{i−1}|,
    |L_i − C_{i−1}|)]. *)
Theorem compute_atr_mean_of_true_ranges (df : DataFrame) (period : Z) :
  1 ≤ period →
  (Z.of_nat (length df) < period + 1 →
     compute_atr df period = None
     ∧ ∀ risk_pct atr_period atr_multiplier max_position_pct equity price
         strength,
         size (ATRPositionSizer risk_pct atr_period atr_multiplier
                                max_position_pct)
              equity price (compute_atr df period) strength = Some 0%Q)
  ∧ (period + 1 ≤ Z.of_nat (length df) →
     ∃ a, compute_atr df period = Some a
          ∧ (a == mean_last_true_ranges df period)%Q).
Proof.
  intros Hp. split.
  - intros Hlen. rewrite compute_atr_short by done. split; [done|].
    intros. apply size_nan.
  - by apply compute_atr_enough.
Qed.

Lemma compute_atr_mean_of_true_ranges_witness :
  1 ≤ 2
  ∧ ∃ a, compute_atr (default [] (demo_feed !! "AAA"%string)) 2 = Some a
         ∧ (a == mean_last_true_ranges
                   (default [] (demo_feed !! "AAA"%string)) 2)%Q.
Proof.
  split; [lia|].
  apply (compute_atr_mean_of_true_ranges
           (default [] (demo_feed !! "AAA"%string)) 2); vm_compute; congruence.
Defined.

(** ** Mark-to-market *)

Lemma mtm_loop_holdings market_events positions h u :
  ((mtm_loop market_events positions h u).1
   == h + holdings market_events positions)%Q.
Proof.
  revert h u. induction positions as [|[sym pos] positions IH]; intros h u.
  - unfold holdings. simpl. ring.
  - simpl. rewrite IH.
    unfold holdings, Position.market_value, price_used, claimed_price.
    simpl. symmetry. apply Qplus_assoc.
Qed.

Lemma mtm_snapshot_cash pf timestamp market_events :
  Snapshot.cash (mtm_snapshot pf timestamp market_events) = Portfolio.cash pf.
Proof. unfold mtm_snapshot. by destruct (mtm_loop _ _ _ _). Qed.

Lemma mtm_snapshot_timestamp pf timestamp market_events :
  Snapshot.timestamp (mtm_snapshot pf timestamp market_events) = timestamp.
Proof. unfold mtm_snapshot. by destruct (mtm_loop _ _ _ _). Qed.

Lemma mtm_snapshot_equity pf timestamp market_events :
  (Snapshot.equity (mtm_snapshot pf timestamp market_events)
   == Portfolio.cash pf
      + holdings market_events (Portfolio._positions pf))%Q.
Proof.
  unfold mtm_snapshot.
  pose proof (mtm_loop_holdings market_events (Portfolio._positions pf) 0 0)
    as H.
  destruct (mtm_loop _ _ _ _) as [h u]. simpl in *. rewrite H. ring.
Qed.

(** C7. The snapshot appended by [mark_to_market] records the portfolio's
    cash; its holdings value is the sum over the open positions of quantity
    times the close of the symbol's bar when the bar is present, else
    quantity times the position's average entry; its equity is the cash
    plus that sum, and the two sides differ by less than [10⁻⁶]. *)
Theorem mark_to_market_equity_identity (pf : Portfolio.t) (timestamp : Z)
    (market_events : gmap string MarketEvent.t) :
  ∃ snap,
    Portfolio._equity_curve (mark_to_market pf timestamp market_events)
      = Portfolio._equity_curve pf ++ [snap]
    ∧ Snapshot.cash snap = Portfolio.cash pf
    ∧ (Snapshot.equity snap
       == Snapshot.cash snap
          + holdings market_events (Portfolio._positions pf))%Q
    ∧ (Qabs (Snapshot.cash snap
             + holdings market_events (Portfolio._positions pf)
             - Snapshot.equity snap) < 1 # 1000000)%Q
    ∧ (Snapshot.holdings_value snap
       == holdings market_events (Portfolio._positions pf))%Q
    ∧ holdings market_events (Portfolio._positions pf)
      = Qsum ((λ kv, Position.quantity kv.2
                     * match market_events !! kv.1 with
                       | Some bar => MarketEvent.close bar
                       | None => Position.avg_entry kv.2
                       end)%Q
                <$> Portfolio._positions pf)
    ∧ equity (mark_to_market pf timestamp market_events)
      = Snapshot.equity snap.
Proof.
  exists (mtm_snapshot pf timestamp market_events).
  split; [done|]. split; [apply mtm_snapshot_cash|].
  assert (Snapshot.equity (mtm_snapshot pf timestamp market_events)
          == Snapshot.cash (mtm_snapshot pf timestamp market_events)
             + holdings market_events (Portfolio._positions pf))%Q as Heq.
  { rewrite mtm_snapshot_cash. apply mtm_snapshot_equity. }
  split; [exact Heq|]. split.
  { rewrite Heq.
    match goal with |- (Qabs ?e < _)%Q => assert (e == 0)%Q as -> by ring end.
    done. }
  split.
  { unfold mtm_snapshot.
    pose proof (mtm_loop_holdings market_events (Portfolio._positions pf) 0 0)
      as H.
    destruct (mtm_loop _ _ _ _) as [h u]. simpl in *. rewrite H. ring. }
  split; [done|].
  unfold equity, mark_to_market. simpl. by rewrite last_snoc.
Qed.

(** ** The ledger: positions and fills *)

Section dict_facts.
Context {V : Type}.
Implicit Types (d : list (string * V)) (P : string * V → Prop).

Lemma dict_get_Some k d v : dict_get k d = Some v → (k, v) ∈ d.
Proof.
  unfold dict_get. destruct (List.find _ d) as [[k' v']|] eqn:E; [|done].
  intros [= <-]. apply find_some in E as [Hin Hk].
  apply bool_decide_eq_true in Hk. simpl in Hk. subst k'.
  by apply list_elem_of_In.
Qed.

Lemma dict_set_Forall P k v d : Forall P d → P (k, v) → Forall P (dict_set k v d).
Proof.
  intros Hd Hv. induction Hd as [|[k' v'] d Hx Hd IH]; simpl.
  - by constructor.
  - case_bool_decide; by constructor.
Qed.

Lemma dict_del_Forall P k d : Forall P d → Forall P (dict_del k d).
Proof.
  unfold dict_del. rewrite !Forall_forall. intros Hd x Hx.
  apply Hd. apply list_elem_of_In, filter_In in Hx as [Hx _].
  by apply list_elem_of_In.
Qed.
End dict_facts.

(** A SELL fill on a symbol with no position leaves the positions as they
    are: [_process_sell] has no branch that opens a short. *)
Lemma _process_sell_no_position positions trades fill :
  dict_get (FillEvent.symbol fill) positions = None →
  _process_sell positions trades fill
  = (positions, _record_trade trades fill 0, 0%Q).
Proof. intros H. unfold _process_sell. by rewrite H. Qed.

(** A BUY fill on a symbol with no long position opens a long position at
    the fill price, with no realized P&L. *)
Lemma _process_buy_no_long positions trades fill :
  (∀ pos, dict_get (FillEvent.symbol fill) positions = Some pos →
          Qltb 0 (Position.quantity pos) = false) →
  _process_buy positions trades fill
  = Some (dict_set (FillEvent.symbol fill)
            (Position.mk (FillEvent.symbol fill) (FillEvent.quantity fill)
               (FillEvent.fill_price fill) None None 0) positions,
          _record_trade trades fill 0).
Proof.
  intros H. unfold _process_buy.
  destruct (dict_get _ positions) as [pos|]; [|done].
  by rewrite (H pos eq_refl).
Qed.

(** C5. A SELL fill of 10 at 100 on an empty ledger is claimed to open a
    short position of -10 at 100, and the BUY of 10 at 90 that follows to
    cover it and realize (100 - 90) * 10.  The code credits the cash of the
    sale but opens no position; the BUY then opens a fresh long position of
    10 at 90, and both trades record a P&L of 0. *)
Theorem sell_without_position_opens_no_short :
  ∃ pf1 pf2,
    on_fill (Portfolio.init 100000) short_sale = Some pf1
    ∧ Portfolio._positions pf1 = []
    ∧ (Portfolio.cash pf1 == 101000)%Q
    ∧ on_fill pf1 short_cover = Some pf2
    ∧ Portfolio._positions pf2
      = [("AAA"%string, Position.mk "AAA" 10 90 None None 0)]
    ∧ TradeRecord.pnl <$> Portfolio._trades pf2 = [0%Q; 0%Q].
Proof.
  do 2 eexists. split; [vm_compute; reflexivity|].
  split; [reflexivity|]. split; [reflexivity|].
  split; [vm_compute; reflexivity|]. split; reflexivity.
Qed.

(** *** Stops never reach the ledger

    [_process_buy] builds every [Position] without [stop_loss] and
    [take_profit], [attach_stop_tp] is never called, and no other method
    writes the two fields. *)

Lemma on_fill_no_stops pf fill pf' :
  no_stops (Portfolio._positions pf) → on_fill pf fill = Some pf' →
  no_stops (Portfolio._positions pf').
Proof.
  intros Hpf. unfold on_fill. destruct (FillEvent.side fill).
  - unfold _process_buy.
    destruct (dict_get _ _) as [pos|] eqn:E; simpl.
    + apply dict_get_Some in E.
      pose proof (proj1 (Forall_forall _ _) Hpf _ E) as [Hsl Htp]. simpl in *.
      destruct (Qltb 0 _); simpl.
      * destruct (Qeqb _ 0); simpl; [done|]. intros [= <-]. simpl.
        by apply dict_set_Forall.
      * intros [= <-]. simpl. by apply dict_set_Forall.
    + intros [= <-]. simpl. by apply dict_set_Forall.
  - unfold _process_sell.
    destruct (dict_get _ _) as [pos|] eqn:E; simpl.
    + apply dict_get_Some in E.
      pose proof (proj1 (Forall_forall _ _) Hpf _ E) as [Hsl Htp]. simpl in *.
      destruct (Qltb _ qty_epsilon); simpl; intros [= <-]; simpl.
      * by apply dict_del_Forall.
      * by apply dict_set_Forall.
    + by intros [= <-].
Qed.

Lemma apply_fills_no_stops {S} pf (strategies : list (Strategy.t S)) fills pf'
    strategies' :
  no_stops (Portfolio._positions pf) →
  apply_fills pf strategies fills = Some (pf', strategies') →
  no_stops (Portfolio._positions pf').
Proof.
  revert pf strategies. induction fills as [|fill fills IH];
    intros pf strategies Hpf; simpl.
  - by intros [= <- _].
  - destruct (on_fill pf fill) as [pf1|] eqn:E; simpl; [|done].
    apply IH. by eapply on_fill_no_stops.
Qed.

(** Without stops on the positions the sweep emits nothing and creates no
    order. *)
Lemma check_stop_conditions_no_stops positions market_events counter :
  no_stops positions →
  check_stop_conditions
    ((λ kv, (kv.1, Detail.mk (Position.quantity kv.2) (Position.avg_entry kv.2)
                     (Position.stop_loss kv.2) (Position.take_profit kv.2)))
       <$> positions) market_events counter
  = ([], counter).
Proof.
  induction 1 as [|[sym pos] positions [Hsl Htp] _ IH]; [done|].
  rewrite fmap_cons. cbn [check_stop_conditions fst snd].
  assert (stop_order market_events sym
            (Detail.mk (Position.quantity pos) (Position.avg_entry pos)
               (Position.stop_loss pos) (Position.take_profit pos)) counter
          = ([], counter)) as ->; [|by rewrite IH].
  unfold stop_order. simpl in *. rewrite Hsl, Htp. simpl.
  destruct (market_events !! sym); [|done].
  destruct (Qeqb _ 0); [done|]. by destruct (Qltb 0 _).
Qed.

(** ** The event loop *)

(** What a successful pass through the loop body consists of. *)
Lemma engine_step_inv {S} cfg (e : Engine.t S) timestamp market_events e' :
  engine_step cfg e (timestamp, market_events) = Some e' →
  ∃ stop_orders c1 pending1 m1 all_signals strategies orders c2 pending2 m2 r
    pf strategies',
    check_stop_conditions (open_positions_detail (Engine.portfolio e))
                          market_events (Engine._order_counter e)
      = (stop_orders, c1)
    ∧ submit_stop_orders (Engine._pending e) (Engine._order_strategy_map e)
                         stop_orders = (pending1, m1)
    ∧ run_strategies (Engine.strategies e) timestamp market_events
      = (all_signals, strategies)
    ∧ risk_orders cfg e all_signals market_events c1 = Some (orders, c2)
    ∧ submit_orders all_signals pending1 m1 orders = (pending2, m2)
    ∧ process_bar (Engine.broker cfg) market_events m2 pending2 = Some r
    ∧ apply_fills (Engine.portfolio e) strategies (BarResult.fills r)
      = Some (pf, strategies')
    ∧ e' = Engine.mk strategies' (mark_to_market pf timestamp market_events)
                     (BarResult.still_pending r) m2 c2.
Proof.
  unfold engine_step.
  destruct (check_stop_conditions _ _ _) as [stop_orders c1] eqn:E1.
  destruct (submit_stop_orders _ _ _) as [pending1 m1] eqn:E2.
  destruct (run_strategies _ _ _) as [all_signals strategies] eqn:E3.
  destruct (risk_orders _ _ _ _ _) as [[orders c2]|] eqn:E4; simpl; [|done].
  destruct (submit_orders _ _ _ _) as [pending2 m2] eqn:E5.
  destruct (process_bar _ _ _ _) as [r|] eqn:E6; simpl; [|done].
  destruct (apply_fills _ _ _) as [[pf strategies']|] eqn:E7; simpl; [|done].
  intros [= <-].
  exists stop_orders, c1, pending1, m1, all_signals, strategies, orders, c2,
    pending2, m2, r, pf, strategies'.
  by rewrite E2, E5, E6, E7.
Qed.

Lemma engine_step_no_stops {S} cfg (e : Engine.t S) bar e' :
  no_stops (Portfolio._positions (Engine.portfolio e)) →
  engine_step cfg e bar = Some e' →
  no_stops (Portfolio._positions (Engine.portfolio e')).
Proof.
  intros He Hstep. destruct bar as [timestamp market_events].
  apply engine_step_inv in Hstep
    as (?&?&?&?&?&?&?&?&?&?&?&?&?&_&_&_&_&_&_&Hfills&->).
  simpl. by eapply apply_fills_no_stops.
Qed.

Lemma run_bars_no_stops {S} cfg (e : Engine.t S) bars e' :
  no_stops (Portfolio._positions (Engine.portfolio e)) →
  run_bars cfg e bars = Some e' →
  no_stops (Portfolio._positions (Engine.portfolio e')).
Proof.
  revert e. induction bars as [|bar bars IH]; intros e He; simpl.
  - by intros [= <-].
  - destruct (engine_step cfg e bar) as [e1|] eqn:E; simpl; [|done].
    apply IH. by eapply engine_step_no_stops.
Qed.

(** Whatever the bars, the strategies and the stop levels on the orders,
    the stop sweep of an engine never emits an order. *)
Lemma stop_sweep_is_dead {S} cfg (strategies : list (Strategy.t S))
    initial_capital counter bars e market_events :
  run_bars cfg (Engine.init strategies initial_capital counter) bars = Some e →
  check_stop_conditions (open_positions_detail (Engine.portfolio e))
                        market_events (Engine._order_counter e)
  = ([], Engine._order_counter e).
Proof.
  intros Hrun. apply check_stop_conditions_no_stops.
  eapply run_bars_no_stops; [|exact Hrun]. constructor.
Qed.

(** A market order whose symbol has a bar is filled by the very call of
    [process_bar] that meets it, at that bar's timestamp. *)
Lemma market_order_fills_on_current_bar b market_events m item bar :
  OrderEvent.order_type (Item.order item) = MARKET →
  market_events !! OrderEvent.symbol (Item.order item) = Some bar →
  ∃ fill order,
    process_item b market_events m item = Some (Filled fill order)
    ∧ FillEvent.timestamp fill = MarketEvent.timestamp bar
    ∧ FillEvent.order_id fill = OrderEvent.order_id (Item.order item).
Proof.
  intros Hty Hbar. unfold process_item, _try_fill. rewrite Hbar, Hty. simpl.
  by do 2 eexists.
Qed.

(** Every order of the risk manager is a market order on a symbol that has a
    bar in the current step. *)
Lemma signal_orders_market rm market_events feed equity positions sig c os c' :
  signal_orders rm market_events feed equity positions sig c = Some (os, c') →
  Forall (λ o, OrderEvent.order_type o = MARKET
               ∧ is_Some (market_events !! OrderEvent.symbol o)) os.
Proof.
  unfold signal_orders, new_order.
  destruct (market_events !! SignalEvent.symbol sig) as [bar|] eqn:Hbar;
    [|by intros [= <- _]].
  destruct (history _ _ _ _) as [hist|]; simpl; [|done].
  assert (∀ o, OrderEvent.order_type o = MARKET →
               OrderEvent.symbol o = SignalEvent.symbol sig →
               Forall (λ o, OrderEvent.order_type o = MARKET
                            ∧ is_Some (market_events !! OrderEvent.symbol o))
                      [o]) as Hone.
  { intros o Hty Hsym. constructor; [|done]. by rewrite Hsym, Hbar. }
  destruct (SignalEvent.direction sig); intros H;
    repeat (case_match; simplify_option_eq); first [by constructor|by apply Hone].
Qed.

Lemma process_signals_market rm signals market_events feed equity positions c
    os c' :
  process_signals rm signals market_events feed equity positions c
  = Some (os, c') →
  Forall (λ o, OrderEvent.order_type o = MARKET
               ∧ is_Some (market_events !! OrderEvent.symbol o)) os.
Proof.
  revert c os c'. induction signals as [|sig signals IH]; intros c os c'; simpl.
  - by intros [= <- _].
  - destruct (signal_orders _ _ _ _ _ _ _) as [[os1 c1]|] eqn:E1; simpl;
      [|done].
    destruct (process_signals _ _ _ _ _ _ _) as [[os2 c2]|] eqn:E2; simpl;
      [|done].
    intros [= <- _]. apply Forall_app. split.
    + by eapply signal_orders_market.
    + by eapply IH.
Qed.

(** C1. An order created while bar [T] is processed is claimed to be filled,
    if at all, at a timestamp strictly after [T].  On the first bar of the
    demo run ([T = 1], order counter 0 before the bar) the risk manager
    creates order [ORD-000001], and the same pass through the loop fills
    it: the trade log holds its fill, stamped 1, when the bar ends. *)
Theorem order_filled_on_the_bar_that_created_it :
  ∃ bar e1,
    head (feed_iter demo_feed) = Some (1, bar)
    ∧ Engine._order_counter (demo_engine 0) = 0%N
    ∧ engine_step demo_config (demo_engine 0) (1, bar) = Some e1
    ∧ Engine._order_counter e1 = 1%N
    ∧ trade_key <$> trade_log (Engine.portfolio e1)
      = [(1, "BUY", "ORD-000001", "S1")]%string
    ∧ Engine._pending e1 = [].
Proof.
  do 2 eexists. split; [vm_compute; reflexivity|]. split; [done|].
  split; [vm_compute; reflexivity|]. by vm_compute.
Qed.

(** C2. A long position whose entry order carried a stop-loss is claimed to
    be sold by a ["__risk__"] market order once a bar trades down to the
    stop.  In the demo run the entry order carries the stop 98 and bar 2
    has a low of 97, yet the run ends with the position still open and no
    stop on it, and with the entry as the only row of the trade log. *)
Theorem stop_loss_never_reaches_the_position :
  ∃ bar1 bar2 order e,
    fst <$> feed_iter demo_feed = [1; 2; 3]
    ∧ (feed_iter demo_feed).*2 !! 0%nat = Some bar1
    ∧ (feed_iter demo_feed).*2 !! 1%nat = Some bar2
    ∧ risk_orders demo_config (demo_engine 0)
        [emit_signal "S1" (Emit.mk 1 "AAA" LONG 1 (Some 98%Q) None)] bar1 0
      = Some ([order], 1%N)
    ∧ OrderEvent.stop_loss order = Some 98%Q
    ∧ MarketEvent.low <$> bar2 !! "AAA"%string = Some 97%Q
    ∧ run demo_config (demo_engine 0) = Some e
    ∧ trade_key <$> trade_log (Engine.portfolio e)
      = [(1, "BUY", "ORD-000001", "S1")]%string
    ∧ (λ kv, (kv.1, Position.quantity kv.2, Position.stop_loss kv.2))
        <$> Portfolio._positions (Engine.portfolio e)
      = [("AAA"%string, 50%Q, None)].
Proof.
  do 4 eexists. split; [by vm_compute|].
  split; [vm_compute; reflexivity|]. split; [vm_compute; reflexivity|].
  split; [vm_compute; reflexivity|]. split; [done|]. split; [by vm_compute|].
  split; [vm_compute; reflexivity|]. split; by vm_compute.
Qed.

(** ** The equity handed to the position sizer *)

Lemma on_fill_curve pf fill pf' :
  on_fill pf fill = Some pf' →
  Portfolio._equity_curve pf' = Portfolio._equity_curve pf
  ∧ Portfolio.initial_capital pf' = Portfolio.initial_capital pf.
Proof.
  unfold on_fill. intros H.
  repeat (case_match; simplify_option_eq); done.
Qed.

Lemma apply_fills_curve {S} pf (strategies : list (Strategy.t S)) fills pf'
    strategies' :
  apply_fills pf strategies fills = Some (pf', strategies') →
  Portfolio._equity_curve pf' = Portfolio._equity_curve pf
  ∧ Portfolio.initial_capital pf' = Portfolio.initial_capital pf.
Proof.
  revert pf strategies. induction fills as [|fill fills IH];
    intros pf strategies; simpl.
  - by intros [= <- _].
  - destruct (on_fill pf fill) as [pf1|] eqn:E; simpl; [|done].
    intros H. apply IH in H as [-> ->]. by eapply on_fill_curve.
Qed.

(** Fills never change what [Portfolio.equity] returns. *)
Lemma apply_fills_equity {S} pf (strategies : list (Strategy.t S)) fills pf'
    strategies' :
  apply_fills pf strategies fills = Some (pf', strategies') →
  equity pf' = equity pf.
Proof.
  intros H. apply apply_fills_curve in H as [Hc Hi]. unfold equity.
  by rewrite Hc, Hi.
Qed.

(** A pass through the loop body appends exactly one snapshot, stamped with
    the bar. *)
Lemma engine_step_curve {S} cfg (e : Engine.t S) timestamp market_events e' :
  engine_step cfg e (timestamp, market_events) = Some e' →
  ∃ snap,
    Portfolio._equity_curve (Engine.portfolio e')
      = Portfolio._equity_curve (Engine.portfolio e) ++ [snap]
    ∧ Snapshot.timestamp snap = timestamp
    ∧ Portfolio.initial_capital (Engine.portfolio e')
      = Portfolio.initial_capital (Engine.portfolio e).
Proof.
  intros Hstep. apply engine_step_inv in Hstep
    as (?&?&?&?&?&?&?&?&?&?&?&pf&?&_&_&_&_&_&_&Hfills&->).
  apply apply_fills_curve in Hfills as [Hc Hi].
  exists (mtm_snapshot pf timestamp market_events). simpl.
  by rewrite Hc, Hi, mtm_snapshot_timestamp.
Qed.

Lemma run_bars_curve {S} cfg (e : Engine.t S) bars e' :
  run_bars cfg e bars = Some e' →
  ∃ snaps,
    Portfolio._equity_curve (Engine.portfolio e')
      = Portfolio._equity_curve (Engine.portfolio e) ++ snaps
    ∧ Snapshot.timestamp <$> snaps = bars.*1
    ∧ Portfolio.initial_capital (Engine.portfolio e')
      = Portfolio.initial_capital (Engine.portfolio e).
Proof.
  revert e. induction bars as [|[timestamp market_events] bars IH]; intros e;
    cbn [run_bars].
  - intros [= <-]. exists []. by rewrite app_nil_r.
  - destruct (engine_step cfg e (timestamp, market_events)) as [e1|] eqn:E;
      cbn [mbind option_bind]; [|done].
    intros Hrun. apply IH in Hrun as (snaps & Hc & Hts & Hi).
    apply engine_step_curve in E as (snap & Hc1 & Hts1 & Hi1).
    exists (snap :: snaps). split; [by rewrite Hc, Hc1, <-app_assoc|].
    split; [by rewrite !fmap_cons, Hts, Hts1|by rewrite Hi, Hi1].
Qed.

(** C10. Let [e] be the engine when the bars before bar [T] have been
    processed.  [Portfolio.equity] is the equity of the last snapshot, or
    the initial capital when there is none; there is one snapshot per bar
    processed, so the last one is that of the bar before [T]; the pass for
    bar [T] calls [process_signals] with this value; and applying fills, of
    bar [T] or any other, does not change it. *)
Theorem sizing_equity_is_previous_bar_equity {S} (cfg : Engine.config)
    (strategies : list (Strategy.t S)) (initial_capital : Q) (counter : N)
    (bars : list (Z * gmap string MarketEvent.t)) (e : Engine.t S) :
  run_bars cfg (Engine.init strategies initial_capital counter) bars = Some e →
  let previous :=
    match last (Portfolio._equity_curve (Engine.portfolio e)) with
    | Some snap => Snapshot.equity snap
    | None => initial_capital
    end in
  equity (Engine.portfolio e) = previous
  ∧ Snapshot.timestamp <$> Portfolio._equity_curve (Engine.portfolio e)
    = bars.*1
  ∧ match last bars with
    | None => previous = initial_capital
    | Some bar =>
        ∃ snap, last (Portfolio._equity_curve (Engine.portfolio e)) = Some snap
                ∧ Snapshot.timestamp snap = bar.1
                ∧ previous = Snapshot.equity snap
    end
  ∧ (∀ timestamp market_events e',
       engine_step cfg e (timestamp, market_events) = Some e' →
       ∃ stop_orders c1 all_signals strategies' orders,
         check_stop_conditions (open_positions_detail (Engine.portfolio e))
                               market_events (Engine._order_counter e)
           = (stop_orders, c1)
         ∧ run_strategies (Engine.strategies e) timestamp market_events
           = (all_signals, strategies')
         ∧ process_signals (Engine.risk_manager cfg) all_signals market_events
             (Engine.feed cfg) previous (open_positions (Engine.portfolio e))
             c1
           = Some (orders, Engine._order_counter e'))
  ∧ (∀ (strategies1 : list (Strategy.t S)) fills pf strategies2,
       apply_fills (Engine.portfolio e) strategies1 fills
       = Some (pf, strategies2) →
       equity pf = previous).
Proof.
  intros Hrun previous.
  apply run_bars_curve in Hrun as (snaps & Hc & Hts & Hi). simpl in Hc, Hi.
  assert (equity (Engine.portfolio e) = previous) as Heq.
  { unfold equity, previous. by rewrite Hi. }
  split; [done|]. split; [by rewrite Hc|]. split; [|split].
  - assert (Snapshot.timestamp <$> last snaps = fst <$> last bars) as Hlast
      by (by rewrite <-!fmap_last, Hts).
    unfold previous. rewrite Hc.
    destruct (last bars) as [bar|], (last snaps) as [snap|]; try done.
    exists snap. by injection Hlast as ->.
  - intros timestamp market_events e' Hstep.
    apply engine_step_inv in Hstep
      as (stop_orders & c1 & ? & ? & all_signals & strategies' & orders & c2
          & ? & ? & ? & ? & ? & Hstop & _ & Hstrat & Hrisk & _ & _ & _ & ->).
    exists stop_orders, c1, all_signals, strategies', orders.
    split; [done|]. split; [done|]. unfold risk_orders in Hrisk.
    by rewrite Heq in Hrisk.
  - intros ???? Hfills. by rewrite (apply_fills_equity _ _ _ _ _ Hfills).
Qed.

Lemma sizing_equity_is_previous_bar_equity_witness :
  ∃ bar e,
    feed_iter demo_feed !! 0%nat = Some bar
    ∧ run_bars demo_config (demo_engine 0) [bar] = Some e
    ∧ Snapshot.timestamp <$> Portfolio._equity_curve (Engine.portfolio e) = [1]
    ∧ ∃ snap, last (Portfolio._equity_curve (Engine.portfolio e)) = Some snap
              ∧ Snapshot.timestamp snap = 1
              ∧ equity (Engine.portfolio e) = Snapshot.equity snap.
Proof.
  assert (∃ e, run_bars demo_config (demo_engine 0)
                 [(1, events_at demo_feed 1)] = Some e) as [e Hrun]
    by (eexists; vm_compute; reflexivity).
  exists (1, events_at demo_feed 1), e.
  split; [vm_compute; reflexivity|]. split; [exact Hrun|].
  destruct (sizing_equity_is_previous_bar_equity _ _ _ _ _ _ Hrun)
    as (Heq & Hts & (snap & Hlast & Hsnap & Hprev) & _).
  split; [exact Hts|]. exists snap. split; [exact Hlast|].
  split; [exact Hsnap|]. by rewrite Heq.
Defined.

(** ** The cap on open long positions *)






(** ** The pending queue *)

(** The three ways out of the loop body of [process_bar]. *)
Lemma process_item_cases b market_events m item o :
  process_item b market_events m item = Some o →
  match o with
  | Kept item' =>
      item' = waited item
      ∧ (is_Some (market_events !! OrderEvent.symbol (Item.order item)) →
         Item.bars_waited item' < Broker.max_bars_pending b)
  | Cancelled order =>
      order = OrderEvent.set_status CANCELLED (Item.order item)
      ∧ Broker.max_bars_pending b ≤ Item.bars_waited item + 1
      ∧ ∃ bar, market_events !! OrderEvent.symbol (Item.order item) = Some bar
               ∧ _try_fill (Item.order item) bar = Some None
  | Filled fill order =>
      order = OrderEvent.set_status FILLED (Item.order item)
      ∧ ∃ bar price,
          market_events !! OrderEvent.symbol (Item.order item) = Some bar
          ∧ _try_fill (Item.order item) bar = Some (Some price)
          ∧ FillEvent.timestamp fill = MarketEvent.timestamp bar
  end.
Proof.
  unfold process_item.
  destruct (market_events !! _) as [bar|] eqn:Hbar.
  - destruct (_try_fill _ bar) as [[price|]|] eqn:Hfill; simpl; [| |done].
    + intros [= <-]. split; [done|]. by exists bar, price.
    + case_bool_decide as Hmax; intros [= <-].
      * split; [done|]. split; [done|]. by exists bar.
      * split; [done|]. intros _. simpl in *. lia.
    - intros [= <-]. split; [done|]. by intros [??].
Qed.

Lemma process_item_absent b market_events m item :
  market_events !! OrderEvent.symbol (Item.order item) = None →
  process_item b market_events m item = Some (Kept (waited item)).
Proof. intros H. unfold process_item. by rewrite H. Qed.

Lemma process_item_expired b market_events m item bar :
  market_events !! OrderEvent.symbol (Item.order item) = Some bar →
  _try_fill (Item.order item) bar = Some None →
  Broker.max_bars_pending b ≤ Item.bars_waited item + 1 →
  process_item b market_events m item
  = Some (Cancelled (OrderEvent.set_status CANCELLED (Item.order item))).
Proof.
  intros Hbar Hfill Hmax. unfold process_item. rewrite Hbar, Hfill. simpl.
  by rewrite bool_decide_eq_true_2.
Qed.

(** [process_bar] raises only on a limit order without a limit price. *)
Lemma process_bar_total b market_events m pending :
  Forall (λ item, OrderEvent.order_type (Item.order item) = LIMIT →
                  is_Some (OrderEvent.limit_price (Item.order item))) pending →
  is_Some (process_bar b market_events m pending).
Proof.
  induction 1 as [|item pending Hitem _ IH]; simpl; [done|].
  destruct IH as [r ->].
  assert (is_Some (process_item b market_events m item)) as [o ->];
    [|done].
  unfold process_item, _try_fill.
  destruct (market_events !! _) as [bar|]; [|done].
  destruct (OrderEvent.order_type (Item.order item)); [done|].
  destruct (Hitem eq_refl) as [lp ->]. simpl.
  destruct (OrderEvent.side (Item.order item)).
  - destruct (Qleb _ lp); simpl; [done|]. by case_bool_decide.
  - destruct (Qleb lp _); simpl; [done|]. by case_bool_decide.
Qed.

Lemma add_outcome_still_pending o r item' :
  item' ∈ BarResult.still_pending (add_outcome o r) ↔
  o = Kept item' ∨ item' ∈ BarResult.still_pending r.
Proof.
  destruct o as [fill order|order|item]; simpl.
  - split; [by right|by intros [?|?]].
  - split; [by right|by intros [?|?]].
  - rewrite elem_of_cons. split.
    + intros [->|?]; [by left|by right].
    + intros [[= <-]|?]; [by left|by right].
Qed.

Lemma add_outcome_retired o r order :
  order ∈ BarResult.retired (add_outcome o r) ↔
  (∃ fill, o = Filled fill order) ∨ o = Cancelled order
  ∨ order ∈ BarResult.retired r.
Proof.
  destruct o as [fill order'|order'|item]; simpl.
  - rewrite elem_of_cons. split.
    + intros [->|?]; [left; by exists fill|by right; right].
    + intros [[? [= _ <-]]|[?|?]]; [by left|done|by right].
  - rewrite elem_of_cons. split.
    + intros [->|?]; [by right; left|by right; right].
    + intros [[? ?]|[[= <-]|?]]; [done|by left|by right].
  - split; [by right; right|]. by intros [[? ?]|[?|?]].
Qed.

(** Every entry kept by [process_bar] is an entry of the old queue with its
    counter incremented, and the counter is below the limit if the symbol
    had a bar. *)
Lemma process_bar_kept b market_events m pending r item' :
  process_bar b market_events m pending = Some r →
  item' ∈ BarResult.still_pending r →
  ∃ item, item ∈ pending ∧ item' = waited item
          ∧ (is_Some (market_events !! OrderEvent.symbol (Item.order item)) →
             Item.bars_waited item' < Broker.max_bars_pending b).
Proof.
  revert r. induction pending as [|item pending IH]; intros r; simpl.
  - intros [= <-]. simpl. by intros ?%elem_of_nil.
  - destruct (process_item _ _ _ item) as [o|] eqn:Ho; simpl; [|done].
    destruct (process_bar _ _ _ pending) as [r'|]; simpl; [|done].
    intros [= <-]. rewrite add_outcome_still_pending. intros [->|Hin].
    + apply process_item_cases in Ho as [-> Hlt].
      exists item. split; [left|done].
    + destruct (IH r' eq_refl Hin) as (item0 & ? & ? & ?).
      exists item0. split; [by right|done].
Qed.

Lemma process_bar_absent b market_events m pending r item :
  process_bar b market_events m pending = Some r →
  item ∈ pending →
  market_events !! OrderEvent.symbol (Item.order item) = None →
  waited item ∈ BarResult.still_pending r.
Proof.
  revert r. induction pending as [|item0 pending IH]; intros r; simpl.
  - by intros _ ?%elem_of_nil.
  - destruct (process_item _ _ _ item0) as [o|] eqn:Ho; simpl; [|done].
    destruct (process_bar _ _ _ pending) as [r'|]; simpl; [|done].
    intros [= <-] Hin Hbar. rewrite add_outcome_still_pending.
    apply elem_of_cons in Hin as [->|Hin].
    + left. rewrite process_item_absent in Ho by done. congruence.
    + right. by apply IH.
Qed.

Lemma process_bar_expired b market_events m pending r item bar :
  process_bar b market_events m pending = Some r →
  item ∈ pending →
  market_events !! OrderEvent.symbol (Item.order item) = Some bar →
  _try_fill (Item.order item) bar = Some None →
  Broker.max_bars_pending b ≤ Item.bars_waited item + 1 →
  OrderEvent.set_status CANCELLED (Item.order item) ∈ BarResult.retired r.
Proof.
  revert r. induction pending as [|item0 pending IH]; intros r; simpl.
  - by intros _ ?%elem_of_nil.
  - destruct (process_item _ _ _ item0) as [o|] eqn:Ho; simpl; [|done].
    destruct (process_bar _ _ _ pending) as [r'|]; simpl; [|done].
    intros [= <-] Hin Hbar Hfill Hmax. rewrite add_outcome_retired.
    apply elem_of_cons in Hin as [->|Hin].
    + right; left.
      rewrite (process_item_expired _ _ _ _ bar) in Ho by done. congruence.
    + right; right. by eapply IH.
Qed.

(** With [max_bars_pending = 1], an order on ["BBB"] submitted before the
    first bar is still pending, with [bars_waited = 2], after the two bars
    on which only ["AAA"] trades; it is cancelled on the third bar, the
    first one that has a bar for its symbol. *)
Lemma pending_order_outlives_max_bars_pending :
  ∃ bar1 bar2 bar3 r1 r2 r3,
    (feed_iter sparse_feed).*2 = [bar1; bar2; bar3]
    ∧ Broker.max_bars_pending demo_broker = 1
    ∧ process_bar demo_broker bar1 ∅ (submit [] idle_order) = Some r1
    ∧ process_bar demo_broker bar2 ∅ (BarResult.still_pending r1) = Some r2
    ∧ BarResult.still_pending r2 = [Item.mk idle_order 2]
    ∧ BarResult.retired r2 = []
    ∧ OrderEvent.status idle_order = PENDING
    ∧ ¬ (Item.bars_waited (Item.mk idle_order 2)
         ≤ Broker.max_bars_pending demo_broker)
    ∧ process_bar demo_broker bar3 ∅ (BarResult.still_pending r2) = Some r3
    ∧ BarResult.retired r3 = [OrderEvent.set_status CANCELLED idle_order].
Proof.
  do 6 eexists. split; [vm_compute; reflexivity|]. split; [done|].
  split; [vm_compute; reflexivity|]. split; [vm_compute; reflexivity|].
  split; [done|]. split; [done|]. split; [done|]. split; [by vm_compute|].
  split; [vm_compute; reflexivity|]. done.
Qed.

(** C4, amended. After [process_bar], every entry of the queue is an entry
    of the old queue with [bars_waited] incremented, and if its symbol had a
    bar then [bars_waited] is below, hence at most, [max_bars_pending]; an
    order whose symbol had no bar is kept whatever its count; an order whose
    symbol had a bar, which did not fill, and whose incremented count
    reaches [max_bars_pending] gets the status CANCELLED and leaves the
    queue. *)
Theorem pending_bound_on_bars_with_the_symbol (b : Broker.t)
    (market_events : gmap string MarketEvent.t) (m : gmap string string)
    (pending : list Item.t) (r : BarResult.t) :
  process_bar b market_events m pending = Some r →
  (∀ item', item' ∈ BarResult.still_pending r →
     ∃ item, item ∈ pending ∧ item' = waited item
             ∧ (is_Some (market_events !! OrderEvent.symbol (Item.order item))
                → Item.bars_waited item' < Broker.max_bars_pending b
                  ∧ Item.bars_waited item' ≤ Broker.max_bars_pending b))
  ∧ (∀ item, item ∈ pending →
       market_events !! OrderEvent.symbol (Item.order item) = None →
       waited item ∈ BarResult.still_pending r)
  ∧ (∀ item bar, item ∈ pending →
       market_events !! OrderEvent.symbol (Item.order item) = Some bar →
       _try_fill (Item.order item) bar = Some None →
       Broker.max_bars_pending b ≤ Item.bars_waited item + 1 →
       OrderEvent.set_status CANCELLED (Item.order item) ∈ BarResult.retired r
       ∧ OrderEvent.status (OrderEvent.set_status CANCELLED (Item.order item))
         = CANCELLED
       ∧ waited item ∉ BarResult.still_pending r).
Proof.
  intros Hr. split; [|split].
  - intros item' Hin.
    destruct (process_bar_kept _ _ _ _ _ _ Hr Hin) as (item & ? & ? & Hlt).
    exists item. split; [done|]. split; [done|]. intros Hbar.
    specialize (Hlt Hbar). lia.
  - intros item Hin Hbar. by eapply process_bar_absent.
  - intros item bar Hin Hbar Hfill Hmax.
    split; [by eapply process_bar_expired|]. split; [done|]. intros Hkept.
    destruct (process_bar_kept _ _ _ _ _ _ Hr Hkept) as (item0 & _ & Heq & Hlt).
    assert (Item.order item0 = Item.order item) as Hord
      by (by injection Heq).
    rewrite Hord, Hbar in Hlt. specialize (Hlt (mk_is_Some _ _ eq_refl)).
    simpl in Hlt. lia.
Qed.

Lemma pending_bound_on_bars_with_the_symbol_witness :
  ∃ r,
    process_bar demo_broker (events_at sparse_feed 3) ∅ [Item.mk idle_order 2]
    = Some r
    ∧ OrderEvent.set_status CANCELLED idle_order ∈ BarResult.retired r
    ∧ Item.mk idle_order 3 ∉ BarResult.still_pending r.
Proof.
  assert (∃ r, process_bar demo_broker (events_at sparse_feed 3) ∅
                 [Item.mk idle_order 2] = Some r) as [r Hr]
    by (eexists; vm_compute; reflexivity).
  exists r. split; [exact Hr|].
  destruct (pending_bound_on_bars_with_the_symbol _ _ _ _ _ Hr)
    as (_ & _ & Hcancel).
  destruct (Hcancel (Item.mk idle_order 2)
              (MarketEvent.mk 3 "BBB" 100 101 99 100 1000))
    as (Hretired & _ & Hgone).
  - left.
  - vm_compute. reflexivity.
  - vm_compute. reflexivity.
  - vm_compute. congruence.
  - split; [exact Hretired|exact Hgone].
Defined.

(** ** Order ids *)

(** *** Reading an id back

    The digits of [f"{n:06d}"] read as a decimal number give [n] back, so
    different counter values give different ids. *)

Section order_ids.
Local Open Scope N_scope.

Lemma digit_value_pretty_N_char x :
  x < 10 → digit_value (pretty_N_char x) = x.
Proof.
  intros Hx.
  assert (x = 0 ∨ x = 1 ∨ x = 2 ∨ x = 3 ∨ x = 4 ∨ x = 5 ∨ x = 6 ∨ x = 7
          ∨ x = 8 ∨ x = 9) as Hcases by lia.
  repeat (destruct Hcases as [->|Hcases]; [done|]). by subst.
Qed.

Lemma append_cons c (q r : string) :
  (String c q +:+ r)%string = String c (q +:+ r).
Proof. done. Qed.

Lemma append_snoc c (q r : string) :
  ((q +:+ String c EmptyString) +:+ r)%string = (q +:+ String c r)%string.
Proof.
  induction q as [|c' q IH]; [done|]. by rewrite !append_cons, IH.
Qed.

Lemma digits_value_app acc (p s : string) :
  digits_value acc (p +:+ s) = digits_value (digits_value acc p) s.
Proof.
  revert acc. induction p as [|c p IH]; intros acc; [done|].
  rewrite append_cons. simpl. apply IH.
Qed.

(** [pretty_N_go x s] puts the digits of [x] in front of [s]. *)
Lemma pretty_N_go_digits x s :
  ∃ p, pretty_N_go x s = (p +:+ s)%string ∧ digits_value 0 p = x.
Proof.
  revert s. induction (N.lt_wf_0 x) as [x _ IH]; intros s.
  destruct (decide (x = 0)) as [->|Hx].
  - exists EmptyString. by rewrite pretty_N_go_0.
  - rewrite pretty_N_go_step by lia.
    destruct (IH (x `div` 10) (N.div_lt x 10 ltac:(lia) ltac:(lia))
                 (String (pretty_N_char (x `mod` 10)) s))
      as (p & Hp & Hval).
    exists (p +:+ String (pretty_N_char (x `mod` 10)) EmptyString)%string.
    split; [by rewrite append_snoc|].
    rewrite digits_value_app, Hval. simpl.
    rewrite digit_value_pretty_N_char by (apply N.mod_lt; lia).
    rewrite (N.div_mod x 10) at 3 by lia. lia.
Qed.

Lemma digits_value_pretty (n : N) : digits_value 0 (pretty n) = n.
Proof.
  unfold pretty, pretty_N. case_decide as Hn; [by subst|].
  destruct (pretty_N_go_digits n EmptyString) as (p & Hp & Hval).
  by rewrite Hp, digits_value_app, Hval.
Qed.

Lemma digits_value_zero_pad width s :
  digits_value 0 (zero_pad width s) = digits_value 0 s.
Proof.
  unfold zero_pad. induction (width - String.length s)%nat as [|k IH];
    [done|]. simpl zeros. rewrite append_cons. simpl. exact IH.
Qed.

Lemma format_06d_inj a b : format_06d a = format_06d b → a = b.
Proof.
  intros H. apply (f_equal (digits_value 0)) in H. unfold format_06d in H.
  by rewrite !digits_value_zero_pad, !digits_value_pretty in H.
Qed.

(** Two calls of [_next_id] return the same id only from the same
    counter. *)
Lemma _next_id_inj a b : (_next_id a).1 = (_next_id b).1 → a = b.
Proof.
  unfold _next_id. simpl. intros [= H]. apply format_06d_inj in H. lia.
Qed.
End order_ids.

(** ** Two runs on the same inputs

    Two engines are built on the same feed, strategies, broker and risk
    manager, one in a process whose order counter stands at [start1], the
    other at [start2].  The runs proceed in lock step: what the first does
    with the id of counter value [start1 + k] the second does with that of
    [start2 + k]. *)

Section same_inputs.
Context {starts : Starts}.

(** Related ids are equal together. *)
Lemma id_rel_eq a b a' b' : id_rel a b → id_rel a' b' → a = a' ↔ b = b'.
Proof.
  intros (k & -> & ->) (k' & -> & ->).
  split; intros H; apply _next_id_inj in H;
    assert (k = k') as -> by lia; done.
Qed.

Lemma map_rel_insert m1 m2 a b v :
  map_rel m1 m2 → id_rel a b → map_rel (<[a:=v]> m1) (<[b:=v]> m2).
Proof.
  intros Hm Hab a' b' Hab'. destruct (decide (a = a')) as [->|Hne].
  - assert (b = b') as -> by (by apply (id_rel_eq a' b a' b')).
    by rewrite !lookup_insert_eq.
  - assert (b ≠ b') by (by rewrite <-(id_rel_eq a b a' b')).
    rewrite !lookup_insert_ne by done. by apply Hm.
Qed.

Lemma new_order_rel ts sym ty sd qty lp sl tp c1 c2 :
  counter_rel c1 c2 →
  order_rel (new_order ts sym ty sd qty lp sl tp c1).1
            (new_order ts sym ty sd qty lp sl tp c2).1
  ∧ counter_rel (new_order ts sym ty sd qty lp sl tp c1).2
                (new_order ts sym ty sd qty lp sl tp c2).2.
Proof.
  intros (k & -> & ->). unfold new_order. simpl. split.
  - exists (OrderEvent.mk ts sym ty sd qty lp sl tp EmptyString PENDING).
    do 2 eexists. split; [by exists k|]. done.
  - exists (k + 1)%N. lia.
Qed.

Lemma orders_rel_nil c1 c2 : counter_rel c1 c2 → orders_rel ([], c1) ([], c2).
Proof. intros H. split; [constructor|done]. Qed.

Lemma orders_rel_new ts sym ty sd qty lp sl tp c1 c2 :
  counter_rel c1 c2 →
  orders_rel
    (let '(o, c) := new_order ts sym ty sd qty lp sl tp c1 in ([o], c))
    (let '(o, c) := new_order ts sym ty sd qty lp sl tp c2 in ([o], c)).
Proof.
  intros H. destruct (new_order_rel ts sym ty sd qty lp sl tp c1 c2 H)
    as [Ho Hc].
  destruct (new_order _ _ _ _ _ _ _ _ c1), (new_order _ _ _ _ _ _ _ _ c2).
  split; [by repeat constructor|done].
Qed.

Lemma orders_rel_app r1 r2 r1' r2' :
  orders_rel r1 r2 → orders_rel r1' r2' →
  orders_rel (r1.1 ++ r1'.1, r1'.2) (r2.1 ++ r2'.1, r2'.2).
Proof. intros [??] [??]. split; [by apply Forall2_app|done]. Qed.

Lemma stop_order_rel market_events symbol pos c1 c2 :
  counter_rel c1 c2 →
  orders_rel (stop_order market_events symbol pos c1)
             (stop_order market_events symbol pos c2).
Proof.
  intros Hc. unfold stop_order.
  destruct (market_events !! symbol) as [bar|]; [|by apply orders_rel_nil].
  destruct (Qeqb _ 0); [by apply orders_rel_nil|].
  destruct (Qltb 0 _); [|by apply orders_rel_nil].
  destruct (truthy _ && _); [by apply orders_rel_new|].
  destruct (truthy _ && _); [by apply orders_rel_new|by apply orders_rel_nil].
Qed.

Lemma check_stop_conditions_rel details market_events c1 c2 :
  counter_rel c1 c2 →
  orders_rel (check_stop_conditions details market_events c1)
             (check_stop_conditions details market_events c2).
Proof.
  revert c1 c2. induction details as [|[symbol pos] details IH];
    intros c1 c2 Hc; simpl.
  - by apply orders_rel_nil.
  - pose proof (stop_order_rel market_events symbol pos c1 c2 Hc) as H1.
    destruct (stop_order _ _ _ c1) as [os1 c1'],
             (stop_order _ _ _ c2) as [os2 c2'].
    pose proof (IH c1' c2' (proj2 H1)) as H2.
    destruct (check_stop_conditions _ _ c1') as [os1' c1''],
             (check_stop_conditions _ _ c2') as [os2' c2''].
    exact (orders_rel_app _ _ _ _ H1 H2).
Qed.

Lemma signal_orders_rel rm market_events feed equity positions sig c1 c2 :
  counter_rel c1 c2 →
  option_Forall2 orders_rel
    (signal_orders rm market_events feed equity positions sig c1)
    (signal_orders rm market_events feed equity positions sig c2).
Proof.
  intros Hc. unfold signal_orders.
  assert (option_Forall2 orders_rel (Some ([], c1)) (Some ([], c2))) as Hnil
    by (constructor; by apply orders_rel_nil).
  assert (∀ ts sym ty sd qty lp sl tp,
            option_Forall2 orders_rel
              (let '(o, c) := new_order ts sym ty sd qty lp sl tp c1 in
               Some ([o], c))
              (let '(o, c) := new_order ts sym ty sd qty lp sl tp c2 in
               Some ([o], c))) as Hnew.
  { intros. pose proof (orders_rel_new ts sym ty sd qty lp sl tp c1 c2 Hc).
    destruct (new_order _ _ _ _ _ _ _ _ c1), (new_order _ _ _ _ _ _ _ _ c2).
    by constructor. }
  destruct (market_events !! SignalEvent.symbol sig) as [bar|]; [|done].
  destruct (history _ _ _ _) as [hist|]; simpl; [|constructor].
  destruct (SignalEvent.direction sig).
  - destruct (Qltb 0 _); [done|]. destruct (negb _ && _); [done|].
    destruct (size _ _ _ _ _) as [qty|]; simpl; [|constructor].
    destruct (Qleb qty 0); [done|]. apply Hnew.
  - destruct (RiskManager.allow_short rm); [|done].
    destruct (Qltb _ 0); [done|].
    destruct (size _ _ _ _ _) as [qty|]; simpl; [|constructor].
    destruct (Qleb qty 0); [done|]. apply Hnew.
  - destruct (Qltb 0 _); [apply Hnew|].
    destruct (Qltb _ 0 && _); [apply Hnew|done].
Qed.

Lemma process_signals_rel rm signals market_events feed equity positions
    c1 c2 :
  counter_rel c1 c2 →
  option_Forall2 orders_rel
    (process_signals rm signals market_events feed equity positions c1)
    (process_signals rm signals market_events feed equity positions c2).
Proof.
  revert c1 c2. induction signals as [|sig signals IH]; intros c1 c2 Hc;
    simpl.
  - constructor. by apply orders_rel_nil.
  - destruct (signal_orders_rel rm market_events feed equity positions sig
                c1 c2 Hc) as [[os1 c1'] [os2 c2'] H1|]; simpl;
      [|constructor].
    destruct (IH c1' c2' (proj2 H1)) as [[os1' c1''] [os2' c2''] H2|]; simpl;
      constructor.
    exact (orders_rel_app _ _ _ _ H1 H2).
Qed.

(** *** Submission *)

Lemma _submit_rel pending1 pending2 m1 m2 o1 o2 strategy_id :
  Forall2 item_rel pending1 pending2 → map_rel m1 m2 → order_rel o1 o2 →
  Forall2 item_rel (_submit pending1 m1 o1 strategy_id).1
                   (_submit pending2 m2 o2 strategy_id).1
  ∧ map_rel (_submit pending1 m1 o1 strategy_id).2
            (_submit pending2 m2 o2 strategy_id).2.
Proof.
  intros Hp Hm Ho. unfold _submit, submit. simpl. split.
  - apply Forall2_app; [done|]. by repeat constructor.
  - destruct Ho as (o & a & b & Hab & -> & ->). simpl.
    by apply map_rel_insert.
Qed.

Lemma submit_stop_orders_rel pending1 pending2 m1 m2 os1 os2 :
  Forall2 item_rel pending1 pending2 → map_rel m1 m2 →
  Forall2 order_rel os1 os2 →
  Forall2 item_rel (submit_stop_orders pending1 m1 os1).1
                   (submit_stop_orders pending2 m2 os2).1
  ∧ map_rel (submit_stop_orders pending1 m1 os1).2
            (submit_stop_orders pending2 m2 os2).2.
Proof.
  intros Hp Hm Hos. revert pending1 pending2 m1 m2 Hp Hm.
  induction Hos as [|o1 o2 os1 os2 Ho _ IH]; intros; [done|].
  cbn [submit_stop_orders].
  destruct (_submit_rel pending1 pending2 m1 m2 o1 o2 "__risk__" Hp Hm Ho)
    as [Hp' Hm'].
  destruct (_submit pending1 m1 o1 _), (_submit pending2 m2 o2 _).
  by apply IH.
Qed.

Lemma attribution_rel all_signals o1 o2 :
  order_rel o1 o2 → attribution all_signals o1 = attribution all_signals o2.
Proof. by intros (o & a & b & _ & -> & ->). Qed.

Lemma submit_orders_rel all_signals pending1 pending2 m1 m2 os1 os2 :
  Forall2 item_rel pending1 pending2 → map_rel m1 m2 →
  Forall2 order_rel os1 os2 →
  Forall2 item_rel (submit_orders all_signals pending1 m1 os1).1
                   (submit_orders all_signals pending2 m2 os2).1
  ∧ map_rel (submit_orders all_signals pending1 m1 os1).2
            (submit_orders all_signals pending2 m2 os2).2.
Proof.
  intros Hp Hm Hos. revert pending1 pending2 m1 m2 Hp Hm.
  induction Hos as [|o1 o2 os1 os2 Ho _ IH]; intros; [done|].
  cbn [submit_orders]. rewrite (attribution_rel all_signals o1 o2 Ho).
  destruct (_submit_rel pending1 pending2 m1 m2 o1 o2
              (attribution all_signals o2) Hp Hm Ho) as [Hp' Hm'].
  destruct (_submit pending1 m1 o1 _), (_submit pending2 m2 o2 _).
  by apply IH.
Qed.

(** *** The broker *)

Lemma process_item_rel b market_events m1 m2 i1 i2 :
  map_rel m1 m2 → item_rel i1 i2 →
  option_Forall2 outcome_rel (process_item b market_events m1 i1)
                             (process_item b market_events m2 i2).
Proof.
  intros Hm [(o & a1 & a2 & Ha & Ho1 & Ho2) Hw].
  destruct i1 as [o1 w1], i2 as [o2 w2]. simpl in *. subst o1 o2 w2.
  unfold process_item, _try_fill. simpl.
  destruct (market_events !! OrderEvent.symbol o) as [bar|].
  - assert (∀ price,
              fill_rel
                (fill_order b m1 (OrderEvent.set_order_id a1 o) bar price)
                (fill_order b m2 (OrderEvent.set_order_id a2 o) bar price))
      as Hfilled.
    { intros price. unfold fill_order. simpl. rewrite (Hm a1 a2 Ha).
      eexists (FillEvent.mk _ _ _ _ _ _ _ EmptyString _), a1, a2.
      split; [done|]. split; reflexivity. }
    assert (option_Forall2 outcome_rel
              (if bool_decide (Broker.max_bars_pending b ≤ w1 + 1)
               then Some (Cancelled (OrderEvent.set_status CANCELLED
                                       (OrderEvent.set_order_id a1 o)))
               else Some (Kept (Item.mk (OrderEvent.set_order_id a1 o)
                                        (w1 + 1))))
              (if bool_decide (Broker.max_bars_pending b ≤ w1 + 1)
               then Some (Cancelled (OrderEvent.set_status CANCELLED
                                       (OrderEvent.set_order_id a2 o)))
               else Some (Kept (Item.mk (OrderEvent.set_order_id a2 o)
                                        (w1 + 1))))) as Hunfilled.
    { case_bool_decide; constructor; [done|].
      split; [|done]. by exists o, a1, a2. }
    destruct (OrderEvent.order_type o); simpl.
    + constructor. apply Hfilled.
    + destruct (OrderEvent.limit_price o) as [lp|]; simpl; [|constructor].
      destruct (OrderEvent.side o).
      * destruct (Qleb _ lp); simpl; [|exact Hunfilled].
        constructor. exact (Hfilled (py_min lp (MarketEvent.open bar))).
      * destruct (Qleb lp _); simpl; [|exact Hunfilled].
        constructor. exact (Hfilled (py_max lp (MarketEvent.open bar))).
  - constructor. split; [|done]. by exists o, a1, a2.
Qed.

Lemma add_outcome_rel x1 x2 r1 r2 :
  outcome_rel x1 x2 → result_rel r1 r2 →
  result_rel (add_outcome x1 r1) (add_outcome x2 r2).
Proof.
  intros Hx [Hf Hp]. destruct x1, x2; simpl in Hx; try done;
    split; simpl; try done; by constructor.
Qed.

Lemma process_bar_rel b market_events m1 m2 pending1 pending2 :
  map_rel m1 m2 → Forall2 item_rel pending1 pending2 →
  option_Forall2 result_rel (process_bar b market_events m1 pending1)
                            (process_bar b market_events m2 pending2).
Proof.
  intros Hm Hp. induction Hp as [|i1 i2 pending1 pending2 Hi _ IH]; simpl.
  - constructor. split; constructor.
  - destruct (process_item_rel b market_events m1 m2 i1 i2 Hm Hi)
      as [x1 x2 Hx|]; simpl; [|constructor].
    destruct IH as [r1 r2 Hr|]; simpl; constructor.
    by apply add_outcome_rel.
Qed.

(** *** The ledger *)

Lemma _record_trade_rel t1 t2 f a b pnl :
  Forall2 trade_rel t1 t2 → id_rel a b →
  Forall2 trade_rel (_record_trade t1 (FillEvent.set_order_id a f) pnl)
                    (_record_trade t2 (FillEvent.set_order_id b f) pnl).
Proof.
  intros Ht Hab. unfold _record_trade. apply Forall2_app; [done|].
  constructor; [|constructor]. simpl.
  eexists (TradeRecord.mk _ _ _ _ _ _ _ _ EmptyString _), a, b.
  split; [done|]. split; reflexivity.
Qed.

Lemma _process_buy_rel positions t1 t2 f a b :
  Forall2 trade_rel t1 t2 → id_rel a b →
  option_Forall2 (λ r1 r2, r1.1 = r2.1 ∧ Forall2 trade_rel r1.2 r2.2)
    (_process_buy positions t1 (FillEvent.set_order_id a f))
    (_process_buy positions t2 (FillEvent.set_order_id b f)).
Proof.
  intros Ht Hab. unfold _process_buy. simpl.
  pose proof (_record_trade_rel t1 t2 f a b 0 Ht Hab) as Hrec.
  destruct (dict_get _ positions) as [pos|].
  - destruct (Qltb 0 _).
    + destruct (Qeqb _ 0); simpl; by constructor.
    + simpl. by constructor.
  - simpl. by constructor.
Qed.

Lemma _process_sell_rel positions t1 t2 f a b :
  Forall2 trade_rel t1 t2 → id_rel a b →
  (_process_sell positions t1 (FillEvent.set_order_id a f)).1.1
  = (_process_sell positions t2 (FillEvent.set_order_id b f)).1.1
  ∧ Forall2 trade_rel
      (_process_sell positions t1 (FillEvent.set_order_id a f)).1.2
      (_process_sell positions t2 (FillEvent.set_order_id b f)).1.2.
Proof.
  intros Ht Hab. unfold _process_sell. simpl.
  destruct (dict_get _ positions) as [pos|].
  - destruct (Qltb _ qty_epsilon); simpl;
      (split; [done|by apply _record_trade_rel]).
  - simpl. split; [done|by apply _record_trade_rel].
Qed.

Lemma on_fill_rel p1 p2 f1 f2 :
  pf_rel p1 p2 → fill_rel f1 f2 →
  option_Forall2 pf_rel (on_fill p1 f1) (on_fill p2 f2).
Proof.
  intros [Ht Hp] (f & a & b & Hab & -> & ->).
  destruct p2 as [ic cash positions curve t2 tc ts].
  destruct p1 as [ic' cash' positions' curve' t1 tc' ts'].
  unfold with_trades in Hp. simpl in *. injection Hp as -> -> -> -> -> ->.
  unfold on_fill. simpl. destruct (FillEvent.side f).
  - destruct (_process_buy_rel positions t1 t2 f a b Ht Hab)
      as [[pos1 tr1] [pos2 tr2] [Hpos Htr]|]; simpl in *; [|constructor].
    subst pos2. constructor. split; [done|]. reflexivity.
  - destruct (_process_sell_rel positions t1 t2 f a b Ht Hab) as [Hpos Htr].
    destruct (_process_sell positions t1 _) as [[pos1 tr1] x1],
             (_process_sell positions t2 _) as [[pos2 tr2] x2].
    simpl in *. subst pos2. constructor. split; [done|]. reflexivity.
Qed.

Lemma notify_fill_rel {S} (strategies : list (Strategy.t S)) f1 f2 :
  Forall fill_blind strategies → fill_rel f1 f2 →
  notify_fill strategies f1 = notify_fill strategies f2.
Proof.
  intros Hs (f & a & b & _ & -> & ->). unfold notify_fill.
  apply Forall_fmap_ext. eapply Forall_impl; [exact Hs|].
  intros strat Hblind. simpl. by rewrite !Hblind.
Qed.

Lemma notify_fill_blind {S} (strategies : list (Strategy.t S)) f :
  Forall fill_blind strategies → Forall fill_blind (notify_fill strategies f).
Proof.
  intros Hs. unfold notify_fill. apply Forall_fmap.
  eapply Forall_impl; [exact Hs|]. intros strat Hblind. exact Hblind.
Qed.

Lemma run_strategies_blind {S} (strategies : list (Strategy.t S)) timestamp
    market_events :
  Forall fill_blind strategies →
  Forall fill_blind (run_strategies strategies timestamp market_events).2.
Proof.
  induction 1 as [|strat strategies Hblind _ IH]; simpl; [constructor|].
  destruct (Strategy.on_bar strat _ _ _) as [emits s].
  destruct (run_strategies strategies _ _) as [signals strategies'].
  simpl in *. constructor; [exact Hblind|exact IH].
Qed.

Lemma apply_fills_rel {S} p1 p2 (strategies : list (Strategy.t S)) fills1
    fills2 :
  pf_rel p1 p2 → Forall fill_blind strategies →
  Forall2 fill_rel fills1 fills2 →
  option_Forall2 (λ r1 r2, pf_rel r1.1 r2.1 ∧ r1.2 = r2.2
                           ∧ Forall fill_blind r1.2)
    (apply_fills p1 strategies fills1) (apply_fills p2 strategies fills2).
Proof.
  intros Hp Hs Hf. revert p1 p2 strategies Hp Hs.
  induction Hf as [|f1 f2 fills1 fills2 Hf _ IH]; intros; simpl.
  - by constructor.
  - destruct (on_fill_rel p1 p2 f1 f2 Hp Hf) as [p1' p2' Hp'|]; simpl;
      [|constructor].
    rewrite (notify_fill_rel strategies f1 f2 Hs Hf).
    apply IH; [done|]. by apply notify_fill_blind.
Qed.

Lemma sum_pnl_rel t1 t2 : Forall2 trade_rel t1 t2 → sum_pnl t1 = sum_pnl t2.
Proof.
  unfold sum_pnl. generalize 0%Q.
  intros q Ht. revert q.
  induction Ht as [|x1 x2 t1 t2 (t & a & b & _ & -> & ->) _ IH]; intros q;
    simpl; [done|]. apply IH.
Qed.

Lemma mark_to_market_rel p1 p2 timestamp market_events :
  pf_rel p1 p2 →
  pf_rel (mark_to_market p1 timestamp market_events)
         (mark_to_market p2 timestamp market_events).
Proof.
  intros [Ht Hp]. split; [done|].
  unfold mark_to_market, mtm_snapshot. rewrite (sum_pnl_rel _ _ Ht).
  rewrite Hp. reflexivity.
Qed.

(** *** The loop *)

Lemma engine_step_rel {S} cfg (e1 e2 : Engine.t S) bar :
  engine_rel e1 e2 →
  option_Forall2 engine_rel (engine_step cfg e1 bar) (engine_step cfg e2 bar).
Proof.
  intros (Hs & Hblind & Hpf & Hpend & Hmap & Hc).
  destruct bar as [timestamp market_events]. unfold engine_step.
  assert (equity (Engine.portfolio e1) = equity (Engine.portfolio e2)
          ∧ open_positions (Engine.portfolio e1)
            = open_positions (Engine.portfolio e2)
          ∧ open_positions_detail (Engine.portfolio e1)
            = open_positions_detail (Engine.portfolio e2))
    as (Heq & Hop & Hdet).
  { destruct Hpf as [_ ->]. done. }
  rewrite Hdet, <-Hs.
  pose proof (check_stop_conditions_rel
                (open_positions_detail (Engine.portfolio e2)) market_events
                _ _ Hc) as [Hstop Hc1].
  destruct (check_stop_conditions _ _ (Engine._order_counter e1))
    as [stop1 c1],
    (check_stop_conditions _ _ (Engine._order_counter e2)) as [stop2 c2].
  simpl in Hstop, Hc1.
  pose proof (submit_stop_orders_rel _ _ _ _ _ _ Hpend Hmap Hstop)
    as [Hpend1 Hmap1].
  destruct (submit_stop_orders (Engine._pending e1) _ stop1) as [pend1 m1],
    (submit_stop_orders (Engine._pending e2) _ stop2) as [pend2 m2].
  simpl in Hpend1, Hmap1.
  pose proof (run_strategies_blind (Engine.strategies e1) timestamp
                market_events Hblind) as Hblind1.
  destruct (run_strategies _ _ _) as [all_signals strategies].
  simpl in Hblind1. unfold risk_orders. rewrite Heq, Hop.
  destruct (process_signals_rel (Engine.risk_manager cfg) all_signals
              market_events (Engine.feed cfg)
              (equity (Engine.portfolio e2))
              (open_positions (Engine.portfolio e2)) c1 c2 Hc1)
    as [[os1 c1'] [os2 c2'] [Hos Hc2]|]; simpl; [|constructor].
  simpl in Hos, Hc2.
  pose proof (submit_orders_rel all_signals _ _ _ _ _ _ Hpend1 Hmap1 Hos)
    as [Hpend2 Hmap2].
  destruct (submit_orders all_signals pend1 m1 os1) as [pend1' m1'],
    (submit_orders all_signals pend2 m2 os2) as [pend2' m2'].
  simpl in Hpend2, Hmap2.
  destruct (process_bar_rel (Engine.broker cfg) market_events _ _ _ _
              Hmap2 Hpend2) as [r1 r2 [Hfills Hstill]|]; simpl;
    [|constructor].
  destruct (apply_fills_rel _ _ strategies _ _ Hpf Hblind1 Hfills)
    as [[pf1 ss1] [pf2 ss2] (Hpf' & Hss & Hblind')|]; simpl in *;
    [|constructor].
  subst ss2. constructor. repeat split; simpl; try done.
  - by destruct (mark_to_market_rel pf1 pf2 timestamp market_events Hpf').
  - by destruct (mark_to_market_rel pf1 pf2 timestamp market_events Hpf').
Qed.

Lemma run_bars_rel {S} cfg (e1 e2 : Engine.t S) bars :
  engine_rel e1 e2 →
  option_Forall2 engine_rel (run_bars cfg e1 bars) (run_bars cfg e2 bars).
Proof.
  revert e1 e2. induction bars as [|bar bars IH]; intros e1 e2 He;
    cbn [run_bars].
  - by constructor.
  - destruct (engine_step_rel cfg e1 e2 bar He) as [e1' e2' He'|];
      cbn [mbind option_bind]; [|constructor].
    by apply IH.
Qed.

Lemma engine_init_rel {S} (strategies : list (Strategy.t S)) initial_capital :
  Forall fill_blind strategies →
  engine_rel (Engine.init strategies initial_capital start1)
             (Engine.init strategies initial_capital start2).
Proof.
  intros Hs. split; [done|]. split; [done|]. split; [by split|].
  split; [constructor|]. split; [by intros ???|].
  exists 0%N. simpl. by rewrite !N.add_0_r.
Qed.
End same_inputs.

(** In one process the counter keeps counting: the second engine is built
    when the counter stands where the first run left it, and the ids in its
    trade log are not those of the first run. *)
Lemma second_run_gets_other_order_ids :
  ∃ e1 e2,
    run demo_config (demo_engine 0) = Some e1
    ∧ run demo_config (demo_engine (Engine._order_counter e1)) = Some e2
    ∧ TradeRecord.order_id <$> trade_log (Engine.portfolio e1)
      = ["ORD-000001"%string]
    ∧ TradeRecord.order_id <$> trade_log (Engine.portfolio e2)
      = ["ORD-000002"%string]
    ∧ trade_log (Engine.portfolio e1) ≠ trade_log (Engine.portfolio e2).
Proof.
  do 2 eexists. split; [vm_compute; reflexivity|].
  split; [vm_compute; reflexivity|]. split; [done|]. split; [done|].
  by vm_compute.
Qed.

(** C9, amended. Two runs on the same feed, strategies, broker and risk
    configuration, started at order-counter values [c1] and [c2], with
    strategies whose [on_fill] does not read the order id, either both fail
    or both finish, with the same equity snapshots and with trade logs that
    agree row by row in every column but [order_id]; row by row, the two ids
    are those of [c1 + k] and [c2 + k] for the same [k]. *)
Theorem runs_agree_up_to_order_ids {S} (cfg : Engine.config)
    (strategies : list (Strategy.t S)) (initial_capital : Q) (c1 c2 : N) :
  Forall fill_blind strategies →
  match run cfg (Engine.init strategies initial_capital c1),
        run cfg (Engine.init strategies initial_capital c2) with
  | Some e1, Some e2 =>
      Portfolio._equity_curve (Engine.portfolio e1)
      = Portfolio._equity_curve (Engine.portfolio e2)
      ∧ Forall2
          (λ t1 t2,
             TradeRecord.set_order_id EmptyString t1
             = TradeRecord.set_order_id EmptyString t2
             ∧ ∃ k : N, TradeRecord.order_id t1 = (_next_id (c1 + k)).1
                        ∧ TradeRecord.order_id t2 = (_next_id (c2 + k)).1)
          (trade_log (Engine.portfolio e1)) (trade_log (Engine.portfolio e2))
  | None, None => True
  | _, _ => False
  end.
Proof.
  intros Hblind. unfold run.
  pose proof (run_bars_rel (starts := Build_Starts c1 c2) cfg _ _
                (feed_iter (Engine.feed cfg))
                (engine_init_rel (starts := Build_Starts c1 c2) strategies
                   initial_capital Hblind)) as Hrun.
  cbn [start1 start2] in Hrun.
  destruct Hrun as [e1 e2 (_ & _ & [Ht Hp] & _)|]; [|done].
  split; [by rewrite Hp|]. unfold trade_log.
  eapply Forall2_impl; [exact Ht|].
  intros t1 t2 (t & a & b & (k & -> & ->) & -> & ->). split; [done|].
  by exists k.
Qed.

Lemma runs_agree_up_to_order_ids_witness :
  Forall fill_blind [demo_strategy]
  ∧ match run demo_config (demo_engine 0), run demo_config (demo_engine 1) with
    | Some e1, Some e2 =>
        Portfolio._equity_curve (Engine.portfolio e1)
        = Portfolio._equity_curve (Engine.portfolio e2)
        ∧ Forall2
            (λ t1 t2,
               TradeRecord.set_order_id EmptyString t1
             = TradeRecord.set_order_id EmptyString t2
               ∧ ∃ k : N, TradeRecord.order_id t1 = (_next_id (0 + k)).1
                          ∧ TradeRecord.order_id t2 = (_next_id (1 + k)).1)
            (trade_log (Engine.portfolio e1)) (trade_log (Engine.portfolio e2))
    | None, None => True
    | _, _ => False
    end.
Proof.
  assert (Forall fill_blind [demo_strategy]) as Hblind
    by (constructor; [by intros ???|constructor]).
  split; [exact Hblind|].
  exact (runs_agree_up_to_order_ids demo_config [demo_strategy] 100000 0 1
           Hblind).
Defined.

(** ** Every order is filled by the pass that creates it *)

Lemma check_stop_conditions_market details market_events c :
  Forall (fills_now market_events)
         (check_stop_conditions details market_events c).1.
Proof.
  revert c. induction details as [|[symbol pos] details IH]; intros c; simpl.
  - constructor.
  - assert (Forall (fills_now market_events)
                   (stop_order market_events symbol pos c).1) as H1.
    { unfold stop_order, new_order.
      destruct (market_events !! symbol) as [bar|] eqn:Hbar; [|constructor].
      assert (∀ o, OrderEvent.order_type o = MARKET →
                   OrderEvent.symbol o = symbol →
                   Forall (fills_now market_events) [o]) as Hone.
      { intros o Hty Hsym. constructor; [|constructor]. split; [done|].
        by rewrite Hsym, Hbar. }
      destruct (Qeqb _ 0); [constructor|].
      destruct (Qltb 0 _); [|constructor].
      destruct (truthy _ && _); [by apply Hone|].
      destruct (truthy _ && _); [by apply Hone|constructor]. }
    destruct (stop_order _ _ _ c) as [os1 c1]. specialize (IH c1).
    destruct (check_stop_conditions _ _ c1) as [os2 c2]. simpl in *.
    by apply Forall_app.
Qed.

Lemma submit_stop_orders_pending pending m orders :
  (submit_stop_orders pending m orders).1
  = pending ++ ((λ o, Item.mk o 0) <$> orders).
Proof.
  revert pending m. induction orders as [|o orders IH]; intros pending m;
    cbn [submit_stop_orders].
  - by rewrite app_nil_r.
  - unfold _submit, submit. rewrite IH, <-app_assoc. done.
Qed.

Lemma submit_orders_pending all_signals pending m orders :
  (submit_orders all_signals pending m orders).1
  = pending ++ ((λ o, Item.mk o 0) <$> orders).
Proof.
  revert pending m. induction orders as [|o orders IH]; intros pending m;
    cbn [submit_orders].
  - by rewrite app_nil_r.
  - unfold _submit, submit. rewrite IH, <-app_assoc. done.
Qed.

(** A queue of market orders on symbols that all have a bar is emptied by
    [process_bar], one fill per order. *)
Lemma process_bar_drains b market_events m pending :
  Forall (fills_now market_events) (Item.order <$> pending) →
  ∃ r, process_bar b market_events m pending = Some r
       ∧ BarResult.still_pending r = []
       ∧ FillEvent.order_id <$> BarResult.fills r
         = OrderEvent.order_id ∘ Item.order <$> pending
       ∧ Forall (λ fill, ∃ bar, market_events !! FillEvent.symbol fill = Some bar
                                ∧ FillEvent.timestamp fill
                                  = MarketEvent.timestamp bar)
                (BarResult.fills r).
Proof.
  induction pending as [|item pending IH]; intros Hall.
  - eexists. split; [done|]. split; [done|]. split; [done|]. constructor.
  - rewrite fmap_cons in Hall. apply Forall_cons in Hall as [[Hty [bar Hbar]] Hall].
    destruct (IH Hall) as (r & Hr & Hstill & Hids & Hts).
    cbn [process_bar]. rewrite Hr.
    unfold process_item, _try_fill. rewrite Hbar, Hty. simpl.
    eexists. split; [done|]. cbn [add_outcome BarResult.still_pending
                                   BarResult.fills].
    split; [done|]. split.
    + by rewrite !fmap_cons, Hids.
    + constructor; [|done]. by exists bar.
Qed.

(** Started on an empty queue, a pass through the loop body ends on an
    empty queue: no order ever waits for a later bar. *)
Lemma engine_step_drains_queue {S} cfg (e : Engine.t S) timestamp
    market_events e' :
  Engine._pending e = [] →
  engine_step cfg e (timestamp, market_events) = Some e' →
  Engine._pending e' = [].
Proof.
  intros Hempty Hstep. apply engine_step_inv in Hstep
    as (stop_orders & c1 & pending1 & m1 & all_signals & strategies & orders
        & c2 & pending2 & m2 & r & pf & strategies'
        & Hstop & Hsub1 & _ & Hrisk & Hsub2 & Hbar & _ & ->).
  simpl.
  pose proof (check_stop_conditions_market
                (open_positions_detail (Engine.portfolio e)) market_events
                (Engine._order_counter e)) as Hm1.
  rewrite Hstop in Hm1. simpl in Hm1.
  apply process_signals_market in Hrisk.
  pose proof (submit_stop_orders_pending (Engine._pending e)
                (Engine._order_strategy_map e) stop_orders) as Hp1.
  rewrite Hsub1, Hempty in Hp1. simpl in Hp1.
  pose proof (submit_orders_pending all_signals pending1 m1 orders) as Hp2.
  rewrite Hsub2 in Hp2. simpl in Hp2. subst pending1 pending2.
  destruct (process_bar_drains (Engine.broker cfg) market_events m2
              (((λ o, Item.mk o 0) <$> stop_orders)
               ++ ((λ o, Item.mk o 0) <$> orders))) as (r' & Hr' & Hstill & _).
  { rewrite fmap_app, <-!list_fmap_compose. apply Forall_app. split.
    - by rewrite list_fmap_id.
    - by rewrite list_fmap_id. }
  rewrite Hbar in Hr'. by injection Hr' as ->.
Qed.

(** * More properties *)

(** ** The bar feed *)

(** X1. Whatever the count [n], [history] returns rows of the symbol's frame,
    in frame order, and none of them is later than [up_to]. *)
Theorem history_returns_past_rows_in_order (feed : BarFeed) (symbol : string)
    (up_to : Z) (n : option Z) (hist : DataFrame) :
  history feed symbol up_to n = Some hist →
  ∃ df, feed !! symbol = Some df
        ∧ hist `sublist_of` df
        ∧ Forall (λ r, Row.index r ≤ up_to) hist.
Proof.
  unfold history. destruct (feed !! symbol) as [df|]; simpl; [|done].
  intros [= <-]. exists df. split; [done|].
  assert ((match n with
           | Some n => iloc_last n (mask_le up_to df)
           | None => mask_le up_to df
           end) `sublist_of` mask_le up_to df) as Hsub.
  { destruct n as [n|]; [|done]. apply sublist_drop. }
  split.
  - etrans; [exact Hsub|]. apply sublist_filter.
  - apply Forall_forall. intros r Hr. eapply mask_le_bound.
    by eapply elem_of_sublist.
Qed.

Lemma history_returns_past_rows_in_order_witness :
  ∃ hist df,
    history demo_feed "AAA" 2 (Some 5) = Some hist
    ∧ demo_feed !! "AAA"%string = Some df
    ∧ hist `sublist_of` df
    ∧ Forall (λ r, Row.index r ≤ 2) hist.
Proof.
  assert (∃ hist, history demo_feed "AAA" 2 (Some 5) = Some hist) as [hist H]
    by (eexists; vm_compute; reflexivity).
  destruct (history_returns_past_rows_in_order _ _ _ _ _ H)
    as (df & Hdf & Hsub & Hall).
  by exists hist, df.
Defined.

(** X2. For a symbol of the feed and a count [n ≥ 1], [history] returns
    exactly the last [min n k] of the [k] rows that are not later than
    [up_to]; without a count it returns all [k]; for a symbol the feed
    does not hold it raises. *)
Theorem history_keeps_the_last_n (feed : BarFeed) (symbol : string)
    (up_to : Z) (n : Z) (df : DataFrame) :
  feed !! symbol = Some df → 1 ≤ n →
  let past := mask_le up_to df in
  history feed symbol up_to (Some n)
  = Some (drop (length past - Z.to_nat n) past)
  ∧ length (drop (length past - Z.to_nat n) past)
    = Nat.min (Z.to_nat n) (length past)
  ∧ history feed symbol up_to None = Some past
  ∧ ∀ other, feed !! other = None → history feed other up_to (Some n) = None.
Proof.
  intros Hdf Hn. cbv zeta. unfold history. rewrite Hdf. simpl.
  rewrite (proj1 (iloc_last_pos n (mask_le up_to df) Hn)).
  split; [done|]. split; [rewrite length_drop; lia|]. split; [done|].
  by intros other ->.
Qed.

Lemma history_keeps_the_last_n_witness :
  history demo_feed "AAA" 3 (Some 2)
  = Some [Row.mk 2 100 100 97 98 1000; Row.mk 3 96 97 95 96 1000].
Proof.
  destruct (history_keeps_the_last_n demo_feed "AAA" 3 2
              [ Row.mk 1 100 101 99 100 1000; Row.mk 2 100 100 97 98 1000;
                Row.mk 3 96 97 95 96 1000 ]) as [H _].
  - vm_compute. reflexivity.
  - lia.
  - exact H.
Defined.

Section feed_iteration.
Implicit Types (feed : BarFeed) (df : DataFrame).

Lemma feed_index_elem feed ts :
  ts ∈ feed_index feed ↔
  ∃ symbol df r, feed !! symbol = Some df ∧ r ∈ df ∧ Row.index r = ts.
Proof.
  unfold feed_index.
  rewrite merge_sort_Permutation, elem_of_remove_dups, list_elem_of_join.
  split.
  - intros (l & Hts & Hl). apply list_elem_of_fmap in Hl as ([symbol df] & -> & Hin).
    apply elem_of_map_to_list in Hin. simpl in Hts.
    apply list_elem_of_fmap in Hts as (r & -> & Hr). by exists symbol, df, r.
  - intros (symbol & df & r & Hdf & Hr & <-). exists (Row.index <$> df). split.
    + by apply list_elem_of_fmap_2.
    + apply list_elem_of_fmap. exists (symbol, df). split; [done|].
      by apply elem_of_map_to_list.
Qed.

Lemma feed_index_sorted feed : StronglySorted Z.lt (feed_index feed).
Proof.
  assert (NoDup (feed_index feed)) as Hnd.
  { unfold feed_index. rewrite merge_sort_Permutation. apply NoDup_remove_dups. }
  assert (StronglySorted Z.le (feed_index feed)) as Hs.
  { unfold feed_index. apply (StronglySorted_merge_sort Z.le). }
  induction Hs as [|x l _ IH Hx]; [constructor|].
  apply NoDup_cons in Hnd as [Hnotin Hnd]. constructor; [by apply IH|].
  apply Forall_forall. intros y Hy.
  pose proof (proj1 (Forall_forall _ _) Hx y Hy).
  assert (x ≠ y) by (by intros ->). lia.
Qed.

Lemma loc_Some ts df r : loc ts df = Some r → r ∈ df ∧ Row.index r = ts.
Proof.
  unfold loc. intros [Hin Hts]%find_some.
  apply bool_decide_eq_true in Hts. split; [by apply list_elem_of_In|done].
Qed.

Lemma loc_is_Some ts df r : r ∈ df → Row.index r = ts → is_Some (loc ts df).
Proof.
  intros Hr Hts. unfold loc.
  destruct (List.find _ df) as [r'|] eqn:E; [done|].
  apply list_elem_of_In in Hr. apply (find_none _ _ E r) in Hr.
  by apply bool_decide_eq_false in Hr.
Qed.

Lemma events_at_lookup feed ts symbol :
  events_at feed ts !! symbol
  = df ← feed !! symbol; bar_of_row ts symbol <$> loc ts df.
Proof. unfold events_at. by rewrite map_lookup_imap. Qed.

Lemma events_at_non_empty feed ts : ts ∈ feed_index feed → events_at feed ts ≠ ∅.
Proof.
  intros (symbol & df & r & Hdf & Hr & Hts)%feed_index_elem Hempty.
  apply (f_equal (.!! symbol)) in Hempty.
  rewrite events_at_lookup, Hdf, lookup_empty in Hempty. simpl in Hempty.
  by destruct (loc_is_Some ts df r Hr Hts) as [r' Hr']; rewrite Hr' in Hempty.
Qed.

Lemma feed_iter_all feed :
  feed_iter feed = (λ ts, (ts, events_at feed ts)) <$> feed_index feed.
Proof.
  unfold feed_iter.
  assert (Forall (λ ts, events_at feed ts ≠ ∅) (feed_index feed)) as Hall.
  { apply Forall_forall. intros ts. apply events_at_non_empty. }
  induction Hall as [|ts l Hts _ IH]; [done|]. simpl in *.
  destruct (decide (events_at feed ts = ∅)); [done|]. by f_equal.
Qed.
End feed_iteration.

Lemma loc_unique ts df r :
  NoDup (Row.index <$> df) → r ∈ df → Row.index r = ts → loc ts df = Some r.
Proof.
  intros Hnd Hr Hts. unfold loc. induction df as [|r0 df IH]; simpl.
  { by apply elem_of_nil in Hr. }
  rewrite fmap_cons in Hnd. apply NoDup_cons in Hnd as [Hnotin Hnd].
  case_bool_decide as H0.
  - apply elem_of_cons in Hr as [->|Hr]; [done|].
    exfalso. apply Hnotin. apply list_elem_of_fmap. exists r.
    split; [congruence|done].
  - apply elem_of_cons in Hr as [->|Hr]; [congruence|]. by apply IH.
Qed.

Lemma omap_loc_Permutation (labels : list Z) (df : DataFrame) :
  NoDup labels → NoDup (Row.index <$> df) →
  (∀ r, r ∈ df → Row.index r ∈ labels) →
  omap (λ ts, loc ts df) labels ≡ₚ df.
Proof.
  intros Hl Hnd Hsub. apply NoDup_Permutation.
  - clear Hsub. induction Hl as [|ts labels Hnotin _ IH]; simpl;
      [constructor|].
    destruct (loc ts df) as [r|] eqn:Hr; [|done].
    constructor; [|done]. intros Hin. apply list_elem_of_omap in Hin
      as (ts' & Hts' & Hr').
    apply loc_Some in Hr as [_ <-]. apply loc_Some in Hr' as [_ <-].
    done.
  - by apply (NoDup_fmap_1 Row.index).
  - intros r. rewrite list_elem_of_omap. split.
    + intros (ts & _ & Hr). by apply loc_Some in Hr as [? _].
    + intros Hr. exists (Row.index r). split; [by apply Hsub|].
      by apply loc_unique.
Qed.

(** X3. A feed built from a dictionary with at least one frame and no
    label duplicated within a frame yields its timestamps in strictly
    ascending order, once each, and they are exactly the row labels that
    occur in some frame; the bars it yields for a symbol are the rows of
    the symbol's frame, each row once. *)
Theorem feed_yields_timestamps_ascending (feed : BarFeed) :
  feed_ok feed →
  StronglySorted Z.lt (feed_iter feed).*1
  ∧ (∀ ts, ts ∈ (feed_iter feed).*1 ↔
           ∃ symbol df r, feed !! symbol = Some df ∧ r ∈ df ∧ Row.index r = ts)
  ∧ ∀ symbol df,
      feed !! symbol = Some df →
      omap (λ bar, bar.2 !! symbol) (feed_iter feed)
      ≡ₚ (λ r, bar_of_row (Row.index r) symbol r) <$> df.
Proof.
  intros [_ Hok]. rewrite feed_iter_all, <-list_fmap_compose.
  assert (fst ∘ (λ ts, (ts, events_at feed ts)) <$> feed_index feed
          = feed_index feed) as -> by apply list_fmap_id.
  split; [apply feed_index_sorted|]. split; [intros ts; apply feed_index_elem|].
  intros symbol df Hdf.
  assert (omap (λ bar, bar.2 !! symbol)
               ((λ ts, (ts, events_at feed ts)) <$> feed_index feed)
          = (λ r, bar_of_row (Row.index r) symbol r)
              <$> omap (λ ts, loc ts df) (feed_index feed)) as ->.
  { induction (feed_index feed) as [|ts labels IH]; [done|].
    rewrite fmap_cons. cbn [omap list_omap]. cbn [snd].
    rewrite events_at_lookup, Hdf. cbn [mbind option_bind].
    destruct (loc ts df) as [r|] eqn:Hr; cbn [fmap option_fmap option_map].
    - rewrite fmap_cons. apply loc_Some in Hr as [_ ->]. f_equal. exact IH.
    - exact IH. }
  apply fmap_Permutation, omap_loc_Permutation.
  - assert (StronglySorted Z.lt (feed_index feed)) as Hs
      by apply feed_index_sorted.
    clear -Hs. induction Hs as [|ts labels _ IH Hlt]; constructor; [|done].
    intros Hin. eapply Forall_forall in Hlt; [|exact Hin]. lia.
  - by apply (Hok symbol df).
  - intros r Hr. apply feed_index_elem. by exists symbol, df, r.
Qed.

Lemma feed_yields_timestamps_ascending_witness :
  feed_ok sparse_feed ∧ StronglySorted Z.lt (feed_iter sparse_feed).*1.
Proof.
  assert (feed_ok sparse_feed) as Hok.
  { apply (bool_decide_unpack _). by vm_compute. }
  split; [exact Hok|].
  exact (proj1 (feed_yields_timestamps_ascending sparse_feed Hok)).
Defined.

(** X4. Every pair [(ts, events)] the feed yields has at least one bar, and
    [events] holds a bar for a symbol exactly when the symbol's frame has a
    row labelled [ts]; the bar is stamped [ts], carries the symbol, and has
    the open, high, low, close and volume of such a row. *)
Theorem feed_yields_the_rows_of_the_timestamp (feed : BarFeed) (ts : Z)
    (events : gmap string MarketEvent.t) :
  (ts, events) ∈ feed_iter feed →
  events ≠ ∅
  ∧ (∀ symbol bar,
       events !! symbol = Some bar →
       MarketEvent.timestamp bar = ts ∧ MarketEvent.symbol bar = symbol
       ∧ ∃ df r, feed !! symbol = Some df ∧ r ∈ df ∧ Row.index r = ts
                 ∧ bar = bar_of_row ts symbol r)
  ∧ (∀ symbol df r,
       feed !! symbol = Some df → r ∈ df → Row.index r = ts →
       is_Some (events !! symbol)).
Proof.
  rewrite feed_iter_all. intros (ts' & [= <- ->] & Hts)%list_elem_of_fmap.
  split; [by apply events_at_non_empty|]. split.
  - intros symbol bar. rewrite events_at_lookup.
    destruct (feed !! symbol) as [df|]; simpl; [|done].
    destruct (loc ts df) as [r|] eqn:Hloc; simpl; [|done]. intros [= <-].
    apply loc_Some in Hloc as [Hr Hidx]. split; [done|]. split; [done|].
    by exists df, r.
  - intros symbol df r Hdf Hr Hidx. rewrite events_at_lookup, Hdf. simpl.
    destruct (loc_is_Some ts df r Hr Hidx) as [r' ->]. by eexists.
Qed.

Lemma feed_yields_the_rows_of_the_timestamp_witness :
  ∃ events,
    (3, events) ∈ feed_iter sparse_feed
    ∧ events ≠ ∅
    ∧ is_Some (events !! "BBB"%string).
Proof.
  exists (events_at sparse_feed 3).
  assert ((3, events_at sparse_feed 3) ∈ feed_iter sparse_feed) as Hin.
  { apply list_elem_of_In. vm_compute. tauto. }
  destruct (feed_yields_the_rows_of_the_timestamp _ _ _ Hin)
    as (Hne & _ & Hcomplete).
  split; [exact Hin|]. split; [exact Hne|].
  apply (Hcomplete "BBB"%string [Row.mk 3 100 101 99 100 1000]
           (Row.mk 3 100 101 99 100 1000)).
  - vm_compute. reflexivity.
  - left.
  - reflexivity.
Defined.

(** ** The risk manager *)

Section q_facts.
Implicit Types (a b x y : Q).

Lemma Qltb_lt a b : Qltb a b = true ↔ (a < b)%Q.
Proof.
  unfold Qltb. rewrite negb_true_iff. split.
  - intros H. apply Qnot_le_lt. intros Hle%Qle_bool_iff. congruence.
  - intros H. destruct (Qle_bool b a) eqn:E; [|done].
    apply Qle_bool_iff in E. by apply Qlt_not_le in H.
Qed.

Lemma Qltb_ge a b : Qltb a b = false ↔ (b <= a)%Q.
Proof.
  unfold Qltb. rewrite negb_false_iff. apply Qle_bool_iff.
Qed.

Lemma Qleb_le a b : Qleb a b = true ↔ (a <= b)%Q.
Proof. apply Qle_bool_iff. Qed.

Lemma Qleb_gt a b : Qleb a b = false ↔ (b < a)%Q.
Proof.
  split.
  - intros H. apply Qnot_le_lt. intros Hle%Qle_bool_iff. unfold Qleb in H.
    congruence.
  - intros H. unfold Qleb. destruct (Qle_bool a b) eqn:E; [|done].
    apply Qle_bool_iff in E. by apply Qlt_not_le in H.
Qed.

Lemma Qeqb_eq a b : Qeqb a b = true ↔ (a == b)%Q.
Proof. apply Qeq_bool_iff. Qed.

Lemma Qeqb_neq a b : Qeqb a b = false ↔ ¬ (a == b)%Q.
Proof.
  unfold Qeqb. split.
  - intros H Heq%Qeq_bool_iff. congruence.
  - intros H. destruct (Qeq_bool a b) eqn:E; [|done].
    by apply Qeq_bool_iff in E.
Qed.

Lemma py_max_ge_l a b : (a <= py_max a b)%Q.
Proof.
  unfold py_max. destruct (Qltb a b) eqn:E; [|apply Qle_refl].
  apply Qltb_lt in E. by apply Qlt_le_weak.
Qed.

Lemma py_max_ge_r a b : (b <= py_max a b)%Q.
Proof.
  unfold py_max. destruct (Qltb a b) eqn:E; [apply Qle_refl|].
  by apply Qltb_ge in E.
Qed.

Lemma py_min_le_l a b : (py_min a b <= a)%Q.
Proof.
  unfold py_min. destruct (Qltb b a) eqn:E; [|apply Qle_refl].
  apply Qltb_lt in E. by apply Qlt_le_weak.
Qed.

Lemma py_min_le_r a b : (py_min a b <= b)%Q.
Proof.
  unfold py_min. destruct (Qltb b a) eqn:E; [apply Qle_refl|].
  by apply Qltb_ge in E.
Qed.

Lemma np_floor_le x : (np_floor x <= x)%Q.
Proof. apply Qfloor_le. Qed.

Lemma fold_left_Qplus_nonneg (l : list Q) a :
  (0 <= a)%Q → Forall (λ x, 0 <= x)%Q l → (0 <= fold_left Qplus l a)%Q.
Proof.
  intros Ha Hl. revert a Ha. induction Hl as [|x l Hx _ IH]; intros a Ha;
    simpl; [done|].
  apply IH. rewrite <-(Qplus_0_r 0). by apply Qplus_le_compat.
Qed.

(** [q <= n / d] with [d > 0] gives [q * d <= n]. *)
Lemma Qle_div_mult q n d : (0 < d)%Q → (q <= n / d)%Q → (q * d <= n)%Q.
Proof.
  intros Hd Hq. apply (Qle_trans _ (n / d * d)).
  - by apply Qmult_le_r.
  - apply Qle_lteq. right. field. intros H0. rewrite H0 in Hd.
    by apply Qlt_irrefl in Hd.
Qed.
End q_facts.

Lemma true_ranges_nonneg (df : DataFrame) :
  Forall (λ x, 0 <= x)%Q (true_ranges df).
Proof.
  induction df as [|p [|r df] IH]; [constructor..|].
  rewrite true_ranges_cons2. constructor; [|exact IH].
  unfold tr_row. eapply Qle_trans; [|apply py_max_ge_r]. apply Qabs_nonneg.
Qed.

(** X5. The average true range is never negative: whenever [compute_atr]
    returns a number and not [NaN], the number is at least 0. *)
Theorem compute_atr_is_never_negative (df : DataFrame) (period : Z) (a : Q) :
  compute_atr df period = Some a → (0 <= a)%Q.
Proof.
  unfold compute_atr. destruct (_ <? _); [done|].
  pose proof (true_ranges_nonneg df) as Hall.
  assert (Forall (λ x, 0 <= x)%Q (iloc_last period (true_ranges df))) as Hw.
  { apply Forall_forall. intros x Hx.
    apply (proj1 (Forall_forall _ _) Hall).
    eapply elem_of_sublist; [exact Hx|]. apply sublist_drop. }
  unfold np_mean. destruct (iloc_last period (true_ranges df)) as [|x l] eqn:E;
    [done|].
  intros [= <-]. unfold Qdiv. apply Qmult_le_0_compat.
  - apply (fold_left_Qplus_nonneg (x :: l) 0); [apply Qle_refl|exact Hw].
  - apply Qinv_le_0_compat. unfold Qle. simpl. lia.
Qed.

Lemma compute_atr_is_never_negative_witness :
  ∃ a, compute_atr (default [] (demo_feed !! "AAA"%string)) 2 = Some a
       ∧ (0 <= a)%Q.
Proof.
  assert (∃ a, compute_atr (default [] (demo_feed !! "AAA"%string)) 2 = Some a)
    as [a Ha] by (eexists; vm_compute; reflexivity).
  exists a. split; [exact Ha|].
  exact (compute_atr_is_never_negative _ _ _ Ha).
Defined.

(** X6. [ATRPositionSizer.size] returns a whole, non-negative number of
    shares.  A positive size is returned only for a positive ATR and a
    positive price; its value at that price does not exceed
    [max_position_pct] of the equity and, for a positive ATR multiplier,
    the size times the stop distance does not exceed the risk budget
    [equity * risk_pct * signal_strength]. *)
Theorem atr_sizer_respects_its_limits
    (risk_pct : Q) (atr_period : Z) (atr_multiplier max_position_pct : Q)
    (equity price : Q) (atr : option Q) (signal_strength q : Q) :
  size (ATRPositionSizer risk_pct atr_period atr_multiplier max_position_pct)
       equity price atr signal_strength = Some q →
  (0 <= q)%Q
  ∧ (∃ k : Z, q = inject_Z k)
  ∧ ((0 < q)%Q →
     ∃ a, atr = Some a ∧ (0 < a)%Q ∧ (0 < price)%Q
          ∧ (q * price <= equity * max_position_pct)%Q
          ∧ ((0 < atr_multiplier)%Q →
             (q * (a * atr_multiplier)
              <= equity * risk_pct * signal_strength)%Q)).
Proof.
  unfold size. destruct atr as [a|].
  2:{ intros [= <-]. split; [done|]. split; [by exists 0|].
      by intros ?%Qlt_irrefl. }
  destruct (Qleb a 0 || Qleb price 0) eqn:Hguard.
  { intros [= <-]. split; [done|]. split; [by exists 0|].
    by intros ?%Qlt_irrefl. }
  apply orb_false_iff in Hguard as [Ha%Qleb_gt Hp%Qleb_gt].
  destruct (Qeqb (a * atr_multiplier) 0) eqn:Hstop; [done|].
  intros [= <-].
  set (raw := (equity * risk_pct * signal_strength / (a * atr_multiplier))%Q).
  set (cap := (equity * max_position_pct / price)%Q).
  split; [apply py_max_ge_l|]. split.
  { unfold py_max. destruct (Qltb 0 _); [by eexists|by exists 0]. }
  intros Hq. exists a. split; [done|]. split; [done|]. split; [done|].
  assert (py_max 0 (np_floor (py_min raw cap)) = np_floor (py_min raw cap))
    as Hfloor.
  { unfold py_max in *. destruct (Qltb 0 _); [done|].
    by apply Qlt_irrefl in Hq. }
  rewrite Hfloor. split.
  - apply Qle_div_mult; [done|].
    eapply Qle_trans; [apply np_floor_le|]. apply py_min_le_r.
  - intros Hmult. apply Qle_div_mult.
    + rewrite <-(Qmult_0_l atr_multiplier). by apply Qmult_lt_compat_r.
    + eapply Qle_trans; [apply np_floor_le|]. apply py_min_le_l.
Qed.

Lemma atr_sizer_respects_its_limits_witness :
  ∃ q, size (ATRPositionSizer (1 # 100) 14 2 (20 # 100)) 100000 100 (Some 3%Q) 1
       = Some q
       ∧ (0 <= q)%Q ∧ ∃ k : Z, q = inject_Z k.
Proof.
  assert (∃ q, size (ATRPositionSizer (1 # 100) 14 2 (20 # 100)) 100000 100
                    (Some 3%Q) 1 = Some q) as [q Hq]
    by (eexists; vm_compute; reflexivity).
  exists q. split; [exact Hq|].
  destruct (atr_sizer_respects_its_limits _ _ _ _ _ _ _ _ _ Hq)
    as (Hpos & Hint & _).
  split; [exact Hpos|exact Hint].
Defined.

(** X7. [FixedFractionSizer.size] always returns a whole, non-negative
    number of shares; a positive size is returned only for a positive price,
    and its value at that price does not exceed
    [equity * fraction * signal_strength]. *)
Theorem fixed_fraction_sizer_respects_its_budget
    (fraction equity price : Q) (atr : option Q) (signal_strength : Q) :
  ∃ q, size (FixedFractionSizer fraction) equity price atr signal_strength
       = Some q
       ∧ (0 <= q)%Q
       ∧ (∃ k : Z, q = inject_Z k)
       ∧ ((0 < q)%Q →
          (0 < price)%Q
          ∧ (q * price <= equity * fraction * signal_strength)%Q).
Proof.
  unfold size. destruct (Qleb price 0) eqn:Hp.
  { exists 0%Q. split; [done|]. split; [done|]. split; [by exists 0|].
    by intros ?%Qlt_irrefl. }
  apply Qleb_gt in Hp. eexists. split; [done|].
  split; [apply py_max_ge_l|]. split.
  { unfold py_max. destruct (Qltb 0 _); [by eexists|by exists 0]. }
  intros Hq. split; [done|].
  assert (py_max 0 (np_floor (equity * fraction * signal_strength / price))
          = np_floor (equity * fraction * signal_strength / price)) as ->.
  { unfold py_max in *. destruct (Qltb 0 _); [done|].
    by apply Qlt_irrefl in Hq. }
  apply Qle_div_mult; [done|]. apply np_floor_le.
Qed.

Lemma signal_orders_answer rm market_events feed equity open_positions sig c os
    c' :
  signal_orders rm market_events feed equity open_positions sig c
  = Some (os, c') →
  (os = [] ∧ c' = c)
  ∨ ∃ o, os = [o] ∧ c' = (c + 1)%N
         ∧ OrderEvent.order_id o = (_next_id c).1
         ∧ order_answers rm open_positions sig o.
Proof.
  unfold signal_orders, new_order, order_answers.
  destruct (market_events !! SignalEvent.symbol sig) as [bar|];
    [|intros [= <- <-]; by left].
  destruct (history _ _ _ _) as [hist|]; simpl; [|done].
  destruct (SignalEvent.direction sig).
  - destruct (Qltb 0 _) eqn:Hheld; [intros [= <- <-]; by left|].
    apply Qltb_ge in Hheld.
    destruct (negb _ && _); [intros [= <- <-]; by left|].
    destruct (size _ _ _ _ _) as [qty|]; simpl; [|done].
    destruct (Qleb qty 0) eqn:Hqty; [intros [= <- <-]; by left|].
    apply Qleb_gt in Hqty. intros [= <- <-]. right. eexists.
    split; [done|]. simpl. by repeat split.
  - destruct (RiskManager.allow_short rm) eqn:Hshort;
      [|intros [= <- <-]; by left].
    destruct (Qltb _ 0) eqn:Hheld; [intros [= <- <-]; by left|].
    apply Qltb_ge in Hheld.
    destruct (size _ _ _ _ _) as [qty|]; simpl; [|done].
    destruct (Qleb qty 0) eqn:Hqty; [intros [= <- <-]; by left|].
    apply Qleb_gt in Hqty. intros [= <- <-]. right. eexists.
    split; [done|]. simpl. by repeat split.
  - destruct (Qltb 0 _) eqn:Hlong.
    + apply Qltb_lt in Hlong. intros [= <- <-]. right. eexists.
      split; [done|]. simpl. repeat split; try done. by left.
    + destruct (Qltb _ 0) eqn:Hneg; simpl.
      * apply Qltb_lt in Hneg.
        destruct (RiskManager.allow_short rm) eqn:Hshort;
          [|intros [= <- <-]; by left].
        intros [= <- <-]. right. eexists. split; [done|]. simpl.
        repeat split; try done; [|by right].
        apply Qabs_case; intros H; [|by apply (Qopp_lt_compat _ 0)].
        exfalso. by apply Qle_not_lt in H.
      * intros [= <- <-]. by left.
Qed.

Lemma ids_from_app c a b :
  ids_from c (a + b) = ids_from c a ++ ids_from (c + N.of_nat a) b.
Proof.
  unfold ids_from. rewrite seq_app, fmap_app. f_equal.
  replace (0 + a)%nat with (a + 0)%nat by lia.
  rewrite <-(fmap_add_seq a 0 b), <-list_fmap_compose.
  apply list_fmap_ext. intros i x _. simpl. do 2 f_equal. lia.
Qed.

Lemma NoDup_ids_from c n : NoDup (ids_from c n).
Proof.
  unfold ids_from. apply NoDup_fmap_2_strong; [|apply NoDup_seq].
  intros i j _ _ H. apply _next_id_inj in H. lia.
Qed.

(** The ids given to the orders of one call, read off the counter. *)
Lemma process_signals_ids rm signals market_events feed equity open_positions
    c os c' :
  process_signals rm signals market_events feed equity open_positions c
  = Some (os, c') →
  OrderEvent.order_id <$> os = ids_from c (length os)
  ∧ c' = (c + N.of_nat (length os))%N.
Proof.
  revert c os c'. induction signals as [|sig signals IH]; intros c os c'; simpl.
  - intros [= <- <-]. split; [done|]. simpl. lia.
  - destruct (signal_orders _ _ _ _ _ _ _) as [[os1 c1]|] eqn:E1; simpl;
      [|done].
    destruct (process_signals _ _ _ _ _ _ _) as [[os2 c2]|] eqn:E2; simpl;
      [|done].
    intros [= <- <-]. apply IH in E2 as [Hids ->].
    apply signal_orders_answer in E1 as [[-> ->]|(o & -> & -> & Hid & _)].
    + done.
    + change ([o] ++ os2) with (o :: os2). simpl length.
      change (S (length os2)) with (1 + length os2)%nat.
      rewrite ids_from_app, fmap_cons, Hids. split; [|lia].
      rewrite Hid. unfold ids_from at 1. simpl. by rewrite N.add_0_r.
Qed.

Lemma check_stop_conditions_ids details market_events c :
  OrderEvent.order_id <$> (check_stop_conditions details market_events c).1
  = ids_from c (length (check_stop_conditions details market_events c).1)
  ∧ (check_stop_conditions details market_events c).2
    = (c + N.of_nat (length (check_stop_conditions details market_events c).1))%N.
Proof.
  revert c. induction details as [|[symbol pos] details IH]; intros c; simpl.
  - split; [done|]. lia.
  - assert ((stop_order market_events symbol pos c = ([], c))
            ∨ ∃ o, stop_order market_events symbol pos c = ([o], (c + 1)%N)
                   ∧ OrderEvent.order_id o = (_next_id c).1) as Hstop.
    { unfold stop_order, new_order.
      destruct (market_events !! symbol); [|by left].
      destruct (Qeqb _ 0); [by left|]. destruct (Qltb 0 _); [|by left].
      destruct (truthy _ && _); [right; by eexists|].
      destruct (truthy _ && _); [right; by eexists|by left]. }
    destruct Hstop as [->|(o & -> & Hid)].
    + specialize (IH c). by destruct (check_stop_conditions _ _ c).
    + specialize (IH (c + 1)%N).
      destruct (check_stop_conditions _ _ (c + 1)%N) as [os c'].
      cbn [fst snd] in *. destruct IH as [Hids ->].
      change ([o] ++ os) with (o :: os). simpl length.
      change (S (length os)) with (1 + length os)%nat.
      rewrite ids_from_app, fmap_cons, Hids. split; [|lia].
      rewrite Hid. unfold ids_from at 1. simpl. by rewrite N.add_0_r.
Qed.

(** X8. Every order that [process_signals] returns is a pending market
    order without limit price, for a positive quantity, on a symbol that has
    a bar in the current step; it takes timestamp and symbol from one of the
    signals, buys for a LONG signal on a symbol that is not held long, sells
    (if shorting is allowed) for a SHORT signal, and for a FLAT signal sells
    exactly the long quantity held or (if shorting is allowed) buys back
    exactly the short quantity held.  There are at most as many orders as
    signals. *)
Theorem process_signals_orders_answer_signals (rm : RiskManager.t)
    (signals : list SignalEvent.t)
    (market_events : gmap string MarketEvent.t) (feed : BarFeed) (equity : Q)
    (open_positions : list (string * Q)) (c : N)
    (os : list OrderEvent.t) (c' : N) :
  process_signals rm signals market_events feed equity open_positions c
  = Some (os, c') →
  Forall (λ o, is_Some (market_events !! OrderEvent.symbol o)
               ∧ ∃ sig, sig ∈ signals
                        ∧ order_answers rm open_positions sig o) os
  ∧ (length os ≤ length signals)%nat.
Proof.
  intros Hps.
  pose proof (process_signals_market _ _ _ _ _ _ _ _ _ Hps) as Hmarket.
  revert c os c' Hps Hmarket.
  induction signals as [|sig signals IH]; intros c os c'; simpl.
  - intros [= <- <-] _. split; [constructor|done].
  - destruct (signal_orders _ _ _ _ _ _ _) as [[os1 c1]|] eqn:E1; simpl;
      [|done].
    destruct (process_signals _ _ _ _ _ _ _) as [[os2 c2]|] eqn:E2; simpl;
      [|done].
    intros [= <- <-] [Hm1 Hm2]%Forall_app.
    destruct (IH _ _ _ E2 Hm2) as [Hall Hlen].
    assert (Forall (λ o, is_Some (market_events !! OrderEvent.symbol o)
                         ∧ ∃ sig0, sig0 ∈ sig :: signals
                                   ∧ order_answers rm open_positions sig0 o)
                   os2) as Hall'.
    { eapply Forall_impl; [exact Hall|]. intros o (Hbar & sig0 & Hin & Ho).
      split; [done|]. exists sig0. split; [by right|done]. }
    apply signal_orders_answer in E1 as [[-> ->]|(o & -> & -> & _ & Ho)].
    + split; [done|]. simpl. lia.
    + split; [|simpl; lia]. constructor; [|done].
      apply Forall_cons in Hm1 as [[_ Hbar] _]. split; [done|].
      exists sig. split; [left|done].
Qed.

Lemma process_signals_orders_answer_signals_witness :
  ∃ o, process_signals risk_with_shorts [long_signal] (events_at demo_feed 1)
                       demo_feed 100000 capped_book 0 = Some ([o], 1%N)
       ∧ order_answers risk_with_shorts capped_book long_signal o.
Proof.
  assert (∃ o, process_signals risk_with_shorts [long_signal]
                 (events_at demo_feed 1) demo_feed 100000 capped_book 0
               = Some ([o], 1%N)) as [o Ho]
    by (eexists; vm_compute; reflexivity).
  exists o. split; [exact Ho|].
  destruct (process_signals_orders_answer_signals _ _ _ _ _ _ _ _ _ Ho)
    as [Hall _].
  apply Forall_cons in Hall as [(_ & sig & Hin & Hsig) _].
  apply list_elem_of_singleton in Hin. by subst sig.
Defined.

Lemma stop_order_cases market_events symbol pos c :
  stop_order market_events symbol pos c = ([], c)
  ∨ ∃ o bar,
      stop_order market_events symbol pos c = ([o], (c + 1)%N)
      ∧ o = OrderEvent.mk (MarketEvent.timestamp bar) symbol MARKET SELL
              (Detail.qty pos) None None None (_next_id c).1 PENDING
      ∧ market_events !! symbol = Some bar
      ∧ (0 < Detail.qty pos)%Q
      ∧ ((∃ sl, Detail.stop_loss pos = Some sl ∧ ¬ (sl == 0)%Q
                ∧ (MarketEvent.low bar <= sl)%Q)
         ∨ (∃ tp, Detail.take_profit pos = Some tp ∧ ¬ (tp == 0)%Q
                  ∧ (tp <= MarketEvent.high bar)%Q)).
Proof.
  unfold stop_order, new_order.
  destruct (market_events !! symbol) as [bar|]; [|by left].
  destruct (Qeqb _ 0); [by left|].
  destruct (Qltb 0 _) eqn:Hqty; [|by left]. apply Qltb_lt in Hqty.
  destruct (truthy (Detail.stop_loss pos) && _) eqn:Hsl.
  { right. exists (OrderEvent.mk (MarketEvent.timestamp bar) symbol MARKET SELL
                     (Detail.qty pos) None None None (_next_id c).1 PENDING),
                  bar.
    split; [done|]. split; [done|]. split; [done|]. split; [done|]. left.
    apply andb_true_iff in Hsl as [Ht Hle].
    destruct (Detail.stop_loss pos) as [sl|]; [|by cbn in Ht]. cbn [truthy from_option] in Ht, Hle.
    exists sl. split; [done|]. apply negb_true_iff, Qeqb_neq in Ht.
    by apply Qleb_le in Hle. }
  destruct (truthy (Detail.take_profit pos) && _) eqn:Htp; [|by left].
  right. exists (OrderEvent.mk (MarketEvent.timestamp bar) symbol MARKET SELL
                   (Detail.qty pos) None None None (_next_id c).1 PENDING),
                bar.
  split; [done|]. split; [done|]. split; [done|]. split; [done|]. right.
  apply andb_true_iff in Htp as [Ht Hle].
  destruct (Detail.take_profit pos) as [tp|]; [|by cbn in Ht]. cbn [truthy from_option] in Ht, Hle.
  exists tp. split; [done|]. apply negb_true_iff, Qeqb_neq in Ht.
  by apply Qleb_le in Hle.
Qed.

(** X9. [check_stop_conditions] emits at most one order per position, and
    every order it emits is a pending market SELL, stamped with the bar, for
    the full quantity of a long position whose symbol has a bar and whose
    stop-loss (not [None], not 0) is at or above the bar's low, or whose
    take-profit (not [None], not 0) is at or below the bar's high.  Short
    positions and positions without a bar never produce an order. *)
Theorem stop_sweep_sells_triggered_longs
    (details : list (string * Detail.t))
    (market_events : gmap string MarketEvent.t) (c : N) :
  Forall (λ o,
            OrderEvent.order_type o = MARKET ∧ OrderEvent.side o = SELL
            ∧ OrderEvent.status o = PENDING
            ∧ ∃ pos bar,
                (OrderEvent.symbol o, pos) ∈ details
                ∧ market_events !! OrderEvent.symbol o = Some bar
                ∧ OrderEvent.timestamp o = MarketEvent.timestamp bar
                ∧ OrderEvent.quantity o = Detail.qty pos
                ∧ (0 < Detail.qty pos)%Q
                ∧ ((∃ sl, Detail.stop_loss pos = Some sl ∧ ¬ (sl == 0)%Q
                          ∧ (MarketEvent.low bar <= sl)%Q)
                   ∨ (∃ tp, Detail.take_profit pos = Some tp ∧ ¬ (tp == 0)%Q
                            ∧ (tp <= MarketEvent.high bar)%Q)))
         (check_stop_conditions details market_events c).1
  ∧ (length (check_stop_conditions details market_events c).1
     ≤ length details)%nat.
Proof.
  revert c. induction details as [|[symbol pos] details IH]; intros c.
  - split; [constructor|done].
  - cbn [check_stop_conditions].
    destruct (stop_order_cases market_events symbol pos c)
      as [->|(o & bar & -> & -> & Hbar & Hqty & Htrig)].
    + destruct (IH c) as [Hall Hlen].
      destruct (check_stop_conditions details market_events c) as [os c'].
      simpl in *. split; [|lia].
      eapply Forall_impl; [exact Hall|].
      intros o (? & ? & ? & pos0 & bar & Hin & ?). repeat split; try done.
      exists pos0, bar. split; [by right|done].
    + destruct (IH (c + 1)%N) as [Hall Hlen].
      destruct (check_stop_conditions details market_events (c + 1))
        as [os c'].
      simpl in *. split; [|lia]. constructor.
      * repeat split; try done. exists pos, bar. simpl.
        split; [left|done].
      * eapply Forall_impl; [exact Hall|].
        intros o (? & ? & ? & pos0 & bar0 & Hin & ?). repeat split; try done.
        exists pos0, bar0. split; [by right|done].
Qed.

Lemma dict_set_elem {V} (k : string) (v : V) (d : list (string * V)) :
  (k, v) ∈ dict_set k v d.
Proof.
  induction d as [|[k' v'] d IH]; simpl; [left|].
  case_bool_decide; [left|by right].
Qed.

Lemma check_stop_conditions_emits details market_events symbol pos bar c :
  (symbol, pos) ∈ details →
  market_events !! symbol = Some bar →
  (0 < Detail.qty pos)%Q →
  (∃ sl, Detail.stop_loss pos = Some sl ∧ ¬ (sl == 0)%Q
         ∧ (MarketEvent.low bar <= sl)%Q) →
  ∃ o, o ∈ (check_stop_conditions details market_events c).1
       ∧ OrderEvent.symbol o = symbol ∧ OrderEvent.side o = SELL
       ∧ OrderEvent.order_type o = MARKET
       ∧ OrderEvent.quantity o = Detail.qty pos
       ∧ OrderEvent.timestamp o = MarketEvent.timestamp bar.
Proof.
  intros Hin Hbar Hqty (sl & Hsl & Hnz & Hlow). revert c.
  induction details as [|[symbol' pos'] details IH]; intros c;
    [by apply elem_of_nil in Hin|].
  cbn [check_stop_conditions]. apply elem_of_cons in Hin as [[= <- <-]|Hin].
  - unfold stop_order, new_order. rewrite Hbar, Hsl. simpl.
    rewrite (proj2 (Qeqb_neq _ _)).
    2:{ intros H0. rewrite H0 in Hqty. by apply Qlt_irrefl in Hqty. }
    rewrite (proj2 (Qltb_lt _ _) Hqty), (proj2 (Qeqb_neq _ _) Hnz). simpl.
    rewrite (proj2 (Qleb_le _ _) Hlow).
    destruct (check_stop_conditions details market_events (c + 1))
      as [os c'].
    eexists. split; [left|]. done.
  - destruct (stop_order market_events symbol' pos' c) as [os1 c1].
    destruct (IH Hin c1) as (o & Ho & Hprops).
    destruct (check_stop_conditions details market_events c1) as [os c'].
    exists o. split; [|done]. simpl in *. apply elem_of_app. by right.
Qed.

(** X10. [attach_stop_tp] on a symbol without a position leaves the
    portfolio as it is.  On a held long position it stores the levels: the
    next stop sweep over a bar whose low is at or below a stored (non-zero)
    stop-loss emits a market SELL for the full quantity of the position. *)
Theorem attached_stop_triggers_the_sweep (pf : Portfolio.t)
    (order_id symbol : string) (sl : Q) (tp : option Q)
    (market_events : gmap string MarketEvent.t) (c : N) :
  (dict_get symbol (Portfolio._positions pf) = None →
   attach_stop_tp pf order_id symbol (Some sl) tp = pf)
  ∧ (∀ pos bar,
       dict_get symbol (Portfolio._positions pf) = Some pos →
       (0 < Position.quantity pos)%Q → ¬ (sl == 0)%Q →
       market_events !! symbol = Some bar →
       (MarketEvent.low bar <= sl)%Q →
       ∃ o, o ∈ (check_stop_conditions
                   (open_positions_detail
                      (attach_stop_tp pf order_id symbol (Some sl) tp))
                   market_events c).1
            ∧ OrderEvent.symbol o = symbol ∧ OrderEvent.side o = SELL
            ∧ OrderEvent.order_type o = MARKET
            ∧ OrderEvent.quantity o = Position.quantity pos
            ∧ OrderEvent.timestamp o = MarketEvent.timestamp bar).
Proof.
  split.
  - intros Hnone. unfold attach_stop_tp. by rewrite Hnone.
  - intros pos bar Hpos Hqty Hnz Hbar Hlow.
    apply (check_stop_conditions_emits _ _ symbol
             (Detail.mk (Position.quantity pos) (Position.avg_entry pos)
                (Some sl) tp) bar); try done.
    + unfold attach_stop_tp, open_positions_detail. rewrite Hpos. simpl.
      apply list_elem_of_fmap.
      exists (symbol, Position.mk (Position.symbol pos) (Position.quantity pos)
                        (Position.avg_entry pos) (Some sl) tp
                        (Position.realized_pnl pos)).
      split; [done|]. apply dict_set_elem.
    + by exists sl.
Qed.

(** X11. [_try_fill] fills a MARKET order at the open.  A LIMIT order fills
    exactly when the bar trades through its limit, at the limit or at the
    open, whichever is better for the order: a BUY fills when
    [low <= limit], at [min(limit, open)], a SELL when [limit <= high], at
    [max(limit, open)]; otherwise there is no fill.  A LIMIT order without
    a limit price raises. *)
Theorem limit_fill_is_never_worse_than_the_limit (order : OrderEvent.t)
    (bar : MarketEvent.t) :
  (OrderEvent.order_type order = MARKET →
   _try_fill order bar = Some (Some (MarketEvent.open bar)))
  ∧ (OrderEvent.order_type order = LIMIT →
     OrderEvent.limit_price order = None → _try_fill order bar = None)
  ∧ (OrderEvent.order_type order = LIMIT →
     ∀ lp, OrderEvent.limit_price order = Some lp →
       match OrderEvent.side order with
       | BUY =>
           ((MarketEvent.low bar <= lp)%Q →
            ∃ price, _try_fill order bar = Some (Some price)
                     ∧ (price == Qmin lp (MarketEvent.open bar))%Q
                     ∧ (price = lp ∨ price = MarketEvent.open bar)
                     ∧ (price <= lp)%Q ∧ (price <= MarketEvent.open bar)%Q)
           ∧ ((lp < MarketEvent.low bar)%Q → _try_fill order bar = Some None)
       | SELL =>
           ((lp <= MarketEvent.high bar)%Q →
            ∃ price, _try_fill order bar = Some (Some price)
                     ∧ (price == Qmax lp (MarketEvent.open bar))%Q
                     ∧ (price = lp ∨ price = MarketEvent.open bar)
                     ∧ (lp <= price)%Q ∧ (MarketEvent.open bar <= price)%Q)
           ∧ ((MarketEvent.high bar < lp)%Q → _try_fill order bar = Some None)
       end).
Proof.
  unfold _try_fill. split; [by intros ->|]. split; [by intros -> ->|].
  intros -> lp ->. simpl. destruct (OrderEvent.side order).
  - split.
    + intros Hlow. rewrite (proj2 (Qleb_le _ _) Hlow).
      eexists. split; [done|]. unfold py_min.
      destruct (Qltb (MarketEvent.open bar) lp) eqn:Hlt.
      * apply Qltb_lt in Hlt. split; [|split; [by right|lra]].
        destruct (Q.min_spec lp (MarketEvent.open bar)) as [[? ->]|[? ->]];
          lra.
      * apply Qltb_ge in Hlt. split; [|split; [by left|lra]].
        destruct (Q.min_spec lp (MarketEvent.open bar)) as [[? ->]|[? ->]];
          lra.
    + intros Hlow. by rewrite (proj2 (Qleb_gt _ _) Hlow).
  - split.
    + intros Hhigh. rewrite (proj2 (Qleb_le _ _) Hhigh).
      eexists. split; [done|]. unfold py_max.
      destruct (Qltb lp (MarketEvent.open bar)) eqn:Hlt.
      * apply Qltb_lt in Hlt. split; [|split; [by right|lra]].
        destruct (Q.max_spec lp (MarketEvent.open bar)) as [[? ->]|[? ->]];
          lra.
      * apply Qltb_ge in Hlt. split; [|split; [by left|lra]].
        destruct (Q.max_spec lp (MarketEvent.open bar)) as [[? ->]|[? ->]];
          lra.
    + intros Hhigh. by rewrite (proj2 (Qleb_gt _ _) Hhigh).
Qed.

Lemma limit_fill_is_never_worse_than_the_limit_witness :
  ∃ price,
    _try_fill (OrderEvent.mk 1 "AAA" LIMIT BUY 10 (Some 99%Q) None None
                 "ORD-000001" PENDING)
              (MarketEvent.mk 1 "AAA" 100 101 98 100 1000)
    = Some (Some price)
    ∧ (price == Qmin 99 100)%Q.
Proof.
  destruct (proj1
              (proj2 (proj2 (limit_fill_is_never_worse_than_the_limit
                               (OrderEvent.mk 1 "AAA" LIMIT BUY 10 (Some 99%Q)
                                  None None "ORD-000001" PENDING)
                               (MarketEvent.mk 1 "AAA" 100 101 98 100 1000)))
                     eq_refl 99%Q eq_refl))
    as (price & Hfill & Hmin & _); [by vm_compute|].
  exists price. split; [exact Hfill|exact Hmin].
Defined.

(** X12. With [FixedSlippage(bps)], [bps >= 0], and a non-negative raw
    price and quantity, a fill is never better than the raw price: a BUY
    pays [price * (1 + bps/10000)], a SELL receives
    [price * (1 - bps/10000)]; the slippage cost recorded on the fill is
    [price * bps/10000 * quantity >= 0], and the commission is computed on
    the slipped price. *)
Theorem fixed_slippage_moves_the_price_against_the_order (bps : Q)
    (commission : CommissionModel) (max_bars_pending : Z)
    (strategy_id_map : gmap string string) (order : OrderEvent.t)
    (bar : MarketEvent.t) (price : Q) :
  (0 <= bps)%Q → (0 <= price)%Q → (0 <= OrderEvent.quantity order)%Q →
  let fill :=
    fill_order (Broker.mk (FixedSlippage bps) commission max_bars_pending)
               strategy_id_map order bar price in
  match OrderEvent.side order with
  | BUY => (price <= FillEvent.fill_price fill)%Q
           ∧ (FillEvent.fill_price fill == price * (1 + bps / 10000))%Q
  | SELL => (FillEvent.fill_price fill <= price)%Q
            ∧ (FillEvent.fill_price fill == price * (1 - bps / 10000))%Q
  end
  ∧ (0 <= FillEvent.slippage fill)%Q
  ∧ (FillEvent.slippage fill
     == price * (bps / 10000) * OrderEvent.quantity order)%Q
  ∧ FillEvent.commission fill
    = commission (OrderEvent.quantity order) (FillEvent.fill_price fill)
  ∧ FillEvent.quantity fill = OrderEvent.quantity order
  ∧ FillEvent.side fill = OrderEvent.side order
  ∧ FillEvent.symbol fill = OrderEvent.symbol order
  ∧ FillEvent.order_id fill = OrderEvent.order_id order
  ∧ FillEvent.timestamp fill = MarketEvent.timestamp bar.
Proof.
  intros Hbps Hprice Hqty. unfold fill_order, FixedSlippage. simpl.
  assert (0 <= price * (bps / 10000))%Q as Hslip.
  { apply Qmult_le_0_compat; [done|]. apply Qle_shift_div_l; [done|].
    by rewrite Qmult_0_l. }
  split.
  { destruct (OrderEvent.side order); simpl; split; try lra; ring. }
  split; [by apply Qmult_le_0_compat|].
  split; [reflexivity|]. by destruct (OrderEvent.side order).
Qed.

Lemma fixed_slippage_moves_the_price_against_the_order_witness :
  let order := OrderEvent.mk 1 "AAA" MARKET BUY 10 None None None
                 "ORD-000001" PENDING in
  let bar := MarketEvent.mk 1 "AAA" 100 101 98 100 1000 in
  let fill := fill_order (Broker.mk (FixedSlippage 5) (PercentCommission 0)
                            1) ∅ order bar 100 in
  ((100 <= FillEvent.fill_price fill)%Q
   ∧ (FillEvent.fill_price fill == 100 * (1 + 5 / 10000))%Q)
  ∧ (0 <= FillEvent.slippage fill)%Q
  ∧ (FillEvent.slippage fill == 100 * (5 / 10000) * 10)%Q
  ∧ FillEvent.commission fill
    = PercentCommission 0 10%Q (FillEvent.fill_price fill)
  ∧ FillEvent.quantity fill = 10%Q
  ∧ FillEvent.side fill = BUY
  ∧ FillEvent.symbol fill = "AAA"%string
  ∧ FillEvent.order_id fill = "ORD-000001"%string
  ∧ FillEvent.timestamp fill = 1.
Proof.
  apply (fixed_slippage_moves_the_price_against_the_order 5
           (PercentCommission 0) 1 ∅
           (OrderEvent.mk 1 "AAA" MARKET BUY 10 None None None
              "ORD-000001" PENDING)
           (MarketEvent.mk 1 "AAA" 100 101 98 100 1000) 100);
    by vm_compute.
Defined.

(** X13. [PerShareCommission] never charges less than [min_fee] nor less
    than [quantity * rate], and charges exactly one of the two;
    [PercentCommission] with a non-negative rate never charges a negative
    amount on a non-negative notional. *)
Theorem commissions_have_a_floor (rate min_fee pct quantity fill_price : Q) :
  ((min_fee <= PerShareCommission rate min_fee quantity fill_price)%Q
   ∧ (quantity * rate <= PerShareCommission rate min_fee quantity fill_price)%Q
   ∧ (PerShareCommission rate min_fee quantity fill_price = (quantity * rate)%Q
      ∨ PerShareCommission rate min_fee quantity fill_price = min_fee))
  ∧ ((0 <= pct)%Q → (0 <= quantity * fill_price)%Q →
     (0 <= PercentCommission pct quantity fill_price)%Q).
Proof.
  unfold PerShareCommission, PercentCommission. split.
  - split; [apply py_max_ge_r|]. split; [apply py_max_ge_l|].
    unfold py_max. destruct (Qltb _ _); [by right|by left].
  - intros Hpct Hn. by apply Qmult_le_0_compat.
Qed.

Lemma commissions_have_a_floor_witness :
  (0 <= PercentCommission (1 # 1000) 10%Q 100%Q)%Q.
Proof.
  apply (commissions_have_a_floor 0 0 (1 # 1000) 10 100); by vm_compute.
Defined.

Lemma process_item_None b market_events m item :
  process_item b market_events m item = None ↔
  OrderEvent.order_type (Item.order item) = LIMIT
  ∧ OrderEvent.limit_price (Item.order item) = None
  ∧ is_Some (market_events !! OrderEvent.symbol (Item.order item)).
Proof.
  unfold process_item, _try_fill.
  destruct (market_events !! _) as [bar|].
  2:{ split; [done|]. by intros (_ & _ & [? ?]). }
  destruct (OrderEvent.order_type _); simpl.
  { split; [done|]. by intros (? & _). }
  destruct (OrderEvent.limit_price _) as [lp|]; simpl.
  - split; [|by intros (_ & ? & _)].
    destruct (OrderEvent.side _); destruct (Qleb _ _); simpl; try done;
      by case_bool_decide.
  - split; [|done]. intros _. split; [done|]. split; [done|]. by eexists.
Qed.

(** X14. [process_bar] raises exactly when the queue holds a LIMIT order
    without a limit price whose symbol has a bar in the call; a queue of
    MARKET orders and priced LIMIT orders is always processed. *)
Theorem process_bar_raises_only_on_unpriced_limit_orders (b : Broker.t)
    (market_events : gmap string MarketEvent.t)
    (strategy_id_map : gmap string string) (pending : list Item.t) :
  process_bar b market_events strategy_id_map pending = None ↔
  Exists (λ item,
            OrderEvent.order_type (Item.order item) = LIMIT
            ∧ OrderEvent.limit_price (Item.order item) = None
            ∧ is_Some (market_events !! OrderEvent.symbol (Item.order item)))
         pending.
Proof.
  induction pending as [|item pending IH]; simpl.
  - split; [done|]. by intros ?%Exists_nil.
  - rewrite Exists_cons, <-IH, <-(process_item_None b market_events strategy_id_map).
    destruct (process_item _ _ _ item) as [o|]; simpl.
    + destruct (process_bar _ _ _ pending) as [r|]; simpl.
      * split; [done|]. by intros [?|?].
      * split; [by right|done].
    + split; [by left|done].
Qed.

Lemma process_item_outcome b market_events m item o :
  process_item b market_events m item = Some o →
  match o with
  | Filled fill order =>
      order = OrderEvent.set_status FILLED (Item.order item)
      ∧ stays b market_events item = false
      ∧ fill_of b m market_events item = Some fill
  | Cancelled order =>
      order = OrderEvent.set_status CANCELLED (Item.order item)
      ∧ stays b market_events item = false
      ∧ fill_of b m market_events item = None
  | Kept item' =>
      item' = waited item
      ∧ stays b market_events item = true
      ∧ fill_of b m market_events item = None
  end.
Proof.
  unfold process_item, stays, fill_of.
  destruct (market_events !! OrderEvent.symbol (Item.order item)) as [bar|];
    cbn [mbind option_bind].
  - destruct (_try_fill (Item.order item) bar) as [[price|]|];
      cbn [mbind option_bind]; [| |done].
    + by intros [= <-].
    + cbn [Item.bars_waited]. case_bool_decide as Hmax; intros [= <-].
      * by rewrite bool_decide_eq_false_2 by lia.
      * by rewrite bool_decide_eq_true_2 by lia.
  - by intros [= <-].
Qed.

(** X15. [process_bar] partitions the queue: the entries that stay (their
    symbol has no bar, or the order does not fill and has waited fewer than
    [max_bars_pending] bars) are kept, in queue order, with the bar
    counted; every other entry leaves the queue, in queue order, FILLED if
    the order fills on its bar and CANCELLED otherwise; there is one fill
    per FILLED order, in queue order, built from the order, its bar and the
    fill price. *)
Theorem process_bar_partitions_the_queue (b : Broker.t)
    (market_events : gmap string MarketEvent.t)
    (strategy_id_map : gmap string string) (pending : list Item.t)
    (r : BarResult.t) :
  process_bar b market_events strategy_id_map pending = Some r →
  BarResult.still_pending r
  = waited <$> List.filter (stays b market_events) pending
  ∧ BarResult.retired r
    = (λ item,
         OrderEvent.set_status
           (match fill_of b strategy_id_map market_events item with
            | Some _ => FILLED
            | None => CANCELLED
            end)
           (Item.order item))
        <$> List.filter (λ item, negb (stays b market_events item)) pending
  ∧ BarResult.fills r
    = omap (fill_of b strategy_id_map market_events) pending
  ∧ Forall (λ item, stays b market_events item = true →
                    fill_of b strategy_id_map market_events item = None)
           pending
  ∧ length pending
    = (length (BarResult.still_pending r)
       + length (BarResult.retired r))%nat.
Proof.
  revert r. induction pending as [|item pending IH]; intros r;
    cbn [process_bar].
  - intros [= <-]. repeat split; try done; constructor.
  - destruct (process_item _ _ _ item) as [o|] eqn:Ho;
      cbn [mbind option_bind]; [|done].
    destruct (process_bar _ _ _ pending) as [r'|];
      cbn [mbind option_bind]; [|done].
    intros [= <-].
    destruct (IH r' eq_refl) as (Hkept & Hret & Hfills & Hex & Hlen).
    apply process_item_outcome in Ho.
    cbn [List.filter omap list_omap length].
    destruct o as [fill order|order|item']; destruct Ho as (-> & Hs & Hf);
      rewrite Hs, Hf;
      cbn [add_outcome BarResult.fills BarResult.still_pending
           BarResult.retired length negb].
    all: split; [by rewrite ?fmap_cons, Hkept|].
    all: split; [by rewrite ?fmap_cons, ?Hf, Hret|].
    all: split; [by rewrite Hfills|].
    all: split; [constructor; [by rewrite Hs, Hf|done]|lia].
Qed.

Lemma process_bar_partitions_the_queue_witness :
  ∃ r, process_bar demo_broker aaa_bars ∅ mixed_queue = Some r
       ∧ length (BarResult.fills r) = 1%nat
       ∧ OrderEvent.status <$> BarResult.retired r = [FILLED; CANCELLED]
       ∧ Item.order <$> BarResult.still_pending r = [idle_order].
Proof.
  assert (∃ r, process_bar demo_broker aaa_bars ∅ mixed_queue = Some r)
    as [r Hr] by (eexists; vm_compute; reflexivity).
  exists r. split; [exact Hr|].
  destruct (process_bar_partitions_the_queue _ _ _ _ _ Hr)
    as (Hkept & Hret & Hfills & _).
  rewrite Hkept, Hret, Hfills. by vm_compute.
Defined.

Lemma tier_le_spec (a b : Q * Q) :
  tier_le a b ↔ (a.1 < b.1)%Q ∨ ((a.1 == b.1)%Q ∧ (a.2 <= b.2)%Q).
Proof.
  unfold tier_le, tier_leb. rewrite Is_true_true, orb_true_iff, andb_true_iff.
  by rewrite Qltb_lt, Qeqb_eq, Qleb_le.
Qed.

#[global] Instance tier_le_trans : Transitive tier_le.
Proof.
  intros a b c. rewrite !tier_le_spec. intros [H1|[H1 H1']] [H2|[H2 H2']].
  - left. lra.
  - left. lra.
  - left. lra.
  - right. split; lra.
Qed.

#[global] Instance tier_le_total : Total tier_le.
Proof.
  intros a b. rewrite !tier_le_spec.
  destruct (Q_dec a.1 b.1) as [[H|H]|H]; [by left; left|by right; left|].
  destruct (Qlt_le_dec b.2 a.2) as [H'|H'].
  - right. right. split; lra.
  - left. right. split; lra.
Qed.

Lemma tier_le_threshold (a b : Q * Q) : tier_le a b → (a.1 <= b.1)%Q.
Proof. rewrite tier_le_spec. intros [?|[? _]]; lra. Qed.

(** The loop of [calculate] over a sorted table ends with the rate of the
    greatest tier whose threshold is at or below the notional, or with the
    initial rate if there is none. *)
Lemma tier_rate_sorted tiers notional rate :
  StronglySorted tier_le tiers →
  (Forall (λ t, notional < t.1)%Q tiers
   ∧ tier_rate tiers notional rate = rate)
  ∨ ∃ t, t ∈ tiers ∧ (t.1 <= notional)%Q
         ∧ Forall (λ t', (t'.1 <= notional)%Q → tier_le t' t) tiers
         ∧ tier_rate tiers notional rate = t.2.
Proof.
  intros Hsorted. revert rate.
  induction Hsorted as [|t tiers Hsorted IH Hle]; intros rate.
  { left. by split. }
  unfold tier_rate in *. cbn [fold_left].
  destruct (IH (if Qleb t.1 notional then t.2 else rate))
    as [[Hnone ->]|(t0 & Hin & Ht0 & Hmax & ->)].
  - destruct (Qleb t.1 notional) eqn:Ht.
    + right. exists t. apply Qleb_le in Ht.
      split; [left|]. split; [done|]. split; [|done].
      constructor; [intros _; apply tier_le_spec; right; split; lra|].
      eapply Forall_impl; [exact Hnone|]. simpl. intros t' Hlt Hle'. lra.
    + left. apply Qleb_gt in Ht. split; [by constructor|done].
  - right. exists t0. split; [by right|]. split; [done|]. split; [|done].
    constructor; [|done]. intros _.
    by eapply Forall_forall in Hle.
Qed.

(** X16. [TieredCommission(tiers).calculate] charges the notional times
    the rate of one tier of the table ([DEFAULT_TIERS] when [tiers] is
    empty or missing): the greatest tier, in the order of the tuples, whose
    threshold is at or below the notional; if every threshold is above the
    notional, the least tier of the table. *)
Theorem tiered_commission_uses_the_greatest_reached_tier
    (tiers : list (Q * Q)) (quantity fill_price : Q) :
  let table := match tiers with [] => DEFAULT_TIERS | _ => tiers end in
  let notional := (quantity * fill_price)%Q in
  ∃ t, t ∈ table
       ∧ TieredCommission tiers quantity fill_price = (notional * t.2)%Q
       ∧ (((t.1 <= notional)%Q
           ∧ ∀ t', t' ∈ table → (t'.1 <= notional)%Q → tier_le t' t)
          ∨ ((∀ t', t' ∈ table → (notional < t'.1)%Q)
             ∧ ∀ t', t' ∈ table → tier_le t t')).
Proof.
  intros table notional. unfold TieredCommission, sorted_tiers.
  fold table. fold notional.
  pose proof (merge_sort_Permutation tier_le table) as Hperm.
  pose proof (StronglySorted_merge_sort tier_le table) as Hsorted.
  assert (table ≠ []) as Hne by (subst table; by destruct tiers).
  destruct (merge_sort tier_le table) as [|t0 sorted] eqn:Hs.
  { by apply Permutation_nil_l in Hperm. }
  cbn [head fmap option_fmap option_map default snd id].
  destruct (tier_rate_sorted (t0 :: sorted) notional t0.2 Hsorted)
    as [[Hnone ->]|(t & Hin & Ht & Hmax & ->)].
  - exists t0. split; [rewrite <-Hperm; left|]. split; [done|]. right. split.
    + intros t' Hin. rewrite <-Hperm in Hin.
      by eapply Forall_forall in Hnone.
    + intros t' Hin. rewrite <-Hperm in Hin.
      apply StronglySorted_inv in Hsorted as [_ Hle].
      apply elem_of_cons in Hin as [->|Hin].
      * destruct (total tier_le t0 t0); done.
      * by eapply Forall_forall in Hle.
  - exists t. split; [by rewrite <-Hperm|]. split; [done|]. left.
    split; [done|]. intros t' Hin' Ht'. rewrite <-Hperm in Hin'.
    eapply Forall_forall in Hmax; [|exact Hin']. by apply Hmax.
Qed.

(** With the default table: 15 bps below a notional of 10,000 (also for a
    notional below the first threshold 0), 10 bps from 10,000, 7 bps from
    100,000 and 5 bps from 1,000,000. *)
Lemma tiered_commission_default_rates (quantity fill_price : Q) :
  let notional := (quantity * fill_price)%Q in
  TieredCommission [] quantity fill_price
  = (notional * (if Qleb 1000000 notional then 5 # 10000
                 else if Qleb 100000 notional then 7 # 10000
                 else if Qleb 10000 notional then 10 # 10000
                 else 15 # 10000))%Q.
Proof.
  intros notional. unfold TieredCommission. fold notional.
  replace (sorted_tiers []) with DEFAULT_TIERS by (by vm_compute).
  unfold tier_rate, DEFAULT_TIERS.
  cbn [head fmap option_fmap option_map default snd fst fold_left].
  destruct (Qleb 1000000 notional) eqn:H4; [done|].
  destruct (Qleb 100000 notional) eqn:H3; [done|].
  destruct (Qleb 10000 notional) eqn:H2; [done|].
  by destruct (Qleb 0 notional).
Qed.

Lemma Qsum_app l1 l2 : (Qsum (l1 ++ l2) == Qsum l1 + Qsum l2)%Q.
Proof.
  unfold Qsum. induction l1 as [|x l1 IH]; simpl; [ring|]. rewrite IH. ring.
Qed.

Lemma Qsum_snoc l x : (Qsum (l ++ [x]) == Qsum l + x)%Q.
Proof. rewrite Qsum_app. unfold Qsum. simpl. ring. Qed.

(** [on_fill] appends one row, built from the fill, and moves the cash and
    the totals by that row. *)
Lemma on_fill_trade pf fill pf' :
  on_fill pf fill = Some pf' →
  ∃ pnl,
    Portfolio._trades pf' = Portfolio._trades pf ++ [trade_of_fill fill pnl]
    ∧ (Portfolio.cash pf'
       == Portfolio.cash pf + cash_flow (trade_of_fill fill pnl))%Q
    ∧ Portfolio._total_commission pf'
      = (Portfolio._total_commission pf + FillEvent.commission fill)%Q
    ∧ Portfolio._total_slippage pf'
      = (Portfolio._total_slippage pf + FillEvent.slippage fill)%Q.
Proof.
  unfold on_fill, cash_flow. destruct (FillEvent.side fill) eqn:Hside.
  - destruct (_process_buy _ _ fill) as [[positions trades]|] eqn:Hbuy;
      simpl; [|done].
    intros [= <-]. simpl. exists 0%Q.
    unfold _process_buy in Hbuy.
    assert (trades = _record_trade (Portfolio._trades pf) fill 0) as ->.
    { destruct (dict_get _ _) as [pos|]; simpl in Hbuy.
      - destruct (Qltb 0 _); simpl in Hbuy.
        + destruct (Qeqb _ 0); simpl in Hbuy; [done|]. by injection Hbuy.
        + by injection Hbuy.
      - by injection Hbuy. }
    unfold _record_trade, trade_of_fill. rewrite Hside. simpl.
    split; [done|]. split; [ring|done].
  - destruct (_process_sell _ _ fill) as [[positions trades] realized]
      eqn:Hsell; simpl.
    intros [= <-]. simpl. exists realized.
    unfold _process_sell in Hsell.
    assert (trades = _record_trade (Portfolio._trades pf) fill realized)
      as ->.
    { destruct (dict_get _ _) as [pos|]; simpl in Hsell.
      - destruct (Qltb _ qty_epsilon); by injection Hsell as <- <- <-.
      - by injection Hsell as <- <- <-. }
    unfold _record_trade, trade_of_fill. rewrite Hside. simpl.
    split; [done|]. split; [ring|done].
Qed.

Lemma on_fill_balanced pf fill pf' :
  ledger_balanced pf → on_fill pf fill = Some pf' → ledger_balanced pf'.
Proof.
  intros (Hcash & Hcomm & Hslip) Hfill.
  pose proof (on_fill_curve _ _ _ Hfill) as [_ Hcap].
  apply on_fill_trade in Hfill as (pnl & Htrades & Hcash' & Hcomm' & Hslip').
  unfold ledger_balanced. rewrite Htrades, Hcap, !fmap_app. simpl.
  rewrite !Qsum_snoc, Hcash', Hcomm', Hslip', Hcash, Hcomm, Hslip. simpl.
  split; [ring|]. split; reflexivity.
Qed.

Lemma apply_fills_balanced {S} pf (strategies : list (Strategy.t S)) fills pf'
    strategies' :
  ledger_balanced pf →
  apply_fills pf strategies fills = Some (pf', strategies') →
  ledger_balanced pf'.
Proof.
  revert pf strategies. induction fills as [|fill fills IH];
    intros pf strategies Hpf; simpl.
  - by intros [= <- _].
  - destruct (on_fill pf fill) as [pf1|] eqn:E; simpl; [|done].
    apply IH. by eapply on_fill_balanced.
Qed.

Lemma engine_step_balanced {S} cfg (e : Engine.t S) bar e' :
  ledger_balanced (Engine.portfolio e) →
  engine_step cfg e bar = Some e' →
  ledger_balanced (Engine.portfolio e').
Proof.
  destruct bar as [timestamp market_events]. intros Hpf Hstep.
  apply engine_step_inv in Hstep
    as (?&?&?&?&?&?&?&?&?&?&?&pf&?&_&_&_&_&_&_&Hfills&->).
  apply apply_fills_balanced in Hfills; [|done]. exact Hfills.
Qed.

(** X17. At the end of every run (and after every bar of it) the ledger
    balances: the cash is the initial capital plus the cash flows of the
    rows of the trade log (a BUY pays price * quantity + commission, a SELL
    receives price * quantity - commission), and the commission and
    slippage totals are the sums of the commission and slippage columns of
    the trade log. *)
Theorem run_keeps_the_ledger_balanced {S} (cfg : Engine.config)
    (strategies : list (Strategy.t S)) (initial_capital : Q) (counter : N)
    (bars : list (Z * gmap string MarketEvent.t)) (e : Engine.t S) :
  run_bars cfg (Engine.init strategies initial_capital counter) bars
  = Some e →
  let pf := Engine.portfolio e in
  (Portfolio.cash pf
   == initial_capital + Qsum (cash_flow <$> trade_log pf))%Q
  ∧ (Portfolio._total_commission pf
     == Qsum (TradeRecord.commission <$> trade_log pf))%Q
  ∧ (Portfolio._total_slippage pf
     == Qsum (TradeRecord.slippage <$> trade_log pf))%Q.
Proof.
  intros Hrun pf.
  assert (ledger_balanced pf ∧ Portfolio.initial_capital pf = initial_capital)
    as [Hbal Hcap].
  { subst pf. split.
    - revert Hrun.
      assert (ledger_balanced
                (Engine.portfolio
                   (Engine.init strategies initial_capital counter))) as H0.
      { unfold ledger_balanced. simpl. unfold Qsum. simpl.
        split; [ring|]. split; reflexivity. }
      revert H0. generalize (Engine.init strategies initial_capital counter).
      induction bars as [|bar bars IH]; intros e0 H0; simpl.
      + by intros [= <-].
      + destruct (engine_step cfg e0 bar) as [e1|] eqn:E; simpl; [|done].
        apply IH. by eapply engine_step_balanced.
    - by apply run_bars_curve in Hrun as (_ & _ & _ & ->). }
  unfold ledger_balanced in Hbal. by rewrite Hcap in Hbal.
Qed.

Lemma run_keeps_the_ledger_balanced_witness :
  ∃ e, run demo_config (demo_engine 0) = Some e
       ∧ (Portfolio.cash (Engine.portfolio e)
          == 100000 + Qsum (cash_flow <$> trade_log (Engine.portfolio e)))%Q.
Proof.
  assert (∃ e, run demo_config (demo_engine 0) = Some e) as [e He]
    by (eexists; vm_compute; reflexivity).
  exists e. split; [done|].
  by destruct (run_keeps_the_ledger_balanced demo_config [demo_strategy]
                 100000 0 _ e He) as [? _].
Defined.

Lemma apply_fills_trades {S} pf (strategies : list (Strategy.t S)) fills pf'
    strategies' :
  apply_fills pf strategies fills = Some (pf', strategies') →
  ∃ rows,
    Portfolio._trades pf' = Portfolio._trades pf ++ rows
    ∧ Forall2 (λ t fill, ∃ pnl, t = trade_of_fill fill pnl) rows fills.
Proof.
  revert pf strategies. induction fills as [|fill fills IH];
    intros pf strategies; simpl.
  - intros [= <- _]. exists []. by rewrite app_nil_r.
  - destruct (on_fill pf fill) as [pf1|] eqn:E; simpl; [|done].
    intros H. apply IH in H as (rows & -> & Hrows).
    apply on_fill_trade in E as (pnl & -> & _).
    exists (trade_of_fill fill pnl :: rows). rewrite <-app_assoc.
    split; [done|]. constructor; [by exists pnl|done].
Qed.

Lemma trade_rows_order_ids rows fills :
  Forall2 (λ t fill, ∃ pnl, t = trade_of_fill fill pnl) rows fills →
  TradeRecord.order_id <$> rows = FillEvent.order_id <$> fills.
Proof.
  induction 1 as [|t fill rows fills [pnl ->] _ IH]; [done|].
  rewrite !fmap_cons. by f_equal.
Qed.

(** One pass through the loop body, started with an empty queue: every
    order it creates is filled and logged in the same pass, in the order of
    creation. *)
Lemma engine_step_trade_ids {S} cfg (e : Engine.t S) timestamp market_events
    e' :
  Engine._pending e = [] →
  engine_step cfg e (timestamp, market_events) = Some e' →
  ∃ rows,
    Portfolio._trades (Engine.portfolio e')
    = Portfolio._trades (Engine.portfolio e) ++ rows
    ∧ TradeRecord.order_id <$> rows
      = ids_from (Engine._order_counter e) (length rows)
    ∧ Engine._order_counter e'
      = (Engine._order_counter e + N.of_nat (length rows))%N.
Proof.
  intros Hempty Hstep. apply engine_step_inv in Hstep
    as (stop_orders & c1 & pending1 & m1 & all_signals & strategies & orders
        & c2 & pending2 & m2 & r & pf & strategies'
        & Hstop & Hsub1 & _ & Hrisk & Hsub2 & Hbar & Hfills & ->).
  simpl.
  pose proof (check_stop_conditions_market
                (open_positions_detail (Engine.portfolio e)) market_events
                (Engine._order_counter e)) as Hm1.
  pose proof (check_stop_conditions_ids
                (open_positions_detail (Engine.portfolio e)) market_events
                (Engine._order_counter e)) as [Hid1 Hc1].
  rewrite Hstop in Hm1, Hid1, Hc1. simpl in Hm1, Hid1, Hc1.
  pose proof (process_signals_market _ _ _ _ _ _ _ _ _ Hrisk) as Hm2.
  apply process_signals_ids in Hrisk as [Hid2 Hc2].
  pose proof (submit_stop_orders_pending (Engine._pending e)
                (Engine._order_strategy_map e) stop_orders) as Hp1.
  rewrite Hsub1, Hempty in Hp1. simpl in Hp1.
  pose proof (submit_orders_pending all_signals pending1 m1 orders) as Hp2.
  rewrite Hsub2 in Hp2. simpl in Hp2. subst pending1 pending2.
  destruct (process_bar_drains (Engine.broker cfg) market_events m2
              (((λ o, Item.mk o 0) <$> stop_orders)
               ++ ((λ o, Item.mk o 0) <$> orders)))
    as (r' & Hr' & _ & Hids & _).
  { rewrite fmap_app, <-!list_fmap_compose. apply Forall_app. split.
    - by rewrite list_fmap_id.
    - by rewrite list_fmap_id. }
  rewrite Hbar in Hr'. injection Hr' as <-.
  apply apply_fills_trades in Hfills as (rows & Htrades & Hrows).
  exists rows. split; [done|].
  pose proof (Forall2_length _ _ _ Hrows) as Hlen.
  apply trade_rows_order_ids in Hrows. rewrite Hrows, Hids.
  assert (length rows = (length stop_orders + length orders)%nat) as Hn.
  { rewrite Hlen, <-(length_fmap FillEvent.order_id), Hids.
    by rewrite length_fmap, length_app, !length_fmap. }
  rewrite Hn, ids_from_app, <-Hc1, <-Hid1, <-Hid2.
  split; [|lia].
  rewrite fmap_app, <-!list_fmap_compose. done.
Qed.

Lemma run_bars_trade_ids {S} cfg (e : Engine.t S) bars e' :
  Engine._pending e = [] →
  run_bars cfg e bars = Some e' →
  Engine._pending e' = []
  ∧ ∃ rows,
      Portfolio._trades (Engine.portfolio e')
      = Portfolio._trades (Engine.portfolio e) ++ rows
      ∧ TradeRecord.order_id <$> rows
        = ids_from (Engine._order_counter e) (length rows)
      ∧ Engine._order_counter e'
        = (Engine._order_counter e + N.of_nat (length rows))%N.
Proof.
  revert e. induction bars as [|[timestamp market_events] bars IH];
    intros e Hempty; cbn [run_bars].
  - intros [= <-]. split; [done|]. exists []. rewrite app_nil_r.
    split; [done|]. split; [done|]. simpl. lia.
  - destruct (engine_step cfg e (timestamp, market_events)) as [e1|] eqn:E;
      cbn [mbind option_bind]; [|done].
    intros Hrun.
    pose proof (engine_step_drains_queue _ _ _ _ _ Hempty E) as Hempty1.
    apply engine_step_trade_ids in E as (rows1 & Ht1 & Hid1 & Hc1); [|done].
    destruct (IH e1 Hempty1 Hrun) as (Hempty' & rows2 & Ht2 & Hid2 & Hc2).
    split; [done|]. exists (rows1 ++ rows2).
    rewrite Ht2, Ht1, <-app_assoc. split; [done|].
    rewrite fmap_app, length_app, ids_from_app, Hid1, Hid2, Hc2, Hc1.
    split; [done|]. lia.
Qed.

(** X18. In a run, every order created is filled and logged exactly once,
    in the order of creation: the [order_id] column of the trade log is
    the sequence of ids drawn from the counter since the engine was built
    ([ORD-{c+1:06d}], [ORD-{c+2:06d}], ...), without gap or repetition; the
    counter has advanced by the number of rows, and no order is left
    pending. *)
Theorem trade_log_lists_every_order_once {S} (cfg : Engine.config)
    (strategies : list (Strategy.t S)) (initial_capital : Q) (counter : N)
    (bars : list (Z * gmap string MarketEvent.t)) (e : Engine.t S) :
  run_bars cfg (Engine.init strategies initial_capital counter) bars
  = Some e →
  let log := trade_log (Engine.portfolio e) in
  TradeRecord.order_id <$> log = ids_from counter (length log)
  ∧ NoDup (TradeRecord.order_id <$> log)
  ∧ Engine._order_counter e = (counter + N.of_nat (length log))%N
  ∧ Engine._pending e = [].
Proof.
  intros Hrun log. apply run_bars_trade_ids in Hrun; [|done].
  destruct Hrun as (Hempty & rows & Hrows & Hids & Hc). simpl in Hrows, Hids, Hc.
  subst log. unfold trade_log. rewrite Hrows.
  split; [done|]. split; [|done]. rewrite Hids. apply NoDup_ids_from.
Qed.

Lemma trade_log_lists_every_order_once_witness :
  ∃ e, run demo_config (demo_engine 0) = Some e
       ∧ TradeRecord.order_id <$> trade_log (Engine.portfolio e)
         = ids_from 0 (length (trade_log (Engine.portfolio e))).
Proof.
  assert (∃ e, run demo_config (demo_engine 0) = Some e) as [e He]
    by (eexists; vm_compute; reflexivity).
  exists e. split; [done|].
  by destruct (trade_log_lists_every_order_once demo_config [demo_strategy]
                 100000 0 _ e He) as [? _].
Defined.

Section dict_lookup.
Context {V : Type}.
Implicit Types (d : list (string * V)) (k : string) (v : V).

Lemma dict_get_set_eq k v d : dict_get k (dict_set k v d) = Some v.
Proof.
  unfold dict_get. induction d as [|[k' v'] d IH]; simpl.
  - by rewrite bool_decide_eq_true_2.
  - case_bool_decide as Hk; simpl.
    + by rewrite bool_decide_eq_true_2.
    + by rewrite bool_decide_eq_false_2.
Qed.

Lemma dict_get_set_ne k k' v d :
  k ≠ k' → dict_get k' (dict_set k v d) = dict_get k' d.
Proof.
  intros Hne. unfold dict_get. induction d as [|[k0 v0] d IH]; simpl.
  - by rewrite bool_decide_eq_false_2.
  - case_bool_decide as Hk; simpl.
    + subst k0. by rewrite !bool_decide_eq_false_2.
    + case_bool_decide; [done|]. exact IH.
Qed.

Lemma dict_get_del_eq k d : dict_get k (dict_del k d) = None.
Proof.
  unfold dict_get, dict_del. induction d as [|[k0 v0] d IH]; simpl; [done|].
  case_bool_decide as Hk; simpl; [done|].
  by rewrite bool_decide_eq_false_2.
Qed.

Lemma dict_get_del_ne k k' d :
  k ≠ k' → dict_get k' (dict_del k d) = dict_get k' d.
Proof.
  intros Hne. unfold dict_get, dict_del.
  induction d as [|[k0 v0] d IH]; simpl; [done|].
  case_bool_decide as Hk; simpl.
  - subst k0. by rewrite bool_decide_eq_false_2.
  - case_bool_decide; [done|]. exact IH.
Qed.
End dict_lookup.

Lemma held_qty_open_positions pf symbol :
  held_qty (open_positions pf) symbol
  = from_option Position.quantity 0%Q
      (dict_get symbol (Portfolio._positions pf)).
Proof.
  unfold held_qty, open_positions, dict_get.
  induction (Portfolio._positions pf) as [|[k pos] d IH]; simpl; [done|].
  by case_bool_decide.
Qed.

(** A fill that opens or closes is always booked, and keeps the book long
    only. *)
Lemma on_fill_book_within held pf fill :
  book_within held (Portfolio._positions pf) →
  opens_or_closes held (FillEvent.symbol fill) (FillEvent.side fill)
                  (FillEvent.quantity fill) →
  ∃ pf', on_fill pf fill = Some pf'
         ∧ book_within held (Portfolio._positions pf').
Proof.
  intros [Hlong Hheld] Hfill. unfold on_fill, opens_or_closes in *.
  destruct (FillEvent.side fill).
  - destruct Hfill as [Hqty Hnot].
    assert (∃ pos',
              _process_buy (Portfolio._positions pf) (Portfolio._trades pf) fill
              = Some (dict_set (FillEvent.symbol fill) pos'
                        (Portfolio._positions pf),
                      _record_trade (Portfolio._trades pf) fill 0)
              ∧ (0 < Position.quantity pos')%Q) as (pos' & -> & Hpos').
    { unfold _process_buy.
      destruct (dict_get _ _) as [pos|] eqn:Hget; simpl.
      - apply dict_get_Some in Hget.
        pose proof (proj1 (Forall_forall _ _) Hlong _ Hget) as Hpos.
        simpl in Hpos. rewrite (proj2 (Qltb_lt _ _) Hpos).
        rewrite (proj2 (Qeqb_neq _ _)) by lra. simpl.
        eexists. split; [done|]. simpl. lra.
      - eexists. split; [done|]. done. }
    simpl. eexists. split; [done|]. simpl. split.
    + by apply dict_set_Forall.
    + intros symbol pos Hsym.
      destruct (decide (FillEvent.symbol fill = symbol)) as [<-|Hne];
        [lra|].
      rewrite dict_get_set_ne by done. by apply Hheld.
  - destruct Hfill as [Hsym Hqty].
    destruct (_process_sell _ _ fill) as [[positions trades] realized]
      eqn:Hsell.
    simpl. eexists. split; [done|]. simpl.
    unfold _process_sell in Hsell.
    destruct (dict_get _ _) as [pos|] eqn:Hget.
    + rewrite Hqty, (Hheld _ _ Hsym Hget) in Hsell.
      cbn [Position.quantity] in Hsell.
      rewrite (proj2 (Qltb_lt _ _)) in Hsell.
      2:{ cbn [Position.quantity].
          match goal with
          | |- (Qabs ?e < _)%Q => assert (e == 0)%Q as -> by ring
          end. done. }
      injection Hsell as <- _ _. split.
      * by apply dict_del_Forall.
      * intros symbol pos0 Hsym0.
        destruct (decide (FillEvent.symbol fill = symbol)) as [<-|Hne].
        -- by rewrite dict_get_del_eq.
        -- rewrite dict_get_del_ne by done. by apply Hheld.
    + by injection Hsell as <- _ _.
Qed.

Lemma apply_fills_book_within {S} held pf (strategies : list (Strategy.t S))
    fills :
  book_within held (Portfolio._positions pf) →
  Forall (λ fill, opens_or_closes held (FillEvent.symbol fill)
                    (FillEvent.side fill) (FillEvent.quantity fill)) fills →
  ∃ pf' strategies',
    apply_fills pf strategies fills = Some (pf', strategies')
    ∧ book_within held (Portfolio._positions pf').
Proof.
  intros Hpf Hfills. revert pf strategies Hpf.
  induction Hfills as [|fill fills Hfill _ IH]; intros pf strategies Hpf;
    simpl.
  - by exists pf, strategies.
  - destruct (on_fill_book_within held pf fill Hpf Hfill) as (pf1 & -> & Hpf1).
    simpl. by apply IH.
Qed.

(** The orders of a risk manager that does not allow shorts. *)
Lemma process_signals_long_only rm signals market_events feed equity
    open_positions c os c' :
  RiskManager.allow_short rm = false →
  process_signals rm signals market_events feed equity open_positions c
  = Some (os, c') →
  Forall (λ o, opens_or_closes (held_qty open_positions)
                 (OrderEvent.symbol o) (OrderEvent.side o)
                 (OrderEvent.quantity o)) os.
Proof.
  intros Hshort. revert c os c'.
  induction signals as [|sig signals IH]; intros c os c'; simpl.
  - intros [= <- _]. constructor.
  - destruct (signal_orders _ _ _ _ _ _ _) as [[os1 c1]|] eqn:E1; simpl;
      [|done].
    destruct (process_signals _ _ _ _ _ _ _) as [[os2 c2]|] eqn:E2; simpl;
      [|done].
    intros [= <- <-]. apply Forall_app. split; [|by eapply IH].
    apply signal_orders_answer in E1
      as [[-> _]|(o & -> & _ & _ & (_ & Hsym & _ & _ & _ & Hqty & Hdir))];
      [constructor|].
    constructor; [|constructor]. rewrite Hsym. unfold opens_or_closes.
    cbv zeta in Hdir. destruct (SignalEvent.direction sig).
    + by destruct Hdir as [-> ?].
    + destruct Hdir as (_ & Hallow & _). congruence.
    + destruct Hdir as [(-> & ? & ?)|(_ & _ & Hallow & _)]; [done|congruence].
Qed.

(** The fills of a queue that is emptied carry the symbol, side and
    quantity of the orders, one by one. *)
Lemma process_bar_fills_mirror b market_events m pending r :
  Forall (fills_now market_events) (Item.order <$> pending) →
  process_bar b market_events m pending = Some r →
  Forall2 (λ fill o, FillEvent.symbol fill = OrderEvent.symbol o
                     ∧ FillEvent.side fill = OrderEvent.side o
                     ∧ FillEvent.quantity fill = OrderEvent.quantity o)
          (BarResult.fills r) (Item.order <$> pending).
Proof.
  revert r. induction pending as [|item pending IH]; intros r Hall; simpl.
  - intros [= <-]. constructor.
  - rewrite fmap_cons in Hall.
    apply Forall_cons in Hall as [[Hty [bar Hbar]] Hall].
    destruct (market_order_fills_on_current_bar b market_events m item bar
                Hty Hbar) as (fill & order & Hitem & _).
    pose proof Hitem as Hitem'. unfold process_item in Hitem'.
    rewrite Hbar in Hitem'. unfold _try_fill in Hitem'. rewrite Hty in Hitem'.
    simpl in Hitem'. injection Hitem' as <- _.
    rewrite Hitem. simpl.
    destruct (process_bar _ _ _ pending) as [r'|]; simpl; [|done].
    intros [= <-]. simpl. constructor; [done|]. by apply IH.
Qed.

Lemma fills_mirror_opens_or_closes held fills os :
  Forall2 (λ fill o, FillEvent.symbol fill = OrderEvent.symbol o
                     ∧ FillEvent.side fill = OrderEvent.side o
                     ∧ FillEvent.quantity fill = OrderEvent.quantity o)
          fills os →
  Forall (λ o, opens_or_closes held (OrderEvent.symbol o) (OrderEvent.side o)
                 (OrderEvent.quantity o)) os →
  Forall (λ fill, opens_or_closes held (FillEvent.symbol fill)
                    (FillEvent.side fill) (FillEvent.quantity fill)) fills.
Proof.
  induction 1 as [|fill o fills os (Hs & Hd & Hq) _ IH]; [constructor|].
  intros [Ho Hos]%Forall_cons. constructor; [by rewrite Hs, Hd, Hq|by apply IH].
Qed.

Lemma engine_step_long_only {S} cfg (e : Engine.t S) bar e' :
  RiskManager.allow_short (Engine.risk_manager cfg) = false →
  no_stops (Portfolio._positions (Engine.portfolio e)) →
  long_only (Portfolio._positions (Engine.portfolio e)) →
  Engine._pending e = [] →
  engine_step cfg e bar = Some e' →
  long_only (Portfolio._positions (Engine.portfolio e')).
Proof.
  destruct bar as [timestamp market_events].
  intros Hshort Hstops Hlong Hempty Hstep. apply engine_step_inv in Hstep
    as (stop_orders & c1 & pending1 & m1 & all_signals & strategies & orders
        & c2 & pending2 & m2 & r & pf & strategies'
        & Hstop & Hsub1 & _ & Hrisk & Hsub2 & Hbar & Hfills & ->).
  simpl.
  unfold open_positions_detail in Hstop.
  rewrite check_stop_conditions_no_stops in Hstop by done.
  injection Hstop as <- <-.
  pose proof (process_signals_market _ _ _ _ _ _ _ _ _ Hrisk) as Hm2.
  apply (process_signals_long_only _ _ _ _ _ _ _ _ _ Hshort) in Hrisk.
  cbn [submit_stop_orders] in Hsub1. injection Hsub1 as <- <-.
  pose proof (submit_orders_pending all_signals (Engine._pending e)
                (Engine._order_strategy_map e) orders) as Hp2.
  rewrite Hsub2, Hempty in Hp2. simpl in Hp2. subst pending2.
  apply process_bar_fills_mirror in Hbar.
  2:{ rewrite <-list_fmap_compose. by rewrite list_fmap_id. }
  rewrite <-list_fmap_compose, list_fmap_id in Hbar.
  destruct (apply_fills_book_within
              (held_qty (open_positions (Engine.portfolio e)))
              (Engine.portfolio e) strategies (BarResult.fills r))
    as (pf1 & strategies1 & Hfills1 & [Hlong1 _]).
  { split; [done|]. intros symbol pos _ Hget.
    by rewrite held_qty_open_positions, Hget. }
  { by eapply fills_mirror_opens_or_closes. }
  rewrite Hfills in Hfills1. by injection Hfills1 as <- _.
Qed.

(** X19. With [allow_short = False] the book of a run is long only: after
    every bar, every open position has a quantity greater than zero (no
    short position, and no position of quantity zero). *)
Theorem long_only_run_never_holds_a_short {S} (cfg : Engine.config)
    (strategies : list (Strategy.t S)) (initial_capital : Q) (counter : N)
    (bars : list (Z * gmap string MarketEvent.t)) (e : Engine.t S) :
  RiskManager.allow_short (Engine.risk_manager cfg) = false →
  run_bars cfg (Engine.init strategies initial_capital counter) bars
  = Some e →
  Forall (λ kv, (0 < kv.2)%Q) (open_positions (Engine.portfolio e)).
Proof.
  intros Hshort Hrun.
  assert (long_only (Portfolio._positions (Engine.portfolio e))) as Hlong.
  { revert Hrun.
    assert (no_stops (Portfolio._positions
                        (Engine.portfolio
                           (Engine.init strategies initial_capital counter)))
            ∧ long_only (Portfolio._positions
                           (Engine.portfolio
                              (Engine.init strategies initial_capital counter)))
            ∧ Engine._pending (Engine.init strategies initial_capital counter)
              = []) as H0 by (repeat split; constructor).
    revert H0. generalize (Engine.init strategies initial_capital counter).
    induction bars as [|bar bars IH]; intros e0 (Hs & Hl & Hp);
      cbn [run_bars].
    - by intros [= <-].
    - destruct (engine_step cfg e0 bar) as [e1|] eqn:E;
        cbn [mbind option_bind]; [|done].
      apply IH. split; [by eapply engine_step_no_stops|].
      split; [by eapply engine_step_long_only|].
      destruct bar. by eapply engine_step_drains_queue. }
  unfold open_positions. apply Forall_fmap.
  eapply Forall_impl; [exact Hlong|]. done.
Qed.

Lemma long_only_run_never_holds_a_short_witness :
  ∃ e, run demo_config (demo_engine 0) = Some e
       ∧ Forall (λ kv, (0 < kv.2)%Q) (open_positions (Engine.portfolio e)).
Proof.
  assert (∃ e, run demo_config (demo_engine 0) = Some e) as [e He]
    by (eexists; vm_compute; reflexivity).
  exists e. split; [done|].
  by apply (long_only_run_never_holds_a_short demo_config [demo_strategy]
              100000 0 (feed_iter demo_feed) e).
Defined.

Lemma on_fill_None pf fill :
  on_fill pf fill = None ↔
  FillEvent.side fill = BUY
  ∧ ∃ pos, dict_get (FillEvent.symbol fill) (Portfolio._positions pf)
           = Some pos
           ∧ (0 < Position.quantity pos)%Q
           ∧ (Position.quantity pos + FillEvent.quantity fill == 0)%Q.
Proof.
  unfold on_fill. destruct (FillEvent.side fill).
  - unfold _process_buy.
    destruct (dict_get _ _) as [pos|]; simpl.
    2:{ split; [done|]. by intros (_ & ? & ? & _). }
    destruct (Qltb 0 _) eqn:Hpos; simpl.
    + apply Qltb_lt in Hpos. destruct (Qeqb _ 0) eqn:Hz; simpl.
      * apply Qeqb_eq in Hz. split; [|done]. intros _. split; [done|].
        by exists pos.
      * apply Qeqb_neq in Hz. split; [done|].
        by intros (_ & ? & [= <-] & _ & ?).
    + apply Qltb_ge in Hpos. split; [done|].
      intros (_ & ? & [= <-] & ? & _). lra.
  - destruct (_process_sell _ _ fill) as [[positions trades] realized].
    simpl. split; [done|]. by intros [? _].
Qed.

(** X20. [Portfolio.on_fill] divides by zero (in the averaging of
    [_process_buy]: a [ZeroDivisionError] on built-in floats, a [NaN]
    average entry on numpy floats) exactly when a BUY meets a long position
    whose quantity plus the fill's quantity is zero; every SELL, and every
    fill of a positive quantity, is booked without such a division. *)
Theorem on_fill_divides_by_zero_only_on_a_zero_total (pf : Portfolio.t)
    (fill : FillEvent.t) :
  (on_fill pf fill = None ↔
   FillEvent.side fill = BUY
   ∧ ∃ pos, dict_get (FillEvent.symbol fill) (Portfolio._positions pf)
            = Some pos
            ∧ (0 < Position.quantity pos)%Q
            ∧ (Position.quantity pos + FillEvent.quantity fill == 0)%Q)
  ∧ (FillEvent.side fill = SELL → is_Some (on_fill pf fill))
  ∧ ((0 < FillEvent.quantity fill)%Q → is_Some (on_fill pf fill)).
Proof.
  split; [apply on_fill_None|]. split.
  - intros Hside. destruct (on_fill pf fill) as [pf'|] eqn:E; [done|].
    apply on_fill_None in E as [? _]. congruence.
  - intros Hqty. destruct (on_fill pf fill) as [pf'|] eqn:E; [done|].
    apply on_fill_None in E as (_ & pos & _ & Hpos & Hz). lra.
Qed.

Lemma on_fill_divides_by_zero_only_on_a_zero_total_witness :
  on_fill (Portfolio.mk 1000 1000
             [("AAA"%string, Position.mk "AAA" 10 100 None None 0)] [] [] 0 0)
          (FillEvent.mk 1 "AAA" BUY (-10) 100 0 0 "ORD-000001" "S1")
  = None
  ∧ is_Some (on_fill (Portfolio.init 1000) short_cover).
Proof.
  split.
  - apply (proj2 (proj1 (on_fill_divides_by_zero_only_on_a_zero_total _ _))).
    split; [done|]. eexists. split; [done|]. by vm_compute.
  - apply (proj2 (on_fill_divides_by_zero_only_on_a_zero_total _ _)).
    by vm_compute.
Defined.
















Lemma cummax_from_bounds m l :
  (0 < m)%Q → Forall (λ x, 0 < x)%Q l →
  Forall2 (λ e peak, (0 < e)%Q ∧ (e <= peak)%Q) l (cummax_from m l).
Proof.
  intros Hm Hl. revert m Hm.
  induction Hl as [|x l Hx _ IH]; intros m Hm; simpl; [constructor|].
  constructor.
  - split; [done|]. apply py_max_ge_r.
  - apply IH. pose proof (py_max_ge_l m x). lra.
Qed.

(** X22. On an equity series whose values are all positive, every entry
    of [drawdown_series] is a finite number in (-1, 0], there is one entry
    per value, and the first entry is 0. *)
Theorem drawdown_of_a_positive_curve_is_a_loss_fraction (equities : list Q) :
  Forall (λ x, 0 < x)%Q equities →
  Forall2 (λ e d, ∃ q, d = Some q ∧ (-1 < q)%Q ∧ (q <= 0)%Q)
          equities (drawdown_series equities)
  ∧ (∀ d, head (drawdown_series equities) = Some d →
          ∃ q, d = Some q ∧ (q == 0)%Q).
Proof.
  intros Hpos.
  assert (Forall2 (λ e peak, (0 < e)%Q ∧ (e <= peak)%Q)
                  equities (cummax equities)) as Hpeaks.
  { destruct Hpos as [|x l Hx Hl]; simpl; [constructor|].
    constructor; [split; [done|lra]|]. by apply cummax_from_bounds. }
  split.
  - unfold drawdown_series.
    induction Hpeaks as [|e peak l peaks [He Hpeak] _ IH]; simpl;
      [constructor|].
    apply Forall_cons in Hpos as [_ Hpos]. constructor; [|by apply IH].
    rewrite (proj2 (Qeqb_neq _ _)) by lra. eexists. split; [done|].
    split.
    + apply Qlt_shift_div_l; lra.
    + apply Qle_shift_div_r; lra.
  - destruct Hpos as [|x l Hx Hl]; simpl; [done|].
    rewrite (proj2 (Qeqb_neq _ _)) by lra. intros d [= <-].
    eexists. split; [done|]. field. lra.
Qed.

Lemma drawdown_of_a_positive_curve_is_a_loss_fraction_witness :
  Forall2 (λ e d, ∃ q, d = Some q ∧ (-1 < q)%Q ∧ (q <= 0)%Q)
          [100; 120; 90]%Q (drawdown_series [100; 120; 90]%Q).
Proof.
  apply (drawdown_of_a_positive_curve_is_a_loss_fraction [100; 120; 90]%Q).
  repeat constructor.
Defined.

(** X23. The equity curve of a finished run has one snapshot per
    timestamp the feed yields, stamped with it, so its index is strictly
    increasing; [Portfolio.equity_curve()] raises exactly when the feed
    yields nothing. *)
Theorem equity_curve_has_one_row_per_bar {S} (cfg : Engine.config)
    (strategies : list (Strategy.t S)) (initial_capital : Q) (counter : N)
    (e : Engine.t S) :
  run cfg (Engine.init strategies initial_capital counter) = Some e →
  let curve := Portfolio._equity_curve (Engine.portfolio e) in
  Snapshot.timestamp <$> curve = feed_index (Engine.feed cfg)
  ∧ StronglySorted Z.lt (Snapshot.timestamp <$> curve)
  ∧ (equity_curve (Engine.portfolio e) = None
     ↔ feed_index (Engine.feed cfg) = [])
  ∧ (∀ rows, equity_curve (Engine.portfolio e) = Some rows →
             rows.*1 = curve).
Proof.
  intros Hrun curve. unfold run in Hrun.
  apply run_bars_curve in Hrun as (snaps & Hcurve & Hts & _).
  simpl in Hcurve. subst curve. rewrite Hcurve.
  rewrite feed_iter_all, <-list_fmap_compose in Hts.
  assert (Snapshot.timestamp <$> snaps = feed_index (Engine.feed cfg)) as Hix.
  { rewrite Hts. apply list_fmap_id. }
  split; [done|]. split; [rewrite Hix; apply feed_index_sorted|].
  unfold equity_curve. rewrite Hcurve. split.
  - rewrite <-Hix. destruct snaps; simpl; [done|]. by split.
  - intros rows Hrows. destruct snaps as [|snap snaps]; [done|].
    assert (rows = zip (snap :: snaps)
                     (drawdown_series (Snapshot.equity <$> snap :: snaps)))
      as -> by (by injection Hrows).
    apply fst_zip. unfold drawdown_series. rewrite length_zip_with.
    assert (∀ l : list Q, length (cummax l) = length l) as Hlen.
    { intros [|x l]; simpl; [done|]. f_equal.
      generalize x. induction l as [|y l IH]; intros m; simpl; [done|].
      by rewrite IH. }
    rewrite Hlen, length_fmap. lia.
Qed.

Lemma equity_curve_has_one_row_per_bar_witness :
  ∃ e, run demo_config (demo_engine 0) = Some e
       ∧ Snapshot.timestamp <$> Portfolio._equity_curve (Engine.portfolio e)
         = feed_index demo_feed.
Proof.
  assert (∃ e, run demo_config (demo_engine 0) = Some e) as [e He]
    by (eexists; vm_compute; reflexivity).
  exists e. split; [done|].
  by destruct (equity_curve_has_one_row_per_bar demo_config [demo_strategy]
                 100000 0 e He) as [? _].
Defined.

Lemma run_strategies_silent {S} (strategies : list (Strategy.t S)) timestamp
    market_events :
  Forall silent strategies →
  (run_strategies strategies timestamp market_events).1 = []
  ∧ Forall silent (run_strategies strategies timestamp market_events).2.
Proof.
  induction 1 as [|strat strategies Hstrat _ [IH1 IH2]]; simpl; [done|].
  pose proof (Hstrat (Strategy.state strat) timestamp market_events) as Hs.
  destruct (Strategy.on_bar strat _ _ _) as [emits s].
  destruct (run_strategies strategies timestamp market_events)
    as [signals strategies'].
  simpl in *. subst. split; [done|]. by constructor.
Qed.

Lemma engine_step_silent {S} cfg (strategies : list (Strategy.t S))
    initial_capital curve m c timestamp market_events :
  Forall silent strategies →
  ∃ strategies',
    engine_step cfg
      (Engine.mk strategies (untouched initial_capital curve) [] m c)
      (timestamp, market_events)
    = Some (Engine.mk strategies'
              (untouched initial_capital
                 (curve ++ [Snapshot.mk timestamp initial_capital 0
                              (initial_capital + 0) 0 0 0]))
              [] m c)
    ∧ Forall silent strategies'.
Proof.
  intros Hsilent. unfold engine_step. simpl.
  destruct (run_strategies_silent strategies timestamp market_events Hsilent)
    as [Hsig Hsilent'].
  destruct (run_strategies strategies timestamp market_events)
    as [signals strategies'].
  simpl in *. subst signals. unfold risk_orders. simpl.
  by exists strategies'.
Qed.

Lemma run_bars_silent {S} cfg (strategies : list (Strategy.t S))
    initial_capital curve m c bars :
  Forall silent strategies →
  ∃ strategies',
    run_bars cfg
      (Engine.mk strategies (untouched initial_capital curve) [] m c) bars
    = Some (Engine.mk strategies'
              (untouched initial_capital
                 (curve ++ ((λ bar, Snapshot.mk bar.1 initial_capital 0
                                      (initial_capital + 0) 0 0 0)
                              <$> bars)))
              [] m c).
Proof.
  revert strategies curve.
  induction bars as [|[timestamp market_events] bars IH];
    intros strategies curve Hsilent; cbn [run_bars].
  - exists strategies. by rewrite app_nil_r.
  - destruct (engine_step_silent cfg strategies initial_capital curve m c
                timestamp market_events Hsilent)
      as (strategies1 & -> & Hsilent1).
    cbn [mbind option_bind].
    destruct (IH strategies1
                (curve ++ [Snapshot.mk timestamp initial_capital 0
                             (initial_capital + 0) 0 0 0]) Hsilent1)
      as (strategies' & ->).
    exists strategies'. rewrite fmap_cons, <-app_assoc. done.
Qed.

(** X24. A run whose strategies never emit a signal (in particular a run
    without strategies), once finished, has made no trade, holds no
    position, has no pending order and has drawn no order id; the cash is
    the initial capital, and every snapshot of the equity curve shows the
    initial capital as cash and as equity and nothing held. *)
Theorem silent_run_leaves_the_capital_untouched {S} (cfg : Engine.config)
    (strategies : list (Strategy.t S)) (initial_capital : Q) (counter : N)
    (e : Engine.t S) :
  Forall silent strategies →
  run cfg (Engine.init strategies initial_capital counter) = Some e →
  trade_log (Engine.portfolio e) = []
  ∧ open_positions (Engine.portfolio e) = []
  ∧ Engine._pending e = []
  ∧ Engine._order_counter e = counter
  ∧ Portfolio.cash (Engine.portfolio e) = initial_capital
  ∧ Forall (λ snap, Snapshot.cash snap = initial_capital
                    ∧ (Snapshot.equity snap == initial_capital)%Q
                    ∧ Snapshot.holdings_value snap = 0%Q
                    ∧ Snapshot.unrealized_pnl snap = 0%Q)
           (Portfolio._equity_curve (Engine.portfolio e)).
Proof.
  intros Hsilent He. unfold run in He.
  destruct (run_bars_silent cfg strategies initial_capital [] ∅ counter
              (feed_iter (Engine.feed cfg)) Hsilent) as (strategies' & Hrun).
  assert (Some e
          = Some (Engine.mk strategies'
                    (untouched initial_capital
                       ([] ++ ((λ bar, Snapshot.mk bar.1 initial_capital 0
                                         (initial_capital + 0) 0 0 0)
                                 <$> feed_iter (Engine.feed cfg))))
                    [] ∅ counter)) as Heq by (rewrite <-He; exact Hrun).
  apply (inj Some) in Heq. subst e. simpl.
  repeat (split; [done|]).
  apply Forall_fmap, Forall_forall. intros bar _. simpl.
  split; [done|]. split; [ring|done].
Qed.

Lemma silent_run_leaves_the_capital_untouched_witness :
  ∃ e, run demo_config (Engine.init ([] : list (Strategy.t unit)) 100000 0)
       = Some e
       ∧ trade_log (Engine.portfolio e) = [].
Proof.
  assert (∃ e, run demo_config
                 (Engine.init ([] : list (Strategy.t unit)) 100000 0) = Some e)
    as [e He] by (eexists; vm_compute; reflexivity).
  exists e. split; [exact He|].
  exact (proj1 (silent_run_leaves_the_capital_untouched demo_config
                  ([] : list (Strategy.t unit)) 100000 0 e
                  (Forall_nil_2 _) He)).
Defined.

Lemma Qleb_negb_Qltb p : Qleb p 0 = negb (Qltb 0 p).
Proof. unfold Qleb, Qltb. by rewrite negb_involutive. Qed.

Lemma series_sum_Qsum l : (series_sum l == Qsum l)%Q.
Proof.
  unfold series_sum. rewrite (fold_left_Qsum l l).
  - ring.
  - induction l; by constructor.
Qed.

Lemma wins_and_losses_count (l : list Q) :
  (length (List.filter (λ p, Qltb 0 p) l)
   + length (List.filter (λ p, Qleb p 0) l))%nat = length l.
Proof.
  induction l as [|p l IH]; simpl; [done|].
  rewrite Qleb_negb_Qltb. destruct (Qltb 0 p); simpl; lia.
Qed.

Lemma wins_and_losses_sum (l : list Q) :
  (Qsum (List.filter (λ p, Qltb 0 p) l)
   + Qsum (List.filter (λ p, Qleb p 0) l) == Qsum l)%Q.
Proof.
  unfold Qsum. induction l as [|p l IH]; simpl; [ring|].
  rewrite Qleb_negb_Qltb. destruct (Qltb 0 p); simpl; rewrite <-IH; ring.
Qed.

Lemma Qsum_wins_nonneg (l : list Q) :
  (0 <= Qsum (List.filter (λ p, Qltb 0 p) l))%Q.
Proof.
  unfold Qsum. induction l as [|p l IH]; simpl; [lra|].
  destruct (Qltb 0 p) eqn:Hp; simpl; [|done]. apply Qltb_lt in Hp. lra.
Qed.

Lemma Qsum_losses_nonpos (l : list Q) :
  (Qsum (List.filter (λ p, Qleb p 0) l) <= 0)%Q.
Proof.
  unfold Qsum. induction l as [|p l IH]; simpl; [lra|].
  destruct (Qleb p 0) eqn:Hp; simpl; [|done]. apply Qleb_le in Hp. lra.
Qed.

Lemma series_min_le x l : (series_min x l <= x)%Q.
Proof.
  unfold series_min. revert x. induction l as [|y l IH]; intros x; simpl;
    [lra|].
  eapply Qle_trans; [apply IH|]. apply py_min_le_l.
Qed.

Lemma series_max_ge x l : (x <= series_max x l)%Q.
Proof.
  unfold series_max. revert x. induction l as [|y l IH]; intros x; simpl;
    [lra|].
  eapply Qle_trans; [|apply IH]. apply py_max_ge_l.
Qed.

(** X25. The statistics [trade_statistics] returns add up: the wins and
    the losses are all the SELL rows, gross profit less gross loss is the
    total P&L, neither is negative, the win rate lies in [0, 1], the worst
    trade is not above the best, and the profit factor is infinite exactly
    when the gross loss is zero.  A log without a SELL row gives the empty
    dictionary; the frame of an empty log has no [side] column and the call
    raises. *)
Theorem trade_statistics_add_up (log : list TradeRecord.t)
    (stats : TradeStats.t) :
  trade_statistics log = Some (Some stats) →
  TradeStats.n_trades stats
  = length (List.filter
              (λ t, bool_decide (TradeRecord.side t = "SELL"%string)) log)
  ∧ (0 < TradeStats.n_trades stats)%nat
  ∧ (TradeStats.n_wins stats + TradeStats.n_losses stats)%nat
    = TradeStats.n_trades stats
  ∧ (TradeStats.gross_profit stats - TradeStats.gross_loss stats
     == TradeStats.total_pnl stats)%Q
  ∧ (0 <= TradeStats.gross_profit stats)%Q
  ∧ (0 <= TradeStats.gross_loss stats)%Q
  ∧ (0 <= TradeStats.win_rate stats)%Q
  ∧ (TradeStats.win_rate stats <= 1)%Q
  ∧ (TradeStats.worst_trade stats <= TradeStats.best_trade stats)%Q
  ∧ TradeStats.expectancy stats = TradeStats.avg_trade_pnl stats
  ∧ (TradeStats.profit_factor stats = None
     ↔ (TradeStats.gross_loss stats == 0)%Q).
Proof.
  unfold trade_statistics. destruct log as [|t0 log0]; [done|].
  set (log := t0 :: log0).
  set (rows := List.filter
                 (λ t, bool_decide (TradeRecord.side t = "SELL"%string)) log).
  destruct (TradeRecord.pnl <$> rows) as [|x rest] eqn:Hsells; [done|].
  intros Hstats. do 2 apply (inj Some) in Hstats. subst stats.
  cbn [TradeStats.n_trades TradeStats.n_wins TradeStats.n_losses
    TradeStats.gross_profit TradeStats.gross_loss TradeStats.total_pnl
    TradeStats.win_rate TradeStats.worst_trade TradeStats.best_trade
    TradeStats.expectancy TradeStats.avg_trade_pnl TradeStats.profit_factor].
  pose proof (wins_and_losses_count (x :: rest)) as Hcount.
  pose proof (wins_and_losses_sum (x :: rest)) as Hsum.
  pose proof (Qsum_wins_nonneg (x :: rest)) as Hwins.
  pose proof (Qsum_losses_nonpos (x :: rest)) as Hlosses.
  assert (length (x :: rest) = length rows) as Hlen.
  { by rewrite <-Hsells, length_fmap. }
  assert (0 < length (x :: rest))%nat as Hpos by (simpl; lia).
  revert Hcount Hsum Hwins Hlosses Hlen Hpos.
  generalize (x :: rest). intros sells Hcount Hsum Hwins Hlosses Hlen Hpos.
  assert (Qabs (series_sum (List.filter (λ p, Qleb p 0) sells))
          == - Qsum (List.filter (λ p, Qleb p 0) sells))%Q as Habs.
  { rewrite series_sum_Qsum. by apply Qabs_neg. }
  split; [done|]. split; [done|]. split; [done|].
  split; [rewrite Habs, !series_sum_Qsum, <-Hsum; ring|].
  split; [by rewrite series_sum_Qsum|].
  split; [apply Qabs_nonneg|].
  assert (0 < inject_Z (Z.of_nat (length sells)))%Q as Hn.
  { change 0%Q with (inject_Z 0). rewrite <-Zlt_Qlt. lia. }
  split.
  { apply Qle_shift_div_l; [done|]. rewrite Qmult_0_l.
    change 0%Q with (inject_Z 0). rewrite <-Zle_Qle. lia. }
  split.
  { apply Qle_shift_div_r; [done|]. rewrite Qmult_1_l, <-Zle_Qle. lia. }
  split.
  { eapply Qle_trans; [apply series_min_le|apply series_max_ge]. }
  split; [done|].
  destruct (Qeqb _ 0) eqn:Hz.
  - apply Qeqb_eq in Hz. done.
  - apply Qeqb_neq in Hz. split; [done|]. intros Hz'. by destruct Hz.
Qed.

Lemma trade_statistics_add_up_witness :
  ∃ stats,
    trade_statistics
      [TradeRecord.mk 1 "AAA" "BUY" 10 100 0 0 0 "ORD-000001" "S1";
       TradeRecord.mk 2 "AAA" "SELL" 10 110 0 0 100 "ORD-000002" "S1"]
    = Some (Some stats)
    ∧ (TradeStats.n_wins stats + TradeStats.n_losses stats)%nat
      = TradeStats.n_trades stats.
Proof.
  assert (∃ stats,
            trade_statistics
              [TradeRecord.mk 1 "AAA" "BUY" 10 100 0 0 0 "ORD-000001" "S1";
               TradeRecord.mk 2 "AAA" "SELL" 10 110 0 0 100 "ORD-000002" "S1"]
            = Some (Some stats)) as [stats Hstats]
    by (eexists; vm_compute; reflexivity).
  exists stats. split; [done|].
  by destruct (trade_statistics_add_up _ _ Hstats) as (_ & _ & ? & _).
Defined.

(** The two ways [trade_statistics] returns without statistics. *)
Lemma trade_statistics_without_sells (log : list TradeRecord.t) :
  (trade_statistics log = None ↔ log = [])
  ∧ (trade_statistics log = Some None ↔
     log ≠ []
     ∧ Forall (λ t, TradeRecord.side t ≠ "SELL"%string) log).
Proof.
  unfold trade_statistics. destruct log as [|t0 log0].
  { split; [done|]. split; [done|]. by intros [? _]. }
  split; [done|].
  set (log := t0 :: log0).
  assert (TradeRecord.pnl
            <$> List.filter
                  (λ t, bool_decide (TradeRecord.side t = "SELL"%string)) log
          = []
          ↔ Forall (λ t, TradeRecord.side t ≠ "SELL"%string) log) as Hiff.
  { generalize log. intros l. induction l as [|t l IH]; simpl.
    - split; [constructor|done].
    - case_bool_decide as Hside; simpl.
      + split; [done|]. by intros [? _]%Forall_cons.
      + rewrite IH, Forall_cons. split; [by intros ?|by intros [_ ?]]. }
  destruct (TradeRecord.pnl <$> _) as [|x rest].
  - split; [|done]. intros _. split; [done|]. by apply Hiff.
  - split; [done|]. intros [_ Hall]. by apply Hiff in Hall.
Qed.

(** X26. [emit_signal] clamps the strength to [0, 1]: the signal it
    appends has a strength between 0 and 1, equal to the given strength
    when that lies in [0, 1], to 0 below and to 1 above; every other field
    is passed on, with the strategy's id. *)
Theorem emit_signal_clamps_the_strength (strategy_id : string) (e : Emit.t) :
  let sig := emit_signal strategy_id e in
  (0 <= SignalEvent.strength sig)%Q
  ∧ (SignalEvent.strength sig <= 1)%Q
  ∧ ((0 <= Emit.strength e)%Q → (Emit.strength e <= 1)%Q →
     (SignalEvent.strength sig == Emit.strength e)%Q)
  ∧ ((Emit.strength e < 0)%Q → SignalEvent.strength sig = 0%Q)
  ∧ ((1 < Emit.strength e)%Q → SignalEvent.strength sig = 1%Q)
  ∧ SignalEvent.strategy_id sig = strategy_id
  ∧ SignalEvent.timestamp sig = Emit.timestamp e
  ∧ SignalEvent.symbol sig = Emit.symbol e
  ∧ SignalEvent.direction sig = Emit.direction e
  ∧ SignalEvent.stop_loss sig = Emit.stop_loss e
  ∧ SignalEvent.take_profit sig = Emit.take_profit e.
Proof.
  unfold emit_signal. simpl. unfold py_max, py_min.
  destruct (Qltb (Emit.strength e) 1) eqn:H1.
  - apply Qltb_lt in H1.
    destruct (Qltb 0 (Emit.strength e)) eqn:H0.
    + apply Qltb_lt in H0. repeat split; try done; try lra.
    + apply Qltb_ge in H0. repeat split; try done; try lra.
  - apply Qltb_ge in H1.
    assert (Qltb 0 1 = true) as -> by done.
    repeat split; try done; try lra.
Qed.

Lemma emit_signal_clamps_the_strength_witness :
  SignalEvent.strength
    (emit_signal "S1" (Emit.mk 1 "AAA" LONG 3 None None)) = 1%Q.
Proof.
  apply (emit_signal_clamps_the_strength "S1"
           (Emit.mk 1 "AAA" LONG 3 None None)).
  by vm_compute.
Defined.

(** X27. A round trip: on a symbol that is not held, a BUY of a quantity
    at one price followed by a SELL of the same quantity at another leaves
    no position in the symbol, logs the two rows with the realized P&L
    [(sell price - buy price) * quantity] on the SELL row, and changes the
    cash by that P&L less the two commissions. *)
Theorem buy_then_sell_realizes_the_price_difference (pf : Portfolio.t)
    (buy sell : FillEvent.t) :
  FillEvent.side buy = BUY → FillEvent.side sell = SELL →
  FillEvent.symbol sell = FillEvent.symbol buy →
  FillEvent.quantity sell = FillEvent.quantity buy →
  dict_get (FillEvent.symbol buy) (Portfolio._positions pf) = None →
  ∃ pf1 pf2,
    on_fill pf buy = Some pf1 ∧ on_fill pf1 sell = Some pf2
    ∧ dict_get (FillEvent.symbol buy) (Portfolio._positions pf2) = None
    ∧ Portfolio._trades pf2
      = Portfolio._trades pf
        ++ [trade_of_fill buy 0;
            trade_of_fill sell
              ((FillEvent.fill_price sell - FillEvent.fill_price buy)
               * FillEvent.quantity sell)%Q]
    ∧ (Portfolio.cash pf2
       == Portfolio.cash pf
          + (FillEvent.fill_price sell - FillEvent.fill_price buy)
            * FillEvent.quantity buy
          - FillEvent.commission buy - FillEvent.commission sell)%Q.
Proof.
  intros Hbuy Hsell Hsym Hqty Hnone.
  unfold on_fill. rewrite Hbuy.
  rewrite _process_buy_no_long by (intros pos; by rewrite Hnone).
  cbn [mbind option_bind]. eexists. eexists. split; [reflexivity|].
  rewrite Hsell. cbn [Portfolio._positions Portfolio._trades Portfolio.cash].
  unfold _process_sell. rewrite Hsym, dict_get_set_eq.
  cbn [Position.quantity Position.avg_entry Position.symbol
       Position.stop_loss Position.take_profit Position.realized_pnl].
  rewrite Hqty. rewrite (proj2 (Qltb_lt _ _)).
  2:{ match goal with
      | |- (Qabs ?e < _)%Q => assert (e == 0)%Q as -> by ring
      end. done. }
  cbn [mbind option_bind]. split; [reflexivity|].
  cbn [Portfolio._positions Portfolio._trades Portfolio.cash].
  split; [apply dict_get_del_eq|]. split.
  - unfold _record_trade, trade_of_fill. rewrite <-app_assoc, Hsym, Hqty. done.
  - ring.
Qed.

Lemma buy_then_sell_realizes_the_price_difference_witness :
  ∃ pf1 pf2,
    on_fill (Portfolio.init 100000)
      (FillEvent.mk 1 "AAA" BUY 10 100 1 0 "ORD-000001" "S1") = Some pf1
    ∧ on_fill pf1 (FillEvent.mk 2 "AAA" SELL 10 110 1 0 "ORD-000002" "S1")
      = Some pf2
    ∧ dict_get "AAA" (Portfolio._positions pf2) = None.
Proof.
  destruct (buy_then_sell_realizes_the_price_difference
              (Portfolio.init 100000)
              (FillEvent.mk 1 "AAA" BUY 10 100 1 0 "ORD-000001" "S1")
              (FillEvent.mk 2 "AAA" SELL 10 110 1 0 "ORD-000002" "S1"))
    as (pf1 & pf2 & H1 & H2 & H3 & _); try reflexivity.
  exists pf1, pf2. split; [exact H1|]. split; [exact H2|exact H3].
Defined.

(** X28. Averaging up: a BUY on a held long position adds the quantities
    and the cost bases; the new average entry price is the total cost
    divided by the total quantity, and stop levels and realized P&L of the
    position are kept. *)
Theorem buy_on_a_long_position_adds_the_cost_bases (pf : Portfolio.t)
    (fill : FillEvent.t) (pos : Position.t) :
  FillEvent.side fill = BUY →
  dict_get (FillEvent.symbol fill) (Portfolio._positions pf) = Some pos →
  (0 < Position.quantity pos)%Q → (0 < FillEvent.quantity fill)%Q →
  ∃ pf' pos',
    on_fill pf fill = Some pf'
    ∧ dict_get (FillEvent.symbol fill) (Portfolio._positions pf') = Some pos'
    ∧ Position.quantity pos'
      = (Position.quantity pos + FillEvent.quantity fill)%Q
    ∧ (cost_basis pos'
       == cost_basis pos
          + FillEvent.quantity fill * FillEvent.fill_price fill)%Q
    ∧ Position.stop_loss pos' = Position.stop_loss pos
    ∧ Position.take_profit pos' = Position.take_profit pos
    ∧ Position.realized_pnl pos' = Position.realized_pnl pos
    ∧ (Portfolio.cash pf'
       == Portfolio.cash pf
          - FillEvent.quantity fill * FillEvent.fill_price fill
          - FillEvent.commission fill)%Q.
Proof.
  intros Hside Hget Hpos Hqty. unfold on_fill, _process_buy.
  rewrite Hside, Hget. cbn [mbind option_bind].
  rewrite (proj2 (Qltb_lt _ _) Hpos).
  rewrite (proj2 (Qeqb_neq _ _)) by lra.
  cbn [mbind option_bind]. eexists. eexists. split; [reflexivity|].
  cbn [Portfolio._positions Portfolio.cash]. rewrite dict_get_set_eq.
  split; [reflexivity|].
  unfold cost_basis.
  cbn [Position.quantity Position.avg_entry Position.stop_loss
       Position.take_profit Position.realized_pnl].
  split; [done|]. split; [field; lra|].
  split; [done|]. split; [done|]. split; [done|]. ring.
Qed.

Lemma buy_on_a_long_position_adds_the_cost_bases_witness :
  ∃ pf',
    on_fill (Portfolio.mk 1000 1000
               [("AAA"%string, Position.mk "AAA" 10 100 None None 0)]
               [] [] 0 0)
            (FillEvent.mk 2 "AAA" BUY 10 110 0 0 "ORD-000002" "S1")
    = Some pf'.
Proof.
  destruct (buy_on_a_long_position_adds_the_cost_bases
              (Portfolio.mk 1000 1000
                 [("AAA"%string, Position.mk "AAA" 10 100 None None 0)]
                 [] [] 0 0)
              (FillEvent.mk 2 "AAA" BUY 10 110 0 0 "ORD-000002" "S1")
              (Position.mk "AAA" 10 100 None None 0))
    as (pf' & pos' & H & _); try reflexivity.
  exists pf'. exact H.
Defined.

Lemma attached_stop_triggers_the_sweep_witness :
  ∃ o, o ∈ (check_stop_conditions
              (open_positions_detail
                 (attach_stop_tp
                    (Portfolio.mk 1000 0
                       [("AAA"%string, Position.mk "AAA" 10 100 None None 0)]
                       [] [] 0 0)
                    "ORD-000001" "AAA" (Some 98%Q) None))
              {["AAA"%string := MarketEvent.mk 2 "AAA" 100 100 97 98 1000]}
              1).1
       ∧ OrderEvent.side o = SELL ∧ OrderEvent.quantity o = 10%Q.
Proof.
  destruct (proj2 (attached_stop_triggers_the_sweep
                     (Portfolio.mk 1000 0
                        [("AAA"%string, Position.mk "AAA" 10 100 None None 0)]
                        [] [] 0 0)
                     "ORD-000001" "AAA" 98 None
                     {["AAA"%string := MarketEvent.mk 2 "AAA" 100 100 97 98 1000]}
                     1)
              (Position.mk "AAA" 10 100 None None 0)
              (MarketEvent.mk 2 "AAA" 100 100 97 98 1000))
    as (o & Ho & _ & Hside & _ & Hqty & _); try by vm_compute.
  exists o. split; [exact Ho|]. split; [exact Hside|exact Hqty].
Defined.

Lemma mtm_loop_unrealized market_events positions h u :
  ((mtm_loop market_events positions h u).2 - u
   == (mtm_loop market_events positions h u).1 - h
      - Qsum ((λ kv, cost_basis kv.2) <$> positions))%Q.
Proof.
  revert h u. induction positions as [|[sym pos] positions IH]; intros h u.
  - unfold Qsum. simpl. ring.
  - cbn [mtm_loop]. rewrite fmap_cons. unfold Qsum. cbn [foldr].
    fold (Qsum ((λ kv, cost_basis kv.2) <$> positions)).
    specialize (IH (h + Position.market_value pos
                         (price_used market_events sym pos))%Q
                   (u + Position.unrealized_pnl pos
                          (price_used market_events sym pos))%Q).
    unfold Position.market_value, Position.unrealized_pnl, cost_basis in *.
    cbn [snd]. lra.
Qed.

Lemma sum_pnl_Qsum trades :
  (sum_pnl trades == Qsum (TradeRecord.pnl <$> trades))%Q.
Proof.
  unfold sum_pnl.
  assert (∀ a, fold_left (λ acc t, acc + TradeRecord.pnl t) trades a
               == a + Qsum (TradeRecord.pnl <$> trades))%Q as H.
  { induction trades as [|t trades IH]; intros a.
    - unfold Qsum. simpl. ring.
    - cbn [fold_left]. rewrite fmap_cons, IH. unfold Qsum. cbn [foldr].
      ring. }
  rewrite H. ring.
Qed.

Lemma holdings_without_bars market_events positions :
  Forall (λ kv, market_events !! kv.1 = None) positions →
  (holdings market_events positions
   == Qsum ((λ kv, cost_basis kv.2) <$> positions))%Q.
Proof.
  unfold holdings. induction 1 as [|[sym pos] positions Hsym _ IH].
  - reflexivity.
  - rewrite !fmap_cons. unfold Qsum in *. cbn [foldr]. rewrite IH.
    unfold claimed_price, cost_basis. simpl in Hsym. cbn [fst snd].
    rewrite Hsym. ring.
Qed.

(** X29. In the snapshot [mark_to_market] appends, the unrealized P&L is
    the holdings value less the cost bases of the open positions, and the
    realized P&L is the sum of the [pnl] column of the trade log; on a bar
    that carries none of the held symbols every position is valued at its
    entry price, so the unrealized P&L is zero. *)
Theorem mark_to_market_unrealized_is_value_less_cost (pf : Portfolio.t)
    (timestamp : Z) (market_events : gmap string MarketEvent.t) :
  let snap := mtm_snapshot pf timestamp market_events in
  (Snapshot.unrealized_pnl snap
   == Snapshot.holdings_value snap
      - Qsum ((λ kv, cost_basis kv.2) <$> Portfolio._positions pf))%Q
  ∧ (Snapshot.realized_pnl snap
     == Qsum (TradeRecord.pnl <$> trade_log pf))%Q
  ∧ (Forall (λ kv, market_events !! kv.1 = None) (Portfolio._positions pf) →
     (Snapshot.unrealized_pnl snap == 0)%Q).
Proof.
  unfold mtm_snapshot.
  pose proof (mtm_loop_unrealized market_events (Portfolio._positions pf) 0 0)
    as Hu.
  pose proof (mtm_loop_holdings market_events (Portfolio._positions pf) 0 0)
    as Hh.
  destruct (mtm_loop market_events (Portfolio._positions pf) 0 0)
    as [holdings_value unrealized_pnl].
  cbn [fst snd] in Hu, Hh.
  cbn [Snapshot.unrealized_pnl Snapshot.holdings_value Snapshot.realized_pnl].
  split; [lra|]. split; [apply sum_pnl_Qsum|].
  intros Hnone.
  pose proof (holdings_without_bars _ _ Hnone) as Hcost.
  lra.
Qed.

Lemma mark_to_market_unrealized_is_value_less_cost_witness :
  (Snapshot.unrealized_pnl
     (mtm_snapshot
        (Portfolio.mk 1000 0
           [("AAA"%string, Position.mk "AAA" 10 100 None None 0)] [] [] 0 0)
        1 ∅) == 0)%Q.
Proof.
  apply (mark_to_market_unrealized_is_value_less_cost
           (Portfolio.mk 1000 0
              [("AAA"%string, Position.mk "AAA" 10 100 None None 0)]
              [] [] 0 0) 1 ∅).
  repeat constructor.
Defined.
